(** * structor: the namespace-module installation pipeline

    A shallow embedding of [preInstall] and [installFromLocalDir] from
    [src-server/structor/controller.js], together with the properties of
    the pipeline that the specification states; and of the rest of the
    controller that has behaviour of its own: the set-up of the server
    and of its proxy route, and the listing of the scaffold generators.

    The controller is a chain of promises over external collaborators
    ([commons], [storage], [gengine] of the [structor-commons] package and
    Node's [path]).  The embedding keeps that shape:

    - every asynchronous collaborator call is an event pair
      [Started c] / [Settled c ok] in a trace, and the collaborators answer
      through an oracle [World] that sees the whole history so far;
    - a promise, run from a history, yields the events it adds to it and
      an [Outcome];
    - [Promise.all] over chains that share closure variables is a
      scheduler loop: the world decides which pending call settles next,
      the callbacks of the settled chain run to the next pending call.

    The collaborators are not part of this repository: they are
    parameters, and every statement holds for all of them. *)

From Stdlib Require Import Ascii.
From Stdlib Require OrderedTypeEx Sorted.
From stdpp Require Import gmap strings list.

Local Open Scope string_scope.
Local Open Scope list_scope.

(** ** Node's [path.join] (POSIX flavour) *)

Module Path.

Definition is_sep (c : ascii) : bool := Ascii.eqb c "/"%char.

(** The pieces of a path between separators: ["a//b"] has the pieces
    ["a"], [""] and ["b"]. *)
Fixpoint pieces (s : string) : list string :=
  match s with
  | EmptyString => [EmptyString]
  | String c s' =>
      if is_sep c then EmptyString :: pieces s'
      else match pieces s' with
           | p :: ps => String c p :: ps
           | [] => [String c EmptyString]
           end
  end.

(** One step of [normalizeString]: [res] is the stack of segments kept
    so far, innermost first. *)
Definition keep (allowAboveRoot : bool) (res : list string) (seg : string)
  : list string :=
  if String.eqb seg "" || String.eqb seg "." then res
  else if String.eqb seg ".." then
    match res with
    | [] => if allowAboveRoot then [".."] else []
    | last :: res' =>
        if String.eqb last ".."
        then (if allowAboveRoot then ".." :: res else res)
        else res'
    end
  else seg :: res.

Fixpoint glue (segs : list string) : string :=
  match segs with
  | [] => ""
  | [s] => s
  | s :: rest => s +:+ "/" +:+ glue rest
  end.

Definition starts_with_sep (s : string) : bool :=
  match s with
  | String c _ => is_sep c
  | EmptyString => false
  end.

Fixpoint ends_with_sep (s : string) : bool :=
  match s with
  | EmptyString => false
  | String c EmptyString => is_sep c
  | String _ s' => ends_with_sep s'
  end.

Definition normalize (p : string) : string :=
  if String.eqb p "" then "."
  else
    let isAbsolute := starts_with_sep p in
    let trailingSeparator := ends_with_sep p in
    let res := glue (rev (fold_left (keep (negb isAbsolute)) (pieces p) [])) in
    if String.eqb res "" then
      (if isAbsolute then "/" else if trailingSeparator then "./" else ".")
    else
      let res := if trailingSeparator then res +:+ "/" else res in
      if isAbsolute then "/" +:+ res else res.

(** [path.join(...args)]: the non-empty arguments joined by ["/"], then
    normalized. *)
Definition join (args : list string) : string :=
  match filter (fun a => negb (String.eqb a "")) args with
  | [] => "."
  | joined => normalize (glue joined)
  end.

(** A plain segment: a file or directory name, neither empty nor ["."]
    nor [".."], and without a separator. *)
Fixpoint no_sep (s : string) : bool :=
  match s with
  | EmptyString => true
  | String c s' => negb (is_sep c) && no_sep s'
  end.

Definition plain (s : string) : bool :=
  no_sep s && negb (String.eqb s "") && negb (String.eqb s ".")
  && negb (String.eqb s "..").

End Path.

Arguments Path.join : simpl never.
Arguments Path.normalize : simpl never.

(** ** Data model *)

(** One entry of [structor-namespaces.json]'s [namespaces] object. *)
Record NamespaceMeta := { reducerPropName : string }.

(** The manifest.  [namespaces] is a JS object walked with lodash's
    [forOwn]; it is kept as the list of its own keys in iteration order. *)
Record Manifest := {
  namespaces : list (string * NamespaceMeta);
  dependencies : list string
}.

(** An entry of [readDirectoryFlat]'s [dirs]. *)
Record DirItem := { name : string; path : string }.

(** [readDirectoryFlat]'s result; [dirs] may be [undefined]. *)
Record FoundFiles := { dirs : option (list DirItem) }.

(** What [storage.getComponentTree()] resolves with.  [modules] is a JS
    object keyed by namespace name, or [undefined]; its values are module
    descriptions, which are objects and therefore truthy.  The map holds
    the object's own keys; what a property read finds besides them is in
    [hasModule]. *)
Record ComponentTree {ModuleInfo : Type} := {
  modules : option (gmap string ModuleInfo);
  reducersSourceCode : string;
  reducersFilePath : string;
  sagasSourceCode : string;
  sagasFilePath : string;
  indexSourceCode : string;
  indexFilePath : string
}.
Arguments ComponentTree : clear implicits.

(** The three [config] getters that [installFromLocalDir] reads. *)
Record Config := {
  appDirPath : string;
  componentDefaultsDirPath : string;
  docsComponentsDirPath : string
}.

(** [options] of both entry points; a field is [None] when [undefined]. *)
Record Options := { dirPath : option string; url : option string }.

(** JS truthiness of an optional string. *)
Definition truthy (o : option string) : bool :=
  match o with
  | Some s => negb (String.eqb s "")
  | None => false
  end.

(** The value [preInstall] resolves with. *)
Record PreInstallResult := {
  namespacesSrcDirPath : string;
  existingNamespaceDirs : list string
}.

(** ** Calls, events and outcomes *)

(** The asynchronous collaborator calls ([commons.*], [storage.*]). *)
Inductive Call :=
| ReadJson (filePath : string)
| GetComponentTree
| InstallDependencies (deps : list string)
| ReadDirectoryFlat (dir : string)
| IsExisting (filePath : string)
| WriteFile (filePath text : string)
| RemoveFile (filePath : string)
| CopyFile (src dst : string).

(** The synchronous [gengine] calls, with their arguments. *)
Inductive Injection :=
| InjectReducer (code reducerName reducerIdent importPath : string)
| InjectSaga (code sagaIdent importPath : string)
| InjectNamespaceComponent (code namespace importPath : string).

Inductive Event :=
| Started (c : Call)
| Settled (c : Call) (fulfilled : bool)
| Invoked (g : Injection).

Abbreviation Trace := (list Event).

(** Rejection values.  [Error] is [throw Error(message)] in the controller,
    [TypeError] is raised by the runtime, [Cause] is whatever a
    collaborator rejected with. *)
Inductive Reason :=
| Error (message : string)
| TypeError
| Cause (e : string).

Inductive Result (A : Type) :=
| Ok (a : A)
| Err (e : string).
Arguments Ok {A} a.
Arguments Err {A} e.

(** How a call of an entry point ends: its promise resolves or rejects, or
    the call throws before a promise exists. *)
Inductive Outcome (A : Type) :=
| Resolved (a : A)
| Rejected (e : Reason)
| Thrown (e : Reason).
Arguments Resolved {A} a.
Arguments Rejected {A} e.
Arguments Thrown {A} e.

(** ** The collaborators *)

(** The environment answers every call from the history of the run: the
    events so far, the call's own [Started] included.  [settlesNext] picks,
    among the calls pending inside a [Promise.all], the one that settles
    next (taken modulo their number). *)
Record World {ModuleInfo : Type} := {
  readJson : Trace -> string -> Result Manifest;
  getComponentTree : Trace -> Result (ComponentTree ModuleInfo);
  installDependencies : Trace -> list string -> Result unit;
  readDirectoryFlat : Trace -> string -> Result FoundFiles;
  isExisting : Trace -> string -> Result unit;
  writeFile : Trace -> string -> string -> Result unit;
  removeFile : Trace -> string -> Result unit;
  copyFile : Trace -> string -> string -> Result unit;
  settlesNext : Trace -> list Call -> nat
}.
Arguments World : clear implicits.

(** [gengine]'s source injectors: text in, text out. *)
Record Gengine := {
  injectReducer : string -> string -> string -> string -> string;
  injectSaga : string -> string -> string -> string;
  injectNamespaceComponent : string -> string -> string -> string
}.

Definition failure {A} (r : Result A) : option string :=
  match r with
  | Ok _ => None
  | Err e => Some e
  end.

(** Whether, and with what, call [c] rejects at history [t]. *)
Definition settle {M} (w : World M) (t : Trace) (c : Call) : option string :=
  match c with
  | ReadJson p => failure (readJson w t p)
  | GetComponentTree => failure (getComponentTree w t)
  | InstallDependencies d => failure (installDependencies w t d)
  | ReadDirectoryFlat p => failure (readDirectoryFlat w t p)
  | IsExisting p => failure (isExisting w t p)
  | WriteFile p s => failure (writeFile w t p s)
  | RemoveFile p => failure (removeFile w t p)
  | CopyFile a b => failure (copyFile w t a b)
  end.

(** Calls that change the project or the file system. *)
Definition mutating (c : Call) : bool :=
  match c with
  | InstallDependencies _ | WriteFile _ _ | RemoveFile _ | CopyFile _ _ => true
  | ReadJson _ | GetComponentTree | ReadDirectoryFlat _ | IsExisting _ => false
  end.

Definition mutation (e : Event) : bool :=
  match e with
  | Started c | Settled c _ => mutating c
  | Invoked _ => false
  end.

(** File-system writes proper: [writeFile], [removeFile], [copyFile]. *)
Definition fileMutation (e : Event) : bool :=
  match e with
  | Started (WriteFile _ _) | Settled (WriteFile _ _) _
  | Started (RemoveFile _) | Settled (RemoveFile _) _
  | Started (CopyFile _ _) | Settled (CopyFile _ _) _ => true
  | _ => false
  end.

(** ** Promises *)

(** A promise, run from a history, yields the events it adds to the
    history and an outcome. *)
Definition Async (A : Type) := Trace -> Trace * Outcome A.

Definition resolve {A} (a : A) : Async A := fun _ => ([], Resolved a).
Definition reject {A} (e : Reason) : Async A := fun _ => ([], Rejected e).

(** [p.then(f)] with no rejection handler. *)
Definition andThen {A B} (p : Async A) (f : A -> Async B) : Async B :=
  fun h =>
    match p h with
    | (evs, Resolved a) =>
        match f a (h ++ evs) with
        | (evs', out) => (evs ++ evs', out)
        end
    | (evs, Rejected e) => (evs, Rejected e)
    | (evs, Thrown e) => (evs, Thrown e)
    end.

Notation "x <- p ;; q" := (andThen p (fun x => q))
  (at level 100, p at next level, right associativity).

(** One asynchronous call, started and awaited. *)
Definition await {A} (c : Call) (answer : Trace -> Result A) : Async A :=
  fun h =>
    match answer (h ++ [Started c]) with
    | Ok a => ([Started c; Settled c true], Resolved a)
    | Err e => ([Started c; Settled c false], Rejected (Cause e))
    end.

(** ** [preInstall] (controller.js, lines 252-308) *)

(** The property names that every plain object inherits from
    [Object.prototype]; each holds a function or, for [__proto__], the
    prototype itself, so a read of any of them is truthy. *)
Definition objectPrototypeNames : list string :=
  [ "constructor"; "__defineGetter__"; "__defineSetter__"; "hasOwnProperty";
    "__lookupGetter__"; "__lookupSetter__"; "isPrototypeOf";
    "propertyIsEnumerable"; "toString"; "valueOf"; "__proto__";
    "toLocaleString" ].

Section PreInstall.
Context {ModuleInfo : Type} (world : World ModuleInfo).

(** [componentTree.modules && componentTree.modules[name]] (line 297).
    [modules] is a plain object whose own values are objects, and the
    read is a plain property read: it answers for an own key and, failing
    that, for a name inherited from [Object.prototype]. *)
Definition hasModule (tree : ComponentTree ModuleInfo) (n : string) : bool :=
  match modules tree with
  | Some ms =>
      bool_decide (is_Some (ms !! n)) || bool_decide (n ∈ objectPrototypeNames)
  | None => false
  end.

(** Lines 286-294, shared by the three groups of the installer: list a
    directory and throw when it has no subdirectories. *)
Definition listDirs (dir message : string) : Async (list DirItem) :=
  foundFiles <- await (ReadDirectoryFlat dir) (fun h => readDirectoryFlat world h dir) ;;
  match dirs foundFiles with
  | None | Some [] => reject (Error message)
  | Some ds => resolve ds
  end.

(** Lines 295-301: the [forEach] that pushes colliding names. *)
Definition collisions (tree : ComponentTree ModuleInfo) (modulesDirs : list DirItem)
  : list string :=
  fold_left
    (fun existing module =>
       if hasModule tree (name module) then existing ++ [name module] else existing)
    modulesDirs [].

Definition preInstallFrom (namespacesSrcDirPath : string) : Async PreInstallResult :=
  let modulesSrcDirPath := Path.join [namespacesSrcDirPath; "modules"] in
  let namespacesFile := Path.join [namespacesSrcDirPath; "structor-namespaces.json"] in
  namespacesMeta <- await (ReadJson namespacesFile) (fun h => readJson world h namespacesFile) ;;
  componentTree <- await GetComponentTree (getComponentTree world) ;;
  modulesDirs <- listDirs modulesSrcDirPath "Modules directory is empty" ;;
  resolve {| namespacesSrcDirPath := namespacesSrcDirPath;
             existingNamespaceDirs := collisions componentTree modulesDirs |}.

Definition preInstall (options : Options) : Async PreInstallResult :=
  fun h =>
    if truthy (dirPath options) then
      match dirPath options with
      | Some d => preInstallFrom d h
      | None => ([], Thrown TypeError)
      end
    else if truthy (url options) then
      (* [namespacesSrcDirPath] is still undefined: [path.join] throws
         inside the first [then]. *)
      ([], Rejected TypeError)
    else
      (* [startPromise] is undefined: [startPromise.then] throws. *)
      ([], Thrown TypeError).

End PreInstall.

(** ** [Promise.all] over promise chains that share closure variables *)

Section PromiseAll.
Context {ModuleInfo : Type} (world : World ModuleInfo).
Context {Vars : Type}.

(** A [then] callback: it may assign closure variables, call [gengine]
    synchronously, and return a new promise (the call it starts). *)
Definition Callback := Vars -> Vars * Trace * option Call.

(** A chain [call.then(k1).then(k2)...] whose current call is pending. *)
Record Task := { pending : Call; thens : list Callback }.

(** The callbacks that run when the pending call fulfils, up to the next
    call that has to be awaited; [None] when the chain is fulfilled. *)
Fixpoint runCallbacks (ks : list Callback) (v : Vars)
  : Vars * Trace * option Task :=
  match ks with
  | [] => (v, [], None)
  | k :: ks' =>
      match k v with
      | (v', evs, Some c) =>
          (v', evs ++ [Started c], Some {| pending := c; thens := ks' |})
      | (v', evs, None) =>
          match runCallbacks ks' v' with
          | (v'', evs', next) => (v'', evs ++ evs', next)
          end
      end
  end.

(** The state of the loop: the chains still pending, the closure
    variables, the first rejection seen (what [Promise.all] rejects
    with), and the events added so far. *)
Record Pool := {
  tasks : list Task;
  vars : Vars;
  rejection : option Reason;
  emitted : Trace
  }.

Definition firstRejection (r : option Reason) (e : Reason) : option Reason :=
  match r with
  | Some e0 => Some e0
  | None => Some e
  end.

(** One settlement, in a run that began at history [past].  A rejected
    chain is dropped; the others stay pending and keep running whatever
    [Promise.all] has decided. *)
Definition settleOne (past : Trace) (p : Pool) : Pool :=
  let h := past ++ emitted p in
  let i := settlesNext world h (pending <$> tasks p) `mod` length (tasks p) in
  match tasks p !! i with
  | None => p
  | Some tk =>
      let c := pending tk in
      match settle world h c with
      | Some e =>
          {| tasks := delete i (tasks p);
             vars := vars p;
             rejection := firstRejection (rejection p) (Cause e);
             emitted := emitted p ++ [Settled c false] |}
      | None =>
          match runCallbacks (thens tk) (vars p) with
          | (v', evs, next) =>
              {| tasks := match next with
                          | Some tk' => <[i := tk']> (tasks p)
                          | None => delete i (tasks p)
                          end;
                 vars := v';
                 rejection := rejection p;
                 emitted := emitted p ++ Settled c true :: evs |}
          end
      end
  end.

Fixpoint settleAll (fuel : nat) (past : Trace) (p : Pool) : Pool :=
  match fuel with
  | 0 => p
  | S fuel' =>
      match tasks p with
      | [] => p
      | _ :: _ => settleAll fuel' past (settleOne past p)
      end
  end.

(** The number of settlements a chain can still need. *)
Definition weight (tk : Task) : nat := S (length (thens tk)).

Fixpoint totalWeight (tks : list Task) : nat :=
  match tks with
  | [] => 0
  | tk :: rest => weight tk + totalWeight rest
  end.

(** [Promise.all(tasks)] for chains already started: run every chain to
    its end, resolve if none rejected, reject with the first rejection
    otherwise. *)
Definition promiseAll (tks : list Task) (v : Vars) (past : Trace)
  : Vars * Trace * Outcome unit :=
  let p := settleAll (totalWeight tks) past
             {| tasks := tks; vars := v; rejection := None; emitted := [] |} in
  (vars p, emitted p,
   match rejection p with
   | None => Resolved tt
   | Some e => Rejected e
   end).

(** A [forEach] whose body assigns closure variables and pushes one
    started chain per item. *)
Fixpoint spawn {A} (body : A -> Vars -> Vars * Task) (items : list A) (v : Vars)
  : Vars * list Task :=
  match items with
  | [] => (v, [])
  | x :: rest =>
      match body x v with
      | (v', tk) =>
          match spawn body rest v' with
          | (v'', tks) => (v'', tk :: tks)
          end
      end
  end.

(** The loop, then [Promise.all] over what it pushed. *)
Definition forEachAll {A} (body : A -> Vars -> Vars * Task) (items : list A)
    (v : Vars) (past : Trace) : Vars * Trace * Outcome unit :=
  match spawn body items v with
  | (v', tks) =>
      let started := (fun tk => Started (pending tk)) <$> tks in
      match promiseAll tks v' (past ++ started) with
      | (v'', evs, out) => (v'', started ++ evs, out)
      end
  end.

End PromiseAll.

Arguments Task : clear implicits.
Arguments Pool : clear implicits.
Arguments Callback : clear implicits.

(** ** [installFromLocalDir] (controller.js, lines 310-450) *)

(** The closure variables of lines 333-337.  The two file-path variables
    are declared outside the [forOwn] loop and are undefined (here [""])
    until its first iteration assigns them. *)
Record RewriteVars := {
  globalReducerSourceCode : string;
  globalSagasSourceCode : string;
  moduleReducerFilePath : string;
  moduleSagasFilePath : string
}.

Section Install.
Context {ModuleInfo : Type}.
Context (config : Config) (gengine : Gengine) (world : World ModuleInfo).

(** A [Promise.all] as a promise resolving with the closure variables. *)
Definition allOf {Vars A} (body : A -> Vars -> Vars * Task Vars)
    (items : list A) (v : Vars) : Async Vars :=
  fun h =>
    match forEachAll world body items v h with
    | (v', evs, Resolved _) => (evs, Resolved v')
    | (_, evs, Rejected e) => (evs, Rejected e)
    | (_, evs, Thrown e) => (evs, Thrown e)
    end.

(** Lines 338-360: the body of the [forOwn] over the manifest. *)
Definition rewriteTask (modulesSrcDirPath : string)
    (entry : string * NamespaceMeta) (v : RewriteVars)
  : RewriteVars * Task RewriteVars :=
  let '(prop, value) := entry in
  let v1 := {| globalReducerSourceCode := globalReducerSourceCode v;
               globalSagasSourceCode := globalSagasSourceCode v;
               moduleReducerFilePath := Path.join [modulesSrcDirPath; prop; "reducer.js"];
               moduleSagasFilePath := Path.join [modulesSrcDirPath; prop; "sagas.js"] |} in
  (v1,
   {| pending := IsExisting (moduleReducerFilePath v1);
      thens :=
        [ (fun v => (v, [], Some (IsExisting (moduleSagasFilePath v))));
          (fun v =>
             let reducerCall :=
               InjectReducer (globalReducerSourceCode v)
                 (reducerPropName value)
                 (reducerPropName value +:+ "Reducer")
                 (Path.join ["modules"; prop; "reducer.js"]) in
             let reducers :=
               injectReducer gengine (globalReducerSourceCode v)
                 (reducerPropName value)
                 (reducerPropName value +:+ "Reducer")
                 (Path.join ["modules"; prop; "reducer.js"]) in
             let sagaCall :=
               InjectSaga (globalSagasSourceCode v)
                 (prop +:+ "Sagas")
                 (Path.join ["modules"; prop; "sagas.js"]) in
             let sagas :=
               injectSaga gengine (globalSagasSourceCode v)
                 (prop +:+ "Sagas")
                 (Path.join ["modules"; prop; "sagas.js"]) in
             ({| globalReducerSourceCode := reducers;
                 globalSagasSourceCode := sagas;
                 moduleReducerFilePath := moduleReducerFilePath v;
                 moduleSagasFilePath := moduleSagasFilePath v |},
              [Invoked reducerCall; Invoked sagaCall],
              None)) ] |}).

(** Lines 331-368: inject every namespace, then write both registries. *)
Definition rewriteRegistries (modulesSrcDirPath : string)
    (namespacesMeta : Manifest) (componentTree : ComponentTree ModuleInfo)
  : Async unit :=
  v <- allOf (rewriteTask modulesSrcDirPath) (namespaces namespacesMeta)
         {| globalReducerSourceCode := reducersSourceCode componentTree;
            globalSagasSourceCode := sagasSourceCode componentTree;
            moduleReducerFilePath := "";
            moduleSagasFilePath := "" |} ;;
  _ <- await (WriteFile (reducersFilePath componentTree) (globalReducerSourceCode v))
         (fun h => writeFile world h (reducersFilePath componentTree)
                     (globalReducerSourceCode v)) ;;
  await (WriteFile (sagasFilePath componentTree) (globalSagasSourceCode v))
    (fun h => writeFile world h (sagasFilePath componentTree)
                (globalSagasSourceCode v)).

(** Lines 381-389 and 439-447: replace one directory of the group. *)
Definition copyTask (destRoot : string) (item : DirItem) (v : unit)
  : unit * Task unit :=
  let destDirPath := Path.join [destRoot; name item] in
  (v,
   {| pending := RemoveFile destDirPath;
      thens := [ (fun v => (v, [], Some (CopyFile (path item) destDirPath))) ] |}).

Definition copyGroup (destRoot : string) (items : list DirItem) : Async unit :=
  _ <- allOf (copyTask destRoot) items tt ;;
  resolve tt.

(** Lines 405-424: replace one defaults directory, then inject it into
    the component index and write the index back.  The closure variable
    is [componentsIndexSourceCode]. *)
Definition defaultsTask (componentTree : ComponentTree ModuleInfo)
    (dirItem : DirItem) (componentsIndexSourceCode : string)
  : string * Task string :=
  let destDirPath := Path.join [componentDefaultsDirPath config; name dirItem] in
  (componentsIndexSourceCode,
   {| pending := RemoveFile destDirPath;
      thens :=
        [ (fun code => (code, [], Some (CopyFile (path dirItem) destDirPath)));
          (fun code =>
             let code' :=
               injectNamespaceComponent gengine code (name dirItem)
                 (Path.join ["modules"; name dirItem]) in
             (code',
              [Invoked (InjectNamespaceComponent code (name dirItem)
                          (Path.join ["modules"; name dirItem]))],
              Some (WriteFile (indexFilePath componentTree) code'))) ] |}).

Definition copyDefaults (componentTree : ComponentTree ModuleInfo)
    (defaultsDirs : list DirItem) : Async unit :=
  _ <- allOf (defaultsTask componentTree) defaultsDirs
         (indexSourceCode componentTree) ;;
  resolve tt.

Section Chain.
Variable dirPath : string.

Definition namespacesFilePath := Path.join [dirPath; "structor-namespaces.json"].
Definition modulesSrcDirPath := Path.join [dirPath; "modules"].
Definition defaultsSrcDirPath := Path.join [dirPath; "defaults"].
Definition docsSrcDirPath := Path.join [dirPath; "docs"].
Definition modulesDestDirPath := Path.join [appDirPath config; "modules"].

(** Lines 321-330: manifest, dependencies, component tree. *)
Definition indexRead : Async (Manifest * ComponentTree ModuleInfo) :=
  namespacesMeta <- await (ReadJson namespacesFilePath)
                      (fun h => readJson world h namespacesFilePath) ;;
  _ <- await (InstallDependencies (dependencies namespacesMeta))
         (fun h => installDependencies world h (dependencies namespacesMeta)) ;;
  componentTree <- await GetComponentTree (getComponentTree world) ;;
  resolve (namespacesMeta, componentTree).

(** ... lines 331-368. *)
Definition registriesWritten : Async (ComponentTree ModuleInfo) :=
  index <- indexRead ;;
  _ <- rewriteRegistries modulesSrcDirPath index.1 index.2 ;;
  resolve index.2.

(** ... lines 369-391. *)
Definition modulesStaged : Async (ComponentTree ModuleInfo) :=
  componentTree <- registriesWritten ;;
  modulesDirs <- listDirs world modulesSrcDirPath "Modules directory is empty" ;;
  _ <- copyGroup modulesDestDirPath modulesDirs ;;
  resolve componentTree.

(** ... lines 392-426. *)
Definition defaultsStaged : Async unit :=
  componentTree <- modulesStaged ;;
  defaultsDirs <- listDirs world defaultsSrcDirPath "Defaults directory is empty" ;;
  copyDefaults componentTree defaultsDirs.

(** ... lines 427-449: the whole chain. *)
Definition installChain : Async unit :=
  _ <- defaultsStaged ;;
  docsDirs <- listDirs world docsSrcDirPath "Docs directory is empty" ;;
  copyGroup (docsComponentsDirPath config) docsDirs.

End Chain.

Definition installFromLocalDir (options : Options) : Async unit :=
  fun h =>
    match dirPath options with
    | Some d => installChain d h
    | None => ([], Thrown TypeError)  (* [path.join(undefined, ...)] *)
    end.

End Install.

(** ** Observations on traces *)

(** The arguments of the [injectReducer] calls of a trace, in order, the
    source text left out. *)
Fixpoint reducerInjections (t : Trace) : list (string * string * string) :=
  match t with
  | [] => []
  | Invoked (InjectReducer _ n i p) :: t' => (n, i, p) :: reducerInjections t'
  | _ :: t' => reducerInjections t'
  end.

Fixpoint sagaInjections (t : Trace) : list (string * string) :=
  match t with
  | [] => []
  | Invoked (InjectSaga _ i p) :: t' => (i, p) :: sagaInjections t'
  | _ :: t' => sagaInjections t'
  end.

(** What lines 347-357 pass to the injectors for one manifest entry. *)
Definition reducerArgs (entry : string * NamespaceMeta) : string * string * string :=
  (reducerPropName entry.2,
   reducerPropName entry.2 +:+ "Reducer",
   Path.join ["modules"; entry.1; "reducer.js"]).

Definition sagaArgs (entry : string * NamespaceMeta) : string * string :=
  (entry.1 +:+ "Sagas", Path.join ["modules"; entry.1; "sagas.js"]).

(** The registry texts after injecting the entries of [order] one after
    the other. *)
Definition reducersAfter (g : Gengine) (code : string)
    (order : list (string * NamespaceMeta)) : string :=
  fold_left
    (fun code entry =>
       injectReducer g code (reducerArgs entry).1.1 (reducerArgs entry).1.2
         (reducerArgs entry).2)
    order code.

Definition sagasAfter (g : Gengine) (code : string)
    (order : list (string * NamespaceMeta)) : string :=
  fold_left
    (fun code entry => injectSaga g code (sagaArgs entry).1 (sagaArgs entry).2)
    order code.

(** Whether an event starts a [writeFile] to [file]. *)
Definition startsWriteTo (file : string) (e : Event) : bool :=
  match e with
  | Started (WriteFile p _) => String.eqb p file
  | _ => false
  end.

Definition writesTo (file : string) (t : Trace) : nat :=
  length (filter (fun e => startsWriteTo file e = true) t).

Definition failedCheck (e : Event) : bool :=
  match e with
  | Settled (IsExisting _) false => true
  | _ => false
  end.

(** A listing without subdirectories: [!dirs || dirs.length <= 0]. *)
Definition noDirs (f : FoundFiles) : bool :=
  match dirs f with
  | None | Some [] => true
  | Some (_ :: _) => false
  end.

(** The events of the three loops. *)
Definition rewriteEvent (e : Event) : bool :=
  match e with
  | Started (IsExisting _) | Settled (IsExisting _) _
  | Invoked (InjectReducer _ _ _ _) | Invoked (InjectSaga _ _ _) => true
  | _ => false
  end.

Definition copyEvent (e : Event) : bool :=
  match e with
  | Started (RemoveFile _) | Settled (RemoveFile _) _
  | Started (CopyFile _ _) | Settled (CopyFile _ _) _ => true
  | _ => false
  end.

Definition defaultsEvent (index : string) (e : Event) : bool :=
  match e with
  | Started (RemoveFile _) | Settled (RemoveFile _) _
  | Started (CopyFile _ _) | Settled (CopyFile _ _) _
  | Invoked (InjectNamespaceComponent _ _ _) => true
  | Started (WriteFile p _) | Settled (WriteFile p _) _ => String.eqb p index
  | _ => false
  end.

(** Every directory of a group has been copied to its destination. *)
Definition groupCopied (destRoot : string) (items : list DirItem) (t : Trace) : Prop :=
  ∀ item, item ∈ items →
    Settled (CopyFile (path item) (Path.join [destRoot; name item])) true ∈ t.

(** ** Sample worlds

    History-independent collaborators over a fixed bundle, used to run the
    controller on concrete inputs. *)

Module Sample.

Definition scripted (manifest : Result Manifest) (deps : Result unit)
    (tree : Result (ComponentTree unit)) (ls : string -> Result FoundFiles)
    (present : string -> bool) (pick : nat) : World unit :=
  {| readJson := fun _ _ => manifest;
     getComponentTree := fun _ => tree;
     installDependencies := fun _ _ => deps;
     readDirectoryFlat := fun _ p => ls p;
     isExisting := fun _ p => if present p then Ok tt else Err "ENOENT";
     writeFile := fun _ _ _ => Ok tt;
     removeFile := fun _ _ => Ok tt;
     copyFile := fun _ _ _ => Ok tt;
     settlesNext := fun _ _ => pick |}.

(** Injectors that append a visible tag to the text. *)
Definition tagging : Gengine :=
  {| injectReducer := fun code n i p =>
       code +:+ "[" +:+ n +:+ ":" +:+ i +:+ "@" +:+ p +:+ "]";
     injectSaga := fun code i p => code +:+ "[" +:+ i +:+ "@" +:+ p +:+ "]";
     injectNamespaceComponent := fun code n p =>
       code +:+ "[" +:+ n +:+ "@" +:+ p +:+ "]" |}.

Definition tree (ms : gmap string unit) : ComponentTree unit :=
  {| modules := Some ms;
     reducersSourceCode := "R"; reducersFilePath := "/app/reducers.js";
     sagasSourceCode := "S"; sagasFilePath := "/app/sagas.js";
     indexSourceCode := "I"; indexFilePath := "/app/index.js" |}.

Definition config : Config :=
  {| appDirPath := "/app";
     componentDefaultsDirPath := "/p/defaults";
     docsComponentsDirPath := "/p/docs" |}.

Definition item (dir n : string) : DirItem :=
  {| name := n; path := dir +:+ "/" +:+ n |}.

(** A bundle whose three groups hold the same directories. *)
Definition listing (names : list string) (dir : string) : Result FoundFiles :=
  Ok {| dirs := Some (map (item dir) names) |}.

(** The same bundle with one group left empty. *)
Definition listingBut (emptyDir : string) (names : list string) (dir : string)
  : Result FoundFiles :=
  if String.eqb dir emptyDir then Ok {| dirs := Some [] |} else listing names dir.

Definition manifest (entries : list (string * string)) : Manifest :=
  {| namespaces := map (fun e => (e.1, {| reducerPropName := e.2 |})) entries;
     dependencies := [] |}.

Definition auth : Manifest := manifest [("auth", "auth")].
Definition two : Manifest := manifest [("a", "ra"); ("b", "rb")].

Definition everything (_ : string) : bool := true.
Definition allBut (missing p : string) : bool := negb (String.eqb p missing).

Definition bundle : Options := {| dirPath := Some "/b"; url := None |}.

End Sample.

(** ** Notions used by the statements *)

(** [n] is a key of the index's [modules] object. *)
Definition inIndex {M} (tree : ComponentTree M) (n : string) : Prop :=
  ∃ ms, modules tree = Some ms ∧ is_Some (ms !! n).

(** [n] is no key of [modules] by itself: the index has a [modules]
    object, and [n] is a name that every object inherits. *)
Definition inherited {M} (tree : ComponentTree M) (n : string) : Prop :=
  is_Some (modules tree) ∧ n ∈ objectPrototypeNames.

(** The answers to the three reads of [preInstall] depend only on the
    mutations that happened before: nothing but a mutating call changes
    what the manifest, the component tree or a directory listing hold. *)
Definition readsFollowMutations {M} (w : World M) : Prop :=
  ∀ h h', filter (fun e => mutation e = true) h = filter (fun e => mutation e = true) h' →
    (∀ p, readJson w h p = readJson w h' p)
    ∧ getComponentTree w h = getComponentTree w h'
    ∧ (∀ p, readDirectoryFlat w h p = readDirectoryFlat w h' p).

(** Two worlds that differ at most in what their manifests contain: the
    manifest reads fail alike, every other answer is the same. *)
Definition sameButManifest {M} (w1 w2 : World M) : Prop :=
  (∀ h p, failure (readJson w1 h p) = failure (readJson w2 h p))
  ∧ (∀ h, getComponentTree w1 h = getComponentTree w2 h)
  ∧ (∀ h p, readDirectoryFlat w1 h p = readDirectoryFlat w2 h p).

(** ** Where a chain of each loop stands

    The chains of a loop are told apart by the item they were pushed for
    and the call they are waiting on. *)

Inductive CopyStep :=
| Removing (item : DirItem)
| Copying (item : DirItem).

Inductive DefaultsStep :=
| RemovingDefaults (item : DirItem)
| CopyingDefaults (item : DirItem)
| WritingIndex (item : DirItem) (text : string).

Inductive RewriteStep :=
| CheckingReducer (entry : string * NamespaceMeta)
| CheckingSagas (entry : string * NamespaceMeta).

Definition copyItem (s : CopyStep) : DirItem :=
  match s with Removing i | Copying i => i end.

Definition defaultsItem (s : DefaultsStep) : DirItem :=
  match s with RemovingDefaults i | CopyingDefaults i | WritingIndex i _ => i end.

Definition rewriteEntry (s : RewriteStep) : string * NamespaceMeta :=
  match s with CheckingReducer e | CheckingSagas e => e end.

Section Steps.
Context {ModuleInfo : Type}.
Context (config : Config) (gengine : Gengine).

Definition copyStepTask (destRoot : string) (s : CopyStep) : Task unit :=
  match s with
  | Removing item => (copyTask destRoot item tt).2
  | Copying item =>
      {| pending := CopyFile (path item) (Path.join [destRoot; name item]);
         thens := [] |}
  end.

Definition defaultsStepTask (tree : ComponentTree ModuleInfo) (s : DefaultsStep)
  : Task string :=
  match s with
  | RemovingDefaults item => (defaultsTask config gengine tree item "").2
  | CopyingDefaults item =>
      {| pending := CopyFile (path item)
                      (Path.join [componentDefaultsDirPath config; name item]);
         thens := drop 1 (thens (defaultsTask config gengine tree item "").2) |}
  | WritingIndex item text =>
      {| pending := WriteFile (indexFilePath tree) text; thens := [] |}
  end.

(** [sagasFile] is what [moduleSagasFilePath] holds once the [forOwn]
    loop is over. *)
Definition rewriteStepTask (modulesSrc sagasFile : string) (s : RewriteStep)
  : Task RewriteVars :=
  match s with
  | CheckingReducer entry =>
      (rewriteTask gengine modulesSrc entry
         {| globalReducerSourceCode := ""; globalSagasSourceCode := "";
            moduleReducerFilePath := ""; moduleSagasFilePath := "" |}).2
  | CheckingSagas entry =>
      {| pending := IsExisting sagasFile;
         thens := drop 1 (thens (rewriteTask gengine modulesSrc entry
           {| globalReducerSourceCode := ""; globalSagasSourceCode := "";
              moduleReducerFilePath := ""; moduleSagasFilePath := "" |}).2) |}
  end.

End Steps.

(** The sagas file that every chain of the [forOwn] loop ends up checking:
    the one of the last manifest entry. *)
Definition lastSagasFile (modulesSrc : string) (entries : list (string * NamespaceMeta))
  : string :=
  match last entries with
  | Some entry => Path.join [modulesSrc; entry.1; "sagas.js"]
  | None => ""
  end.

(** In trace [t], every fulfilled copy of a defaults directory is followed
    at once by the index injection for that directory and by the start of
    the write of the injected text to the index file. *)
Definition indexedAfterCopy {M} (config : Config) (g : Gengine)
    (tree : ComponentTree M) (items : list DirItem) (t : Trace) : Prop :=
  ∀ pre src dst post,
    t = pre ++ Settled (CopyFile src dst) true :: post →
    ∃ item code post',
      item ∈ items
      ∧ src = path item
      ∧ dst = Path.join [componentDefaultsDirPath config; name item]
      ∧ post = Invoked (InjectNamespaceComponent code (name item)
                          (Path.join ["modules"; name item]))
               :: Started (WriteFile (indexFilePath tree)
                             (injectNamespaceComponent g code (name item)
                                (Path.join ["modules"; name item])))
               :: post'.

Definition copySettled (e : Event) : bool :=
  match e with
  | Settled (CopyFile _ _) true => true
  | _ => false
  end.

(** The files whose existence the [forOwn] loop may check: the reducer
    file of a manifest entry, or the sagas file of the last entry. *)
Definition knownCheck (modulesSrc : string) (entries : list (string * NamespaceMeta))
    (e : Event) : Prop :=
  match e with
  | Started (IsExisting p) | Settled (IsExisting p) _ =>
      p = lastSagasFile modulesSrc entries
      ∨ ∃ entry, entry ∈ entries ∧ p = Path.join [modulesSrc; entry.1; "reducer.js"]
  | _ => True
  end.

(** The closure variables when the [forOwn] loop starts. *)
Definition rewriteVars0 {M} (tree : ComponentTree M) : RewriteVars :=
  {| globalReducerSourceCode := reducersSourceCode tree;
     globalSagasSourceCode := sagasSourceCode tree;
     moduleReducerFilePath := "";
     moduleSagasFilePath := "" |}.

(** The events of lines 321-330. *)
Definition indexEvent (e : Event) : bool :=
  match e with
  | Started (ReadJson _) | Settled (ReadJson _) _
  | Started (InstallDependencies _) | Settled (InstallDependencies _) _
  | Started GetComponentTree | Settled GetComponentTree _ => true
  | _ => false
  end.

(** The events of lines 369-449: listings, the copy loops, and the index
    injections and writes of the defaults group. *)
Definition stagingEvent (index : string) (e : Event) : bool :=
  match e with
  | Started (ReadDirectoryFlat _) | Settled (ReadDirectoryFlat _) _ => true
  | _ => defaultsEvent index e
  end.

(** What the two registry write-backs of lines 363 and 366 add to the
    trace, by how far they get. *)
Definition registryWrites {M} (g : Gengine) (tree : ComponentTree M)
    (order : list (string * NamespaceMeta)) (reducersOk sagasOk : option bool) : Trace :=
  let w1 := WriteFile (reducersFilePath tree)
              (reducersAfter g (reducersSourceCode tree) order) in
  let w2 := WriteFile (sagasFilePath tree)
              (sagasAfter g (sagasSourceCode tree) order) in
  match reducersOk with
  | None => []
  | Some false => [Started w1; Settled w1 false]
  | Some true =>
      Started w1 :: Settled w1 true ::
      match sagasOk with
      | None => []
      | Some ok => [Started w2; Settled w2 ok]
      end
  end.

(** The two events of a fulfilled listing. *)
Definition listingEvents (dir : string) : Trace :=
  [Started (ReadDirectoryFlat dir); Settled (ReadDirectoryFlat dir) true].

(** At history [h], listing [dir] answers with the directories [ds]. *)
Definition listed {M} (w : World M) (h : Trace) (dir : string) (ds : list DirItem) : Prop :=
  ∃ f, readDirectoryFlat w (h ++ [Started (ReadDirectoryFlat dir)]) dir = Ok f
       ∧ dirs f = Some ds.

(** At history [h], listing [dir] answers with no subdirectory. *)
Definition emptyAt {M} (w : World M) (h : Trace) (dir : string) : Prop :=
  ∃ f, readDirectoryFlat w (h ++ [Started (ReadDirectoryFlat dir)]) dir = Ok f
       ∧ noDirs f = true.

(** Calls to the injectors of the two registries. *)
Definition registryInjection (e : Event) : bool :=
  match e with
  | Invoked (InjectReducer _ _ _ _) | Invoked (InjectSaga _ _ _) => true
  | _ => false
  end.

(** ** The three directory groups of a bundle *)

Inductive Group := Modules | Defaults | Docs.

Definition groupSrc (grp : Group) (dirPath : string) : string :=
  match grp with
  | Modules => modulesSrcDirPath dirPath
  | Defaults => defaultsSrcDirPath dirPath
  | Docs => docsSrcDirPath dirPath
  end.

Definition groupDest (config : Config) (grp : Group) : string :=
  match grp with
  | Modules => modulesDestDirPath config
  | Defaults => componentDefaultsDirPath config
  | Docs => docsComponentsDirPath config
  end.



(** The chain up to the point where group [grp] is listed. *)
Definition reaches {M} (config : Config) (g : Gengine) (w : World M)
    (dirPath : string) (grp : Group) : Async unit :=
  match grp with
  | Modules => _ <- registriesWritten g w dirPath ;; resolve tt
  | Defaults => _ <- modulesStaged config g w dirPath ;; resolve tt
  | Docs => defaultsStaged config g w dirPath
  end.

(** In the run from [h], group [grp] was reached, and every directory
    then listed for it has its fulfilled copy in trace [t]. *)
Definition stagedInRun {M} (config : Config) (g : Gengine) (w : World M)
    (dirPath : string) (h : Trace) (grp : Group) (t : Trace) : Prop :=
  ∃ pre ds,
    reaches config g w dirPath grp h = (pre, Resolved tt)
    ∧ listed w (h ++ pre) (groupSrc grp dirPath) ds
    ∧ groupCopied (groupDest config grp) ds t.

(** The three kinds of read that [preInstall] issues. *)
Definition readEvent (e : Event) : bool :=
  match e with
  | Started (ReadJson _) | Settled (ReadJson _) _
  | Started GetComponentTree | Settled GetComponentTree _
  | Started (ReadDirectoryFlat _) | Settled (ReadDirectoryFlat _) _ => true
  | _ => false
  end.

(** How many existence checks of [file] a trace starts. *)
Definition startsCheckOf (file : string) (e : Event) : bool :=
  match e with
  | Started (IsExisting p) => String.eqb p file
  | _ => false
  end.

Definition checksOf (file : string) (t : Trace) : nat :=
  length (filter (fun e => startsCheckOf file e = true) t).

(** The start of a copy, and the start of a removal or of a copy. *)
Definition copyStart (e : Event) : bool :=
  match e with
  | Started (CopyFile _ _) => true
  | _ => false
  end.

Definition stagingStart (e : Event) : bool :=
  match e with
  | Started (RemoveFile _) | Started (CopyFile _ _) => true
  | _ => false
  end.

(** In trace [t], a copy is started only right after the removal of its
    destination has been fulfilled. *)
Definition removedFirst (t : Trace) : Prop :=
  ∀ pre src dst post,
    t = pre ++ Started (CopyFile src dst) :: post →
    ∃ pre', pre = pre' ++ [Settled (RemoveFile dst) true].

(** The arguments of the [injectNamespaceComponent] calls of a trace, in
    order, the source text left out; what [defaultsTask] passes for a
    directory; and the index text after a sequence of injections. *)
Fixpoint indexInjections (t : Trace) : list (string * string) :=
  match t with
  | [] => []
  | Invoked (InjectNamespaceComponent _ n p) :: t' => (n, p) :: indexInjections t'
  | _ :: t' => indexInjections t'
  end.

Definition indexArgs (item : DirItem) : string * string :=
  (name item, Path.join ["modules"; name item]).

Definition indexAfter (g : Gengine) (code : string) (order : list (string * string))
  : string :=
  fold_left (fun code a => injectNamespaceComponent g code a.1 a.2) order code.

(** The start of a write. *)
Definition writeStart (e : Event) : bool :=
  match e with
  | Started (WriteFile _ _) => true
  | _ => false
  end.

(** In trace [t], every write is a write of the index file [index], with
    the text [code0] after all the injections made before the write
    starts. *)
Definition writesCarryIndex (g : Gengine) (index code0 : string) (t : Trace) : Prop :=
  ∀ pre file text post,
    t = pre ++ Started (WriteFile file text) :: post →
    file = index ∧ text = indexAfter g code0 (indexInjections pre).

(** Whether the chain of a defaults directory has not injected yet. *)
Definition beforeInjection (s : DefaultsStep) : bool :=
  match s with
  | WritingIndex _ _ => false
  | _ => true
  end.

(** The chain of [item] in a copy loop has come to its end in trace [t]:
    its removal or its copy failed, or its copy is fulfilled. *)
Definition chainEnded (destRoot : string) (item : DirItem) (t : Trace) : Prop :=
  Settled (RemoveFile (Path.join [destRoot; name item])) false ∈ t
  ∨ Settled (CopyFile (path item) (Path.join [destRoot; name item])) false ∈ t
  ∨ Settled (CopyFile (path item) (Path.join [destRoot; name item])) true ∈ t.

(** In trace [t] of the defaults loop, which begins with the index text
    [code0], every fulfilled copy is the copy of a directory of [items]
    to the component-defaults destination, and is followed at once by the
    injection of that directory into the index text as all the earlier
    injections left it, and by the start of the write of the injected
    text to the index file. *)
Definition indexedFrom (config : Config) (g : Gengine) (index code0 : string)
    (items : list DirItem) (t : Trace) : Prop :=
  ∀ pre src dst post,
    t = pre ++ Settled (CopyFile src dst) true :: post →
    ∃ item post',
      item ∈ items
      ∧ src = path item
      ∧ dst = Path.join [componentDefaultsDirPath config; name item]
      ∧ post = Invoked (InjectNamespaceComponent
                          (indexAfter g code0 (indexInjections pre)) (name item)
                          (Path.join ["modules"; name item]))
               :: Started (WriteFile index
                             (injectNamespaceComponent g
                                (indexAfter g code0 (indexInjections pre)) (name item)
                                (Path.join ["modules"; name item])))
               :: post'.

(** In trace [t], a reducer is injected only right after a fulfilled
    existence check of [sagasFile], for an entry of [entries], and the
    saga of that entry is injected right after it. *)
Definition gatedInjections (sagasFile : string) (entries : list (string * NamespaceMeta))
    (t : Trace) : Prop :=
  ∀ pre code n i p post,
    t = pre ++ Invoked (InjectReducer code n i p) :: post →
    ∃ pre' entry code' post',
      pre = pre' ++ [Settled (IsExisting sagasFile) true]
      ∧ entry ∈ entries
      ∧ (n, i, p) = reducerArgs entry
      ∧ post = Invoked (InjectSaga code' (sagaArgs entry).1 (sagaArgs entry).2) :: post'.

(** ** The structor URLs and the proxy route
       (controller.js, lines 29-39, 97-109 and 114-125) *)

Definition STRUCTOR_URLS : list string :=
  [ "/structor";
    "/structor-invoke";
    "/structor-sandbox";
    "/structor-deskpage";
    "/structor-dev";
    "/structor-desk";
    "/structor-sandbox-preview";
    "/structor-sandbox-screenshot";
    "/structor-gengine-scaffolds" ].

(** [s.indexOf(pat)] from position [i] of the whole string, [s] being
    what is left of it there: the first position at which [pat] occurs, or
    [-1]. *)
Fixpoint indexOfFrom (i : nat) (s pat : string) : Z :=
  if String.prefix pat s then Z.of_nat i
  else match s with
       | EmptyString => (-1)%Z
       | String _ s' => indexOfFrom (S i) s' pat
       end.

Definition indexOf (s pat : string) : Z := indexOfFrom 0 s pat.

(** The [for] loop of lines 117-122, with its [break]. *)
Fixpoint deniedAmong (textUrl : string) (urls : list string) : bool :=
  match urls with
  | [] => false
  | u :: rest =>
      if Z.eqb (indexOf textUrl u) 0 then true else deniedAmong textUrl rest
  end.

Definition checkDeniedProxyURL (textUrl : option string) : bool :=
  if truthy textUrl then
    match textUrl with
    | Some s => deniedAmong s STRUCTOR_URLS
    | None => false
    end
  else false.

(** What the handler of [app.all('/*', ...)] does with a request. *)
Inductive Routing :=
| NextRoute
| ProxyWeb (target : string).

(** Lines 97-109; [proxyURL] is what [config.projectProxyURL()] answers
    when the request arrives. *)
Definition proxyRoute (url : option string) (proxyURL : option string) : Routing :=
  if checkDeniedProxyURL url then NextRoute
  else
    match proxyURL with
    | Some target =>
        if Nat.ltb 0 (String.length target) then ProxyWeb target else NextRoute
    | None => NextRoute
    end.

(** ** The server and its proxy
       (controller.js, lines 41-42, 52-112 and 139-144) *)

Inductive Status := READY | NotReady.

(** What [config] answers during one call of the controller. *)
Record ServerConfig := {
  status : Status;
  projectProxyURL : option string;
  deskDirPath : string;
  scaffoldsDirPath : string
}.

(** A call on the express app of a server. *)
Inductive Registration :=
| UseDevMiddleware
| UseHotMiddleware
| UseBuilderMiddleware
| UseRewrite (source destination : string)
| UseStatic (mount dir : string)
| AllProxy.

(** The module variables [serverRef] and [proxy], together with the calls
    made so far on the apps of the servers (a server is known by a number)
    and the events subscribed to on the proxy. *)
Record Controller := {
  serverRef : option nat;
  proxy : bool;
  appCalls : list (nat * Registration);
  proxyListeners : list string
}.

Definition initial : Controller :=
  {| serverRef := None; proxy := false; appCalls := []; proxyListeners := [] |}.

(** Lines 62-73: what [initServer] registers on the app, in order. *)
Definition middlewares (cfg : ServerConfig) : list Registration :=
  [ UseDevMiddleware;
    UseHotMiddleware;
    UseBuilderMiddleware;
    UseRewrite "/structor-deskpage/*" "/structor-desk/index.html";
    UseStatic "/structor-desk" (deskDirPath cfg);
    UseStatic "/structor-gengine-scaffolds" (scaffoldsDirPath cfg) ].

Definition initServer (cfg : ServerConfig) (st : Controller) : Controller :=
  match serverRef st with
  | Some server =>
      {| serverRef := serverRef st;
         proxy := proxy st;
         appCalls := appCalls st ++ map (fun r => (server, r)) (middlewares cfg);
         proxyListeners := proxyListeners st |}
  | None => st
  end.

Definition initProxyServer (cfg : ServerConfig) (st : Controller) : Controller :=
  match serverRef st with
  | Some server =>
      if negb (proxy st) && truthy (projectProxyURL cfg) then
        {| serverRef := serverRef st;
           proxy := true;
           appCalls := appCalls st ++ [(server, AllProxy)];
           proxyListeners := proxyListeners st ++ ["error"; "proxyReq"] |}
      else st
  | None => st
  end.

(** [setServer(server)]; [server] is [None] when [undefined]. *)
Definition setServer (server : option nat) (cfg : ServerConfig) (st : Controller)
  : Controller :=
  let st1 := {| serverRef := server;
                proxy := proxy st;
                appCalls := appCalls st;
                proxyListeners := proxyListeners st |} in
  match status cfg with
  | READY => initProxyServer cfg (initServer cfg st1)
  | NotReady => st1
  end.

(** [setProxyURL(options)]: [setter] is how the promise of
    [config.projectProxyURL(options.proxyURL)] settles, [cfg] what [config]
    answers afterwards. *)
Definition setProxyURL (setter : Result unit) (cfg : ServerConfig) (st : Controller)
  : Controller * Outcome unit :=
  match setter with
  | Ok _ => (initProxyServer cfg st, Resolved tt)
  | Err e => (st, Rejected (Cause e))
  end.

(** A call of one of the two entry points, with the answers it gets. *)
Inductive ControllerCall :=
| SetServer (server : option nat) (cfg : ServerConfig)
| SetProxyURL (setter : Result unit) (cfg : ServerConfig).

Definition perform (st : Controller) (c : ControllerCall) : Controller :=
  match c with
  | SetServer server cfg => setServer server cfg st
  | SetProxyURL setter cfg => (setProxyURL setter cfg st).1
  end.

Definition performAll (st : Controller) (calls : list ControllerCall) : Controller :=
  fold_left perform calls st.

Definition isAllProxy (c : nat * Registration) : bool :=
  match c.2 with
  | AllProxy => true
  | _ => false
  end.

(** The middleware that a call registers: the six of [initServer], for a
    [setServer] with a server while the project is ready. *)
Definition middlewareOf (c : ControllerCall) : list (nat * Registration) :=
  match c with
  | SetServer (Some server) cfg =>
      match status cfg with
      | READY => map (fun r => (server, r)) (middlewares cfg)
      | NotReady => []
      end
  | _ => []
  end.

(** The registrations of the proxy route, and all the others, among the
    calls made on the apps. *)
Definition proxyRoutes (st : Controller) : list (nat * Registration) :=
  filter (fun c => isAllProxy c = true) (appCalls st).

Definition otherCalls (st : Controller) : list (nat * Registration) :=
  filter (fun c => isAllProxy c = false) (appCalls st).

(** The proxy route and the proxy's listeners are there once if the proxy
    exists, and not at all otherwise. *)
Definition proxyOnce (st : Controller) : Prop :=
  length (proxyRoutes st) = (if proxy st then 1 else 0)
  ∧ proxyListeners st = (if proxy st then ["error"; "proxyReq"] else []).

(** ** [getScaffoldGenerators] (controller.js, lines 452-465) *)

Module Scaffolds.

(** The two fields of a generator that the controller reads. *)
Record Generator := { name : string; screenshotFilePath : string }.

Fixpoint dropChars (n : nat) (s : string) : string :=
  match n, s with
  | S n', String _ s' => dropChars n' s'
  | _, _ => s
  end.

(** [s.replace(pat, rep)] for a string pattern and a replacement without
    [$]: the first occurrence of [pat] is replaced. *)
Fixpoint replaceFirst (pat rep s : string) : string :=
  if String.prefix pat s then rep +:+ dropChars (String.length pat) s
  else match s with
       | EmptyString => EmptyString
       | String c s' => String c (replaceFirst pat rep s')
       end.

Definition scaffoldsUrlPrefix : string := "/structor-gengine-scaffolds".

(** The body of the [forEach] of lines 458-460. *)
Definition relocate (rootDir : string) (g : Generator) : Generator :=
  {| name := name g;
     screenshotFilePath :=
       replaceFirst rootDir scaffoldsUrlPrefix (screenshotFilePath g) |}.

(** lodash's [sortBy(generators, ['name'])]: ascending by name, generators
    of equal name in their input order. *)
Fixpoint insertByName (g : Generator) (l : list Generator) : list Generator :=
  match l with
  | [] => [g]
  | h :: t =>
      if String.leb (name g) (name h) then g :: h :: t else h :: insertByName g t
  end.

Definition sortByName (l : list Generator) : list Generator :=
  foldr insertByName [] l.

(** The [then] callback; [generators] is [None] when [undefined]. *)
Definition present (rootDir : string) (generators : option (list Generator))
  : option (list Generator) :=
  match generators with
  | Some (g :: gs) => Some (sortByName (map (relocate rootDir) (g :: gs)))
  | other => other
  end.

Definition getScaffoldGenerators (rootDir : string)
    (answer : Result (option (list Generator)))
  : Outcome (option (list Generator)) :=
  match answer with
  | Ok generators => Resolved (present rootDir generators)
  | Err e => Rejected (Cause e)
  end.

(** Ascending order of names, and the generators of one name. *)
Definition byName (a b : Generator) : Prop := String.leb (name a) (name b) = true.

Definition named (n : string) (l : list Generator) : list Generator :=
  filter (fun g => name g = n) l.

End Scaffolds.

(** * Properties *)

Example join_modules : Path.join ["/tmp/bundle"; "modules"] = "/tmp/bundle/modules".
Proof. reflexivity. Qed.

Example join_trailing : Path.join ["/tmp/bundle/"; "modules"] = "/tmp/bundle/modules".
Proof. reflexivity. Qed.

Example join_reducer : Path.join ["modules"; "auth"; "reducer.js"] = "modules/auth/reducer.js".
Proof. reflexivity. Qed.

Example join_dotdot : Path.join ["modules"; ".."; "reducer.js"] = "reducer.js".
Proof. reflexivity. Qed.

Example join_above : Path.join [".."; ".."; "a"; "."; "b/"] = "../../a/b/".
Proof. reflexivity. Qed.

(** ** Joining plain segments

    On names without separators or dots, [path.join] is concatenation
    with ["/"]: [modules/<prop>/reducer.js] is literally that string. *)

Lemma pieces_no_sep s : Path.no_sep s = true → Path.pieces s = [s].
Proof.
  induction s as [|c s IH]; [done|]. simpl.
  intros [Hc Hs]%andb_prop. apply negb_true_iff in Hc. rewrite Hc.
  by rewrite (IH Hs).
Qed.

Lemma pieces_app_sep s rest :
  Path.no_sep s = true →
  Path.pieces (s +:+ "/" +:+ rest) = s :: Path.pieces rest.
Proof.
  induction s as [|c s IH]; [done|]. simpl.
  intros [Hc Hs]%andb_prop. apply negb_true_iff in Hc. rewrite Hc.
  by rewrite (IH Hs).
Qed.

Lemma pieces_glue segs :
  Forall (fun s => Path.no_sep s = true) segs → segs ≠ [] →
  Path.pieces (Path.glue segs) = segs.
Proof.
  induction 1 as [|s segs Hs Hall IH]; [done|]. intros _.
  destruct segs as [|s2 segs]; [by apply pieces_no_sep|].
  change (Path.glue (s :: s2 :: segs)) with (s +:+ "/" +:+ Path.glue (s2 :: segs)).
  rewrite pieces_app_sep by done. by rewrite IH.
Qed.

Lemma plain_no_sep s : Path.plain s = true → Path.no_sep s = true.
Proof. unfold Path.plain. by intros [[[? _]%andb_prop _]%andb_prop _]%andb_prop. Qed.

Lemma keep_plain b acc segs :
  Forall (fun s => Path.plain s = true) segs →
  fold_left (Path.keep b) segs acc = rev segs ++ acc.
Proof.
  intros Hall. revert acc. induction Hall as [|s segs Hs _ IH]; intros acc; [done|].
  simpl. rewrite IH, <- app_assoc. f_equal. unfold Path.keep.
  unfold Path.plain in Hs.
  apply andb_prop in Hs as [[[_ H1]%andb_prop H2]%andb_prop H3].
  apply negb_true_iff in H1, H2, H3. by rewrite H1, H2, H3.
Qed.

Lemma starts_with_sep_app s rest :
  Path.plain s = true → Path.starts_with_sep (s +:+ rest) = false.
Proof.
  destruct s as [|c s]; [done|]. intros Hp%plain_no_sep. simpl in *.
  apply andb_prop in Hp as [Hc _]. by apply negb_true_iff in Hc.
Qed.

Lemma ends_with_sep_no_sep s :
  Path.no_sep s = true → Path.ends_with_sep s = false.
Proof.
  induction s as [|c s IH]; [done|]. simpl.
  intros [Hc Hs]%andb_prop. apply negb_true_iff in Hc.
  destruct s; [done|]. by apply IH.
Qed.

Lemma ends_with_sep_app s rest :
  rest ≠ "" → Path.ends_with_sep (s +:+ rest) = Path.ends_with_sep rest.
Proof.
  intros Hne. induction s as [|c s IH]; [done|]. simpl.
  destruct (s +:+ rest) eqn:Heq; [|done].
  destruct s; simpl in Heq; [by subst|done].
Qed.

Lemma glue_plain_facts segs :
  Forall (fun s => Path.plain s = true) segs → segs ≠ [] →
  Path.glue segs ≠ ""
  ∧ Path.starts_with_sep (Path.glue segs) = false
  ∧ Path.ends_with_sep (Path.glue segs) = false.
Proof.
  induction 1 as [|s segs Hs Hall IH]; [done|]. intros _.
  assert (s ≠ "") as Hne by (by intros ->).
  destruct segs as [|s2 segs].
  - simpl. split; [done|]. split.
    + pose proof (starts_with_sep_app s "" Hs) as Hst. by destruct s.
    + by apply ends_with_sep_no_sep, plain_no_sep.
  - destruct IH as (Hg & _ & He); [done|].
    change (Path.glue (s :: s2 :: segs)) with (s +:+ "/" +:+ Path.glue (s2 :: segs)).
    generalize dependent (Path.glue (s2 :: segs)). intros G Hg He.
    split; [by destruct s|]. split; [by apply starts_with_sep_app|].
    rewrite ends_with_sep_app; [|done].
    destruct G; [done|exact He].
Qed.

Lemma join_plain segs :
  Forall (fun s => Path.plain s = true) segs → segs ≠ [] →
  Path.join segs = Path.glue segs.
Proof.
  intros Hall Hne. unfold Path.join.
  assert (filter (fun a => negb (String.eqb a "")) segs = segs) as ->.
  { clear Hne. induction Hall as [|s segs Hs _ IH]; [done|].
    rewrite filter_cons, IH. rewrite decide_True; [done|].
    unfold Path.plain in Hs.
    by apply andb_prop in Hs as [[[_ ->]%andb_prop _]%andb_prop _]. }
  destruct segs as [|s segs]; [done|].
  destruct (glue_plain_facts (s :: segs) Hall Hne) as (Hg & Hs & He).
  unfold Path.normalize. rewrite Hs, He.
  apply String.eqb_neq in Hg. rewrite Hg.
  rewrite pieces_glue; [|by eapply Forall_impl; [exact Hall|apply plain_no_sep]|done].
  rewrite keep_plain by done. rewrite app_nil_r, rev_involutive. cbn [negb].
  by rewrite Hg.
Qed.

Example join_plain_reducer prop :
  Path.plain prop = true →
  Path.join ["modules"; prop; "reducer.js"] = "modules/" +:+ prop +:+ "/reducer.js".
Proof. intros Hp. rewrite join_plain; [done|by repeat constructor|done]. Qed.

Example join_plain_sagas prop :
  Path.plain prop = true →
  Path.join ["modules"; prop; "sagas.js"] = "modules/" +:+ prop +:+ "/sagas.js".
Proof. intros Hp. rewrite join_plain; [done|by repeat constructor|done]. Qed.

Example join_plain_module n :
  Path.plain n = true → Path.join ["modules"; n] = "modules/" +:+ n.
Proof. intros Hp. rewrite join_plain; [done|by repeat constructor|done]. Qed.

(** ** Promise chains *)

Section AsyncFacts.
Context {A B : Type}.

Lemma andThen_resolved (p : Async A) (f : A -> Async B) h evs b :
  andThen p f h = (evs, Resolved b) →
  ∃ e1 a e2, p h = (e1, Resolved a) ∧ f a (h ++ e1) = (e2, Resolved b)
             ∧ evs = e1 ++ e2.
Proof.
  unfold andThen. destruct (p h) as [e1 [a|e|e]]; [|done..].
  destruct (f a (h ++ e1)) as [e2 out] eqn:Hf. intros [= <- ->]. eauto 6.
Qed.

Lemma andThen_step (p : Async A) (f : A -> Async B) h e1 a :
  p h = (e1, Resolved a) →
  andThen p f h = (e1 ++ (f a (h ++ e1)).1, (f a (h ++ e1)).2).
Proof. unfold andThen. intros ->. by destruct (f a (h ++ e1)). Qed.

Lemma andThen_rejected_l (p : Async A) (f : A -> Async B) h e1 e :
  p h = (e1, Rejected e) → andThen p f h = (e1, Rejected e).
Proof. unfold andThen. by intros ->. Qed.

Lemma andThen_cases (p : Async A) (f : A -> Async B) h evs out :
  andThen p f h = (evs, out) →
  (∃ e1 a e2, p h = (e1, Resolved a) ∧ f a (h ++ e1) = (e2, out) ∧ evs = e1 ++ e2)
  ∨ (∃ e, p h = (evs, Rejected e) ∧ out = Rejected e)
  ∨ (∃ e, p h = (evs, Thrown e) ∧ out = Thrown e).
Proof.
  unfold andThen. destruct (p h) as [e1 [a|e|e]].
  - destruct (f a (h ++ e1)) as [e2 o] eqn:Hf. intros [= <- <-]. left. eauto 6.
  - intros [= <- <-]. right. left. eauto.
  - intros [= <- <-]. right. right. eauto.
Qed.

End AsyncFacts.

Lemma await_cases {A} (c : Call) (answer : Trace -> Result A) h evs out :
  await c answer h = (evs, out) →
  (∃ a, answer (h ++ [Started c]) = Ok a ∧ evs = [Started c; Settled c true]
        ∧ out = Resolved a)
  ∨ (∃ e, answer (h ++ [Started c]) = Err e ∧ evs = [Started c; Settled c false]
          ∧ out = Rejected (Cause e)).
Proof.
  unfold await. destruct (answer _) as [a|e]; intros [= <- <-]; eauto.
Qed.

(** ** [preInstall] *)

Section PreInstallFacts.
Context {M : Type}.
Implicit Types (w : World M) (tree : ComponentTree M).

Lemma hasModule_inIndex tree n :
  hasModule tree n = true ↔ inIndex tree n ∨ inherited tree n.
Proof.
  unfold hasModule, inIndex, inherited. destruct (modules tree) as [ms|].
  - rewrite orb_true_iff, !bool_decide_eq_true. split.
    + intros [H|H]; [left; eauto|right; eauto].
    + intros [(? & [= <-] & ?)|[_ ?]]; auto.
  - split; [done|]. intros [(? & ? & _)|[[? ?] _]]; done.
Qed.

Lemma collisions_from tree acc items :
  fold_left
    (fun existing module =>
       if hasModule tree (name module) then existing ++ [name module] else existing)
    items acc
  = acc ++ filter (fun n => hasModule tree n = true) (name <$> items).
Proof.
  revert acc. induction items as [|item items IH]; intros acc; simpl.
  - by rewrite app_nil_r.
  - rewrite IH, filter_cons. destruct (hasModule tree (name item)) eqn:Hm.
    + rewrite decide_True by done. by rewrite <- app_assoc.
    + rewrite decide_False; [done|]. by intros [=].
Qed.

Lemma collisions_filter tree items :
  collisions tree items = filter (fun n => hasModule tree n = true) (name <$> items).
Proof. apply (collisions_from tree []). Qed.

Lemma listDirs_cases w dir msg h evs out :
  listDirs w dir msg h = (evs, out) →
  let c := ReadDirectoryFlat dir in
  (∃ f, readDirectoryFlat w (h ++ [Started c]) dir = Ok f
        ∧ evs = [Started c; Settled c true]
        ∧ ((noDirs f = true ∧ out = Rejected (Error msg))
           ∨ (noDirs f = false ∧ ∃ ds, dirs f = Some ds ∧ out = Resolved ds)))
  ∨ (∃ e, readDirectoryFlat w (h ++ [Started c]) dir = Err e
          ∧ evs = [Started c; Settled c false] ∧ out = Rejected (Cause e)).
Proof.
  intros H c; subst c. unfold listDirs in H.
  apply andThen_cases in H as [(e1 & f & e2 & Ha & Hk & ->)|[(e & Ha & ->)|(e & Ha & ->)]].
  - apply await_cases in Ha as [(a & Hans & -> & [= <-])|(e' & _ & _ & [=])].
    left. exists f. split; [done|]. unfold noDirs.
    destruct (dirs f) as [[|d ds]|]; simpl in Hk; injection Hk as <- <-;
      rewrite ?app_nil_r; split; eauto.
  - apply await_cases in Ha as [(a & _ & _ & [=])|(e' & Hans & -> & [= ->])].
    right. eauto.
  - apply await_cases in Ha as [(a & _ & _ & [=])|(e' & _ & _ & [=])].
Qed.

Lemma listDirs_empty w dir msg h f :
  readDirectoryFlat w (h ++ [Started (ReadDirectoryFlat dir)]) dir = Ok f →
  noDirs f = true →
  listDirs w dir msg h
  = ([Started (ReadDirectoryFlat dir); Settled (ReadDirectoryFlat dir) true],
     Rejected (Error msg)).
Proof.
  intros Hf Hn. unfold listDirs, andThen, await. rewrite Hf.
  unfold noDirs in Hn. by destruct (dirs f) as [[|??]|].
Qed.

Lemma listDirs_some w dir msg h f :
  readDirectoryFlat w (h ++ [Started (ReadDirectoryFlat dir)]) dir = Ok f →
  noDirs f = false →
  listDirs w dir msg h
  = ([Started (ReadDirectoryFlat dir); Settled (ReadDirectoryFlat dir) true],
     Resolved (default [] (dirs f))).
Proof.
  intros Hf Hn. unfold listDirs, andThen, await. rewrite Hf.
  unfold noDirs in Hn. by destruct (dirs f) as [[|??]|].
Qed.

(** [preInstall] issues reads only. *)
Lemma preInstall_reads_only w options h :
  Forall (fun e => readEvent e = true) (preInstall w options h).1.
Proof.
  unfold preInstall.
  destruct (truthy (dirPath options)); [|by destruct (truthy (url options))].
  destruct (dirPath options) as [d|]; [|done].
  unfold preInstallFrom, andThen, await, listDirs, andThen, await.
  repeat (match goal with
          | |- context [match ?x with Ok _ => _ | Err _ => _ end] => destruct x
          | |- context [match dirs ?f with _ => _ end] => destruct (dirs f) as [[|??]|]
          end; simpl; try by repeat constructor).
Qed.

Lemma reads_no_mutation (t : Trace) :
  Forall (fun e => readEvent e = true) t →
  filter (fun e => mutation e = true) t = [].
Proof.
  induction 1 as [|e t He _ IH]; [done|].
  rewrite filter_cons, IH. by destruct e as [[]|[] ?|].
Qed.

(** On histories with the same mutations, [preInstall] does the same. *)
Lemma preInstall_stable w options h h' :
  readsFollowMutations w →
  filter (fun e => mutation e = true) h = filter (fun e => mutation e = true) h' →
  preInstall w options h = preInstall w options h'.
Proof.
  intros Hw Hh. unfold preInstall.
  destruct (truthy (dirPath options)); [|done].
  destruct (dirPath options) as [d|]; [|done].
  assert (∀ l, filter (fun e => mutation e = true) l = [] →
               filter (fun e => mutation e = true) (h ++ l)
               = filter (fun e => mutation e = true) (h' ++ l)) as Hext.
  { intros l Hl. by rewrite !filter_app, Hl, Hh. }
  unfold preInstallFrom, andThen, await, listDirs, andThen, await.
  set (file := Path.join [d; "structor-namespaces.json"]).
  set (src := Path.join [d; "modules"]).
  destruct (Hw _ _ (Hext [Started (ReadJson file)] eq_refl)) as (-> & _ & _).
  destruct (readJson w _ _) as [m|e]; [|done].
  rewrite <- !app_assoc. simpl.
  destruct (Hw _ _ (Hext [Started (ReadJson file); Settled (ReadJson file) true;
                          Started GetComponentTree] eq_refl)) as (_ & -> & _).
  destruct (getComponentTree w _) as [tree|e]; [|done].
  rewrite <- !app_assoc. simpl.
  destruct (Hw _ _ (Hext [Started (ReadJson file); Settled (ReadJson file) true;
                          Started GetComponentTree; Settled GetComponentTree true;
                          Started (ReadDirectoryFlat src)] eq_refl)) as (_ & _ & ->).
  destruct (readDirectoryFlat w _ _) as [f|e]; [|done].
  by destruct (dirs f) as [[|??]|].
Qed.

End PreInstallFacts.

(** ** The [Promise.all] loop *)

Section PromiseAllFacts.
Context {M : Type} (w : World M) {Vars : Type}.
Implicit Types (p : Pool Vars) (tk : Task Vars) (tks : list (Task Vars)).

Lemma runCallbacks_shorter (ks : list (Callback Vars)) v v' evs tk' :
  runCallbacks ks v = (v', evs, Some tk') → length (thens tk') < length ks.
Proof.
  revert v v' evs. induction ks as [|k ks IH]; intros v v' evs; simpl; [done|].
  destruct (k v) as [[v1 e1] [c|]].
  - intros [= <- <- <-]. simpl. lia.
  - destruct (runCallbacks ks v1) as [[v2 e2] next] eqn:Hr.
    intros [= <- <- ->]. apply IH in Hr. lia.
Qed.

Lemma totalWeight_delete tks i tk :
  tks !! i = Some tk → totalWeight (delete i tks) + weight tk = totalWeight tks.
Proof.
  unfold weight.
  revert i. induction tks as [|t tks IH]; intros [|i]; simpl; unfold weight; try done.
  - intros [= ->]. lia.
  - intros H. apply IH in H. lia.
Qed.

Lemma totalWeight_insert tks i tk tk' :
  tks !! i = Some tk →
  totalWeight (<[i := tk']> tks) + weight tk = totalWeight tks + weight tk'.
Proof.
  unfold weight.
  revert i. induction tks as [|t tks IH]; intros [|i]; simpl; unfold weight; try done.
  - intros [= ->]. lia.
  - intros H. apply IH in H. lia.
Qed.

(** What one settlement does: the chain picked either rejects and is
    dropped, or fulfils and runs its callbacks. *)
Lemma settleOne_cases past p :
  tasks p ≠ [] →
  ∃ i tk, tasks p !! i = Some tk ∧
    ((∃ e, settle w (past ++ emitted p) (pending tk) = Some e
           ∧ settleOne w past p
             = {| tasks := delete i (tasks p);
                  vars := vars p;
                  rejection := firstRejection (rejection p) (Cause e);
                  emitted := emitted p ++ [Settled (pending tk) false] |})
     ∨ (settle w (past ++ emitted p) (pending tk) = None
        ∧ ∃ v' evs next,
            runCallbacks (thens tk) (vars p) = (v', evs, next)
            ∧ settleOne w past p
              = {| tasks := match next with
                            | Some tk' => <[i := tk']> (tasks p)
                            | None => delete i (tasks p)
                            end;
                   vars := v';
                   rejection := rejection p;
                   emitted := emitted p ++ Settled (pending tk) true :: evs |})).
Proof.
  intros Hne. unfold settleOne.
  set (i := settlesNext w _ _ `mod` length (tasks p)).
  assert (i < length (tasks p)) as Hi.
  { apply Nat.mod_upper_bound. by destruct (tasks p). }
  apply lookup_lt_is_Some in Hi as [tk Htk]. rewrite Htk.
  exists i, tk. split; [done|].
  destruct (settle w _ (pending tk)) as [e|]; [left; eauto|right].
  split; [done|]. destruct (runCallbacks _ _) as [[v' evs] next]. eauto.
Qed.

Lemma settleOne_lighter past p :
  tasks p ≠ [] → totalWeight (tasks (settleOne w past p)) < totalWeight (tasks p).
Proof.
  intros Hne.
  destruct (settleOne_cases past p Hne) as (i & tk & Htk & [(e & _ & ->)|(_ & v' & evs & next & Hr & ->)]);
    simpl.
  - pose proof (totalWeight_delete _ _ _ Htk). unfold weight in *. lia.
  - destruct next as [tk'|].
    + pose proof (totalWeight_insert _ _ _ tk' Htk).
      apply runCallbacks_shorter in Hr. unfold weight in *. lia.
    + pose proof (totalWeight_delete _ _ _ Htk). unfold weight in *. lia.
Qed.

(** An invariant of single settlements holds when the loop ends, and the
    loop, given the fuel [promiseAll] gives it, ends with no chain left. *)
Lemma settleAll_invariant (I : Pool Vars → Prop) past :
  (∀ p, I p → tasks p ≠ [] → I (settleOne w past p)) →
  ∀ fuel p, I p → (totalWeight (tasks p) ≤ fuel)%nat →
    I (settleAll w fuel past p) ∧ tasks (settleAll w fuel past p) = [].
Proof.
  intros Hstep. induction fuel as [|fuel IH]; intros p Hp Hfuel; simpl.
  - split; [done|]. destruct (tasks p) as [|tk tks]; [done|].
    simpl in Hfuel. lia.
  - destruct (tasks p) as [|tk tks] eqn:Htasks; [done|].
    assert (tasks p ≠ []) as Hne by (by rewrite Htasks).
    apply IH; [by apply Hstep|].
    pose proof (settleOne_lighter past p Hne). rewrite Htasks in *. lia.
Qed.

Lemma promiseAll_invariant (I : Pool Vars → Prop) past tks v :
  I {| tasks := tks; vars := v; rejection := None; emitted := [] |} →
  (∀ p, I p → tasks p ≠ [] → I (settleOne w past p)) →
  ∃ p, I p ∧ tasks p = []
       ∧ promiseAll w tks v past
         = (vars p, emitted p,
            match rejection p with None => Resolved tt | Some e => Rejected e end).
Proof.
  intros H0 Hstep. unfold promiseAll.
  set (p0 := {| tasks := tks; vars := v; rejection := None; emitted := [] |}).
  destruct (settleAll_invariant I past Hstep (totalWeight tks) p0 H0) as [HI Hdone];
    [done|].
  by exists (settleAll w (totalWeight tks) past p0).
Qed.

Lemma spawn_tasks {A} (body : A → Vars → Vars * Task Vars) (chain : A → Task Vars)
    items v :
  (∀ x v, (body x v).2 = chain x) →
  (spawn body items v).2 = chain <$> items.
Proof.
  intros Hb. revert v. induction items as [|x items IH]; intros v; simpl; [done|].
  specialize (Hb x v). destruct (body x v) as [v' tk]. simpl in Hb. subst tk.
  specialize (IH v'). destruct (spawn body items v') as [v'' tks]. simpl in *.
  by rewrite IH.
Qed.

End PromiseAllFacts.

(** Closes permutation goals that differ by where one element stands. *)
Ltac perm_middle := simpl; rewrite <- ?Permutation_middle; simpl; done.

Section Mirror.
Context {M : Type} (w : World M) {Vars St : Type}.
Context (taskOf : St → Task Vars).

Lemma insert_delete_Permutation {A} (l : list A) i x y :
  l !! i = Some x → <[i := y]> l ≡ₚ y :: delete i l.
Proof.
  intros Hi. pose proof (lookup_lt_Some _ _ _ Hi) as Hlt.
  rewrite insert_take_drop by done.
  rewrite delete_take_drop. by rewrite Permutation_middle.
Qed.

(** One settlement, seen on the list of steps that mirrors the chains. *)
Lemma settleOne_mirror past (p : Pool Vars) (rem : list St) :
  tasks p = taskOf <$> rem → tasks p ≠ [] →
  ∃ i x, rem !! i = Some x ∧ rem ≡ₚ x :: delete i rem ∧
    ((∃ e, settle w (past ++ emitted p) (pending (taskOf x)) = Some e
           ∧ settleOne w past p
             = {| tasks := taskOf <$> delete i rem;
                  vars := vars p;
                  rejection := firstRejection (rejection p) (Cause e);
                  emitted := emitted p ++ [Settled (pending (taskOf x)) false] |})
     ∨ (settle w (past ++ emitted p) (pending (taskOf x)) = None
        ∧ ∃ v' evs next,
            runCallbacks (thens (taskOf x)) (vars p) = (v', evs, next)
            ∧ ((next = None
                ∧ settleOne w past p
                  = {| tasks := taskOf <$> delete i rem;
                       vars := v';
                       rejection := rejection p;
                       emitted := emitted p ++ Settled (pending (taskOf x)) true :: evs |})
               ∨ (∃ tk', next = Some tk'
                  ∧ ∀ y, tk' = taskOf y →
                      <[i := y]> rem ≡ₚ y :: delete i rem
                      ∧ settleOne w past p
                        = {| tasks := taskOf <$> <[i := y]> rem;
                             vars := v';
                             rejection := rejection p;
                             emitted := emitted p
                                          ++ Settled (pending (taskOf x)) true :: evs |})))).
Proof.
  intros Hm Hne.
  destruct (settleOne_cases w past p Hne) as (i & tk & Htk & Hcase).
  rewrite Hm, list_lookup_fmap in Htk.
  destruct (rem !! i) as [x|] eqn:Hx; simpl in Htk; [|done].
  injection Htk as <-. exists i, x. split; [done|].
  split; [by apply delete_Permutation|].
  destruct Hcase as [(e & He & ->)|(Hs & v' & evs & next & Hr & ->)].
  - left. exists e. split; [done|]. by rewrite Hm, list_fmap_delete.
  - right. split; [done|]. exists v', evs, next. split; [done|].
    destruct next as [tk'|].
    + right. exists tk'. split; [done|]. intros y ->.
      split; [by eapply insert_delete_Permutation|].
      by rewrite Hm, list_fmap_insert.
    + left. split; [done|]. by rewrite Hm, list_fmap_delete.
Qed.

End Mirror.

(** ** The copy loops of the modules and docs groups *)

Lemma groupCopied_more destRoot items t pre post :
  groupCopied destRoot items t → groupCopied destRoot items (pre ++ t ++ post).
Proof. intros H item Hin. rewrite !elem_of_app. right. left. by apply H. Qed.

Lemma groupCopied_Permutation destRoot items items' t :
  items ≡ₚ items' → groupCopied destRoot items t → groupCopied destRoot items' t.
Proof. intros Hp H item Hin. apply H. by rewrite Hp. Qed.

Lemma copyItem_Removing (items : list DirItem) : copyItem <$> (Removing <$> items) = items.
Proof.
  induction items as [|item items IH]; [done|].
  rewrite !fmap_cons. simpl. by f_equal.
Qed.

Section CopyFacts.
Context {M : Type} (w : World M) (destRoot : string).

Lemma copyGroup_spec items h evs out :
  copyGroup w destRoot items h = (evs, out) →
  Forall (fun e => copyEvent e = true) evs
  ∧ (out = Resolved tt → groupCopied destRoot items evs)
  ∧ (∀ e, out = Rejected e → ∃ c, e = Cause c)
  ∧ (∀ e, out ≠ Thrown e).
Proof.
  unfold copyGroup, andThen, allOf, forEachAll.
  pose proof (spawn_tasks (copyTask destRoot)
                (copyStepTask destRoot ∘ Removing) items tt
                (fun _ _ => eq_refl)) as Hsp.
  rewrite list_fmap_compose in Hsp.
  destruct (spawn _ items tt) as [v0 tks]. simpl in Hsp. subst tks.
  set (started := (fun tk => Started (pending tk)) <$> _).
  pose (I := fun p : Pool unit =>
    ∃ rem copied dropped,
      tasks p = copyStepTask destRoot <$> rem
      ∧ items ≡ₚ copied ++ (copyItem <$> rem) ++ dropped
      ∧ (rejection p = None → dropped = [])
      ∧ (∀ e, rejection p = Some e → ∃ c, e = Cause c)
      ∧ Forall (fun e => copyEvent e = true) (emitted p)
      ∧ groupCopied destRoot copied (emitted p)).
  destruct (promiseAll_invariant w I (h ++ started)
              (copyStepTask destRoot <$> (Removing <$> items)) v0)
    as (p & (rem & copied & dropped & Ht & Hperm & Hdrop & Hrej & Hev & Hcp) & Hdone & Hrun).
  { exists (Removing <$> items), [], []. simpl.
    rewrite copyItem_Removing, app_nil_r.
    repeat split; try done. intros item Hin. by apply elem_of_nil in Hin. }
  { clear. intros p (rem & copied & dropped & Ht & Hperm & Hdrop & Hrej & Hev & Hcp) Hne.
    destruct (settleOne_mirror w (copyStepTask destRoot) (h ++ started) p rem Ht Hne)
      as (i & x & Hx & Hrem & [(e & _ & ->)|(_ & v' & evs & next & Hr & Hnext)]).
    - (* the pending call rejects *)
      exists (delete i rem), copied, (copyItem x :: dropped). simpl.
      split; [done|]. split.
      { rewrite Hperm. rewrite Hrem at 1. rewrite fmap_cons. perm_middle. }
      split; [by destruct (rejection p)|]. split.
      { destruct (rejection p) as [e0|]; intros e' [= <-]; eauto. }
      split; [|by apply (groupCopied_more _ _ _ [])].
      apply Forall_app. split; [done|]. apply Forall_singleton. by destruct x.
    - destruct x as [item|item]; simpl in Hr; injection Hr as <- <- <-.
      + (* the directory is removed: the copy starts *)
        destruct Hnext as [[[=] _]|(tk' & [= <-] & Hnext)].
        destruct (Hnext (Copying item) eq_refl) as [Hins ->].
        exists (<[i := Copying item]> rem), copied, dropped. simpl.
        split; [done|]. split.
        { rewrite Hperm. rewrite Hins. rewrite Hrem at 1. rewrite !fmap_cons. perm_middle. }
        split; [done|]. split; [done|].
        split; [|by apply (groupCopied_more _ _ _ [])].
        apply Forall_app. split; [done|]. by repeat constructor.
      + (* the copy is done *)
        destruct Hnext as [[_ ->]|(tk' & [=] & _)].
        exists (delete i rem), (item :: copied), dropped. simpl.
        split; [done|]. split.
        { rewrite Hperm. rewrite Hrem at 1. rewrite fmap_cons. perm_middle. }
        split; [done|]. split; [done|]. split.
        { apply Forall_app. split; [done|]. by repeat constructor. }
        intros item' [->|Hin]%elem_of_cons.
        * rewrite elem_of_app. right. by apply list_elem_of_singleton.
        * rewrite elem_of_app. left. by apply Hcp. }
  rewrite Hrun. rewrite Hdone in Ht. symmetry in Ht. apply fmap_nil_inv in Ht. subst rem.
  simpl in Hperm.
  assert (Forall (fun e => copyEvent e = true) (started ++ emitted p)) as Hall.
  { apply Forall_app. split; [|done]. subst started.
    do 3 apply Forall_fmap. apply Forall_true. by intros x. }
  destruct (rejection p) as [e|] eqn:Hr.
  - intros [= <- <-]. split; [done|]. split; [done|]. split; [|done].
    intros e' [= <-]. by apply Hrej.
  - intros [= <- <-]. rewrite app_nil_r. split; [done|]. split; [|done].
    intros _. rewrite (Hdrop eq_refl), app_nil_r in Hperm.
    apply (groupCopied_Permutation _ copied); [done|].
    pose proof (groupCopied_more destRoot copied (emitted p) started [] Hcp) as Hc.
    by rewrite app_nil_r in Hc.
Qed.

End CopyFacts.

(** ** The copy loop of the defaults group *)

Section DefaultsFacts.
Context {M : Type} (config : Config) (g : Gengine) (w : World M).
Context (tree : ComponentTree M) (items : list DirItem).

Local Abbreviation followed := (indexedAfterCopy config g tree items).

Lemma followed_app t1 t2 : followed t1 → followed t2 → followed (t1 ++ t2).
Proof.
  intros H1 H2 pre src dst post Heq.
  apply app_eq_inv in Heq as [(k & -> & Hk)|(k & -> & ->)].
  - destruct k as [|e k]; simpl in Hk.
    + apply (H2 []). by rewrite <- Hk.
    + injection Hk as <- ->.
      destruct (H1 _ _ _ _ eq_refl) as (item & code & post' & ? & ? & ? & ->).
      exists item, code, (post' ++ t2). by repeat split.
  - by apply (H2 k).
Qed.

Lemma followed_no_copy t : Forall (fun e => copySettled e = false) t → followed t.
Proof.
  intros Hall pre src dst post ->.
  apply Forall_app in Hall as [_ Hall]. by apply Forall_cons in Hall as [[=] _].
Qed.

Lemma defaultsItem_Removing (l : list DirItem) :
  defaultsItem <$> (RemovingDefaults <$> l) = l.
Proof.
  induction l as [|item l IH]; [done|]. rewrite !fmap_cons. simpl. by f_equal.
Qed.

Lemma copyDefaults_spec h evs out :
  copyDefaults config g w tree items h = (evs, out) →
  Forall (fun e => defaultsEvent (indexFilePath tree) e = true) evs
  ∧ followed evs
  ∧ (out = Resolved tt → groupCopied (componentDefaultsDirPath config) items evs)
  ∧ (∀ e, out = Rejected e → ∃ c, e = Cause c)
  ∧ (∀ e, out ≠ Thrown e).
Proof.
  unfold copyDefaults, andThen, allOf, forEachAll.
  pose proof (spawn_tasks (defaultsTask config g tree)
                (defaultsStepTask config g tree ∘ RemovingDefaults) items
                (indexSourceCode tree) (fun _ _ => eq_refl)) as Hsp.
  rewrite list_fmap_compose in Hsp.
  destruct (spawn _ items _) as [v0 tks]. simpl in Hsp. subst tks.
  set (started := (fun tk => Started (pending tk)) <$> _).
  set (dest := componentDefaultsDirPath config).
  pose (I := fun p : Pool string =>
    ∃ rem copied dropped,
      tasks p = defaultsStepTask config g tree <$> rem
      ∧ items ≡ₚ copied ++ (defaultsItem <$> rem) ++ dropped
      ∧ (rejection p = None → dropped = [])
      ∧ (∀ e, rejection p = Some e → ∃ c, e = Cause c)
      ∧ Forall (fun e => defaultsEvent (indexFilePath tree) e = true) (emitted p)
      ∧ followed (emitted p)
      ∧ groupCopied dest copied (emitted p)
      ∧ (∀ item text, WritingIndex item text ∈ rem →
           Settled (CopyFile (path item) (Path.join [dest; name item])) true
           ∈ emitted p)).
  destruct (promiseAll_invariant w I (h ++ started)
              (defaultsStepTask config g tree <$> (RemovingDefaults <$> items)) v0)
    as (p & (rem & copied & dropped & Ht & Hperm & Hdrop & Hrej & Hev & Hfol & Hcp & _)
          & Hdone & Hrun).
  { exists (RemovingDefaults <$> items), [], []. simpl.
    rewrite defaultsItem_Removing, app_nil_r.
    split_and!; try done.
    - by apply followed_no_copy.
    - intros item Hin. by apply elem_of_nil in Hin.
    - intros item text (x & [=] & _)%list_elem_of_fmap. }
  { clear. intros p (rem & copied & dropped & Ht & Hperm & Hdrop & Hrej & Hev & Hfol & Hcp & Hwr) Hne.
    destruct (settleOne_mirror w (defaultsStepTask config g tree) (h ++ started) p rem Ht Hne)
      as (i & x & Hx & Hrem & [(e & _ & ->)|(_ & v' & evs & next & Hr & Hnext)]).
    - (* the pending call rejects *)
      exists (delete i rem), copied, (defaultsItem x :: dropped). simpl.
      split_and!; try done.
      + rewrite Hperm. rewrite Hrem at 1. rewrite fmap_cons. perm_middle.
      + by destruct (rejection p).
      + destruct (rejection p) as [e0|]; intros e' [= <-]; eauto.
      + apply Forall_app. split; [done|]. apply Forall_singleton.
        destruct x; simpl; try done. apply String.eqb_refl.
      + apply followed_app; [done|]. apply followed_no_copy.
        apply Forall_singleton. by destruct x.
      + by apply (groupCopied_more _ _ _ []).
      + intros item text Hin%list_elem_of_delete_inv.
        rewrite elem_of_app. left. by eapply Hwr.
    - destruct x as [item|item|item text]; simpl in Hr; injection Hr as <- <- <-.
      + (* the old directory is removed: the copy starts *)
        destruct Hnext as [[[=] _]|(tk' & [= <-] & Hnext)].
        destruct (Hnext (CopyingDefaults item) eq_refl) as [Hins ->].
        exists (<[i := CopyingDefaults item]> rem), copied, dropped. simpl.
        split_and!; try done.
        * rewrite Hperm. rewrite Hins. rewrite Hrem at 1. rewrite !fmap_cons. perm_middle.
        * apply Forall_app. split; [done|]. by repeat constructor.
        * apply followed_app; [done|]. apply followed_no_copy. by repeat constructor.
        * by apply (groupCopied_more _ _ _ []).
        * intros item' text. rewrite Hins. intros [[=]|Hin%list_elem_of_delete_inv]%elem_of_cons.
          rewrite elem_of_app. left. by eapply Hwr.
      + (* the copy is done: inject and start writing the index *)
        destruct Hnext as [[[=] _]|(tk' & [= <-] & Hnext)].
        set (text := injectNamespaceComponent g (vars p) (name item)
                       (Path.join ["modules"; name item])) in *.
        destruct (Hnext (WritingIndex item text) eq_refl) as [Hins ->].
        exists (<[i := WritingIndex item text]> rem), copied, dropped. simpl.
        assert (item ∈ items) as Hitem.
        { rewrite Hperm. rewrite Hrem at 1. rewrite fmap_cons, !elem_of_app, elem_of_cons.
          simpl. auto. }
        split_and!; try done.
        * rewrite Hperm. rewrite Hins. rewrite Hrem at 1. rewrite !fmap_cons. perm_middle.
        * apply Forall_app. split; [done|]. repeat constructor. simpl.
          apply String.eqb_refl.
        * apply followed_app; [done|].
          intros pre src dst post Heq.
          destruct pre as [|e0 pre]; simpl in Heq.
          -- injection Heq as <- <- <-. exists item, (vars p), []. by repeat split.
          -- injection Heq as <- Heq.
             destruct pre as [|e1 [|e2 [|e3 pre]]]; simpl in Heq; done.
        * by apply (groupCopied_more _ _ _ []).
        * intros item' text'. rewrite Hins.
          intros [[= -> ->]|Hin%list_elem_of_delete_inv]%elem_of_cons.
          -- rewrite elem_of_app. right. apply elem_of_cons. by left.
          -- rewrite elem_of_app. left. by eapply Hwr.
      + (* the index is written: the chain is fulfilled *)
        destruct Hnext as [[_ ->]|(tk' & [=] & _)].
        exists (delete i rem), (item :: copied), dropped. simpl.
        split_and!; try done.
        * rewrite Hperm. rewrite Hrem at 1. rewrite fmap_cons. perm_middle.
        * apply Forall_app. split; [done|]. repeat constructor. simpl.
          apply String.eqb_refl.
        * apply followed_app; [done|]. apply followed_no_copy. by repeat constructor.
        * intros item' [->|Hin]%elem_of_cons; rewrite elem_of_app; left.
          -- apply (Hwr _ text). by eapply list_elem_of_lookup_2.
          -- by apply Hcp.
        * intros item' text' Hin%list_elem_of_delete_inv.
          rewrite elem_of_app. left. by eapply Hwr. }
  rewrite Hrun. rewrite Hdone in Ht. symmetry in Ht. apply fmap_nil_inv in Ht. subst rem.
  simpl in Hperm.
  assert (Forall (fun e => copySettled e = false) started) as Hst.
  { subst started. do 3 apply Forall_fmap. apply Forall_true. by intros x. }
  assert (Forall (fun e => defaultsEvent (indexFilePath tree) e = true)
            (started ++ emitted p)) as Hall.
  { apply Forall_app. split; [|done]. subst started.
    do 3 apply Forall_fmap. apply Forall_true. by intros x. }
  assert (followed (started ++ emitted p)) as Hfol'.
  { apply followed_app; [by apply followed_no_copy|done]. }
  destruct (rejection p) as [e|] eqn:Hr.
  - intros [= <- <-]. split_and!; try done. intros e' [= <-]. by apply Hrej.
  - intros [= <- <-]. rewrite app_nil_r. split_and!; try done.
    intros _. rewrite (Hdrop eq_refl), app_nil_r in Hperm.
    apply (groupCopied_Permutation _ copied); [done|].
    pose proof (groupCopied_more dest copied (emitted p) started [] Hcp) as Hc.
    by rewrite app_nil_r in Hc.
Qed.

End DefaultsFacts.

(** ** The [forOwn] loop over the manifest *)

Lemma reducerInjections_app t1 t2 :
  reducerInjections (t1 ++ t2) = reducerInjections t1 ++ reducerInjections t2.
Proof.
  induction t1 as [|e t1 IH]; [done|].
  destruct e as [c|c b|[]]; simpl; by rewrite ?IH.
Qed.

Lemma sagaInjections_app t1 t2 :
  sagaInjections (t1 ++ t2) = sagaInjections t1 ++ sagaInjections t2.
Proof.
  induction t1 as [|e t1 IH]; [done|].
  destruct e as [c|c b|[]]; simpl; by rewrite ?IH.
Qed.

Lemma reducersAfter_snoc g code order entry :
  reducersAfter g code (order ++ [entry])
  = injectReducer g (reducersAfter g code order) (reducerPropName entry.2)
      (reducerPropName entry.2 +:+ "Reducer")
      (Path.join ["modules"; entry.1; "reducer.js"]).
Proof. unfold reducersAfter. by rewrite fold_left_app. Qed.

Lemma sagasAfter_snoc g code order entry :
  sagasAfter g code (order ++ [entry])
  = injectSaga g (sagasAfter g code order) (entry.1 +:+ "Sagas")
      (Path.join ["modules"; entry.1; "sagas.js"]).
Proof. unfold sagasAfter. by rewrite fold_left_app. Qed.

Lemma rewriteEntry_Checking (l : list (string * NamespaceMeta)) :
  rewriteEntry <$> (CheckingReducer <$> l) = l.
Proof.
  induction l as [|entry l IH]; [done|]. rewrite !fmap_cons. simpl. by f_equal.
Qed.

Lemma started_no_injection {Vars} (tks : list (Task Vars)) :
  reducerInjections ((fun tk => Started (pending tk)) <$> tks) = []
  ∧ sagaInjections ((fun tk => Started (pending tk)) <$> tks) = [].
Proof. induction tks as [|tk tks IH]; [done|]. by rewrite fmap_cons. Qed.

Section RewriteFacts.
Context {M : Type} (g : Gengine) (w : World M).
Context (modulesSrc : string) (entries : list (string * NamespaceMeta)).

(** The loop leaves the texts alone and [moduleSagasFilePath] at the
    sagas file of the entry visited last. *)
Lemma spawn_rewrite_vars l v :
  let v' := (spawn (rewriteTask g modulesSrc) l v).1 in
  globalReducerSourceCode v' = globalReducerSourceCode v
  ∧ globalSagasSourceCode v' = globalSagasSourceCode v
  ∧ moduleSagasFilePath v'
    = match last l with
      | Some entry => Path.join [modulesSrc; entry.1; "sagas.js"]
      | None => moduleSagasFilePath v
      end.
Proof.
  revert v. induction l as [|[prop value] l IH]; intros v; simpl; [done|].
  specialize (IH {| globalReducerSourceCode := globalReducerSourceCode v;
                    globalSagasSourceCode := globalSagasSourceCode v;
                    moduleReducerFilePath := Path.join [modulesSrc; prop; "reducer.js"];
                    moduleSagasFilePath := Path.join [modulesSrc; prop; "sagas.js"] |}).
  destruct (spawn _ l _) as [v'' tks]. simpl in *.
  destruct IH as (-> & -> & ->). rewrite last_cons.
  by destruct (last l).
Qed.

Lemma rewriteLoop_spec r0 s0 h evs out :
  allOf w (rewriteTask g modulesSrc) entries
    {| globalReducerSourceCode := r0; globalSagasSourceCode := s0;
       moduleReducerFilePath := ""; moduleSagasFilePath := "" |} h
  = (evs, out) →
  ∃ done rest,
    entries ≡ₚ done ++ rest
    ∧ reducerInjections evs = reducerArgs <$> done
    ∧ sagaInjections evs = sagaArgs <$> done
    ∧ Forall (fun e => rewriteEvent e = true) evs
    ∧ Forall (knownCheck modulesSrc entries) evs
    ∧ match out with
      | Resolved v =>
          rest = []
          ∧ globalReducerSourceCode v = reducersAfter g r0 done
          ∧ globalSagasSourceCode v = sagasAfter g s0 done
          ∧ Forall (fun e => failedCheck e = false) evs
      | Rejected e => (∃ c, e = Cause c) ∧ Exists (fun e => failedCheck e = true) evs
      | Thrown _ => False
      end.
Proof.
  unfold allOf, forEachAll.
  set (v0 := {| globalReducerSourceCode := r0 |}).
  set (sagasFile := lastSagasFile modulesSrc entries).
  pose proof (spawn_tasks (rewriteTask g modulesSrc)
                (rewriteStepTask g modulesSrc sagasFile ∘ CheckingReducer) entries v0
                (fun x _ => match x with (_, _) => eq_refl end)) as Hsp.
  rewrite list_fmap_compose in Hsp.
  pose proof (spawn_rewrite_vars entries v0) as (Hr0 & Hs0 & Hsf).
  destruct (spawn _ entries v0) as [v1 tks]. simpl in Hsp, Hr0, Hs0, Hsf. subst tks.
  assert (moduleSagasFilePath v1 = sagasFile) as Hsf'.
  { rewrite Hsf. unfold sagasFile, lastSagasFile. by destruct (last entries). }
  clear Hsf.
  set (started := (fun tk => Started (pending tk)) <$> _).
  pose (I := fun p : Pool RewriteVars =>
    ∃ rem done dropped,
      tasks p = rewriteStepTask g modulesSrc sagasFile <$> rem
      ∧ entries ≡ₚ done ++ (rewriteEntry <$> rem) ++ dropped
      ∧ moduleSagasFilePath (vars p) = sagasFile
      ∧ globalReducerSourceCode (vars p) = reducersAfter g r0 done
      ∧ globalSagasSourceCode (vars p) = sagasAfter g s0 done
      ∧ reducerInjections (emitted p) = reducerArgs <$> done
      ∧ sagaInjections (emitted p) = sagaArgs <$> done
      ∧ Forall (fun e => rewriteEvent e = true) (emitted p)
      ∧ Forall (knownCheck modulesSrc entries) (emitted p)
      ∧ match rejection p with
        | None => dropped = [] ∧ Forall (fun e => failedCheck e = false) (emitted p)
        | Some e => (∃ c, e = Cause c) ∧ Exists (fun e => failedCheck e = true) (emitted p)
        end).
  destruct (promiseAll_invariant w I (h ++ started)
              (rewriteStepTask g modulesSrc sagasFile <$> (CheckingReducer <$> entries)) v1)
    as (p & (rem & done & dropped & Ht & Hperm & _ & Hred & Hsag & Hri & Hsi & Hev & Hkn & Hrej)
          & Hdone & Hrun).
  { exists (CheckingReducer <$> entries), [], []. simpl.
    rewrite rewriteEntry_Checking, app_nil_r. by split_and!. }
  { clear -Hsf'. intros p (rem & done & dropped & Ht & Hperm & Hsf & Hred & Hsag & Hri & Hsi & Hev & Hkn & Hrej) Hne.
    destruct (settleOne_mirror w (rewriteStepTask g modulesSrc sagasFile) (h ++ started) p rem Ht Hne)
      as (i & x & Hx & Hrem & [(e & _ & ->)|(_ & v' & evs & next & Hr & Hnext)]).
    - (* an existence check rejects *)
      exists (delete i rem), done, (rewriteEntry x :: dropped). simpl.
      assert (rewriteEntry x ∈ entries) as Hin.
      { rewrite Hperm. rewrite Hrem at 1. rewrite fmap_cons, !elem_of_app, elem_of_cons. auto. }
      split_and!; try done.
      + rewrite Hperm. rewrite Hrem at 1. rewrite fmap_cons. perm_middle.
      + by rewrite reducerInjections_app, Hri, app_nil_r.
      + by rewrite sagaInjections_app, Hsi, app_nil_r.
      + apply Forall_app. split; [done|]. apply Forall_singleton. by destruct x as [[??]|[??]].
      + apply Forall_app. split; [done|]. apply Forall_singleton.
        destruct x as [[prop value]|[prop value]]; simpl; [right|by left].
        by exists (prop, value).
      + assert (Exists (fun e0 => failedCheck e0 = true)
                  (emitted p ++ [Settled (pending (rewriteStepTask g modulesSrc sagasFile x)) false])).
        { apply Exists_app. right. apply Exists_cons. left. by destruct x as [[??]|[??]]. }
        destruct (rejection p) as [e0|]; simpl; [by destruct Hrej|eauto].
    - destruct x as [[prop value]|[prop value]]; simpl in Hr.
      + (* the reducer file exists: check the sagas file *)
        injection Hr as <- <- <-.
        destruct Hnext as [[[=] _]|(tk' & [= <-] & Hnext)].
        destruct (Hnext (CheckingSagas (prop, value))) as [Hins ->].
        { simpl. by rewrite Hsf. }
        exists (<[i := CheckingSagas (prop, value)]> rem), done, dropped. simpl.
        split_and!; try done.
        * rewrite Hperm. rewrite Hins. rewrite Hrem at 1. rewrite !fmap_cons. perm_middle.
        * by rewrite reducerInjections_app, Hri, app_nil_r.
        * by rewrite sagaInjections_app, Hsi, app_nil_r.
        * apply Forall_app. split; [done|]. by repeat constructor.
        * apply Forall_app. split; [done|].
          constructor; [|constructor; [|constructor]]; simpl.
          -- right. exists (prop, value). split; [|done].
             rewrite Hperm. rewrite Hrem at 1.
             rewrite fmap_cons, !elem_of_app, elem_of_cons. auto.
          -- left. by rewrite Hsf.
        * destruct (rejection p); [destruct Hrej as [? Hex]|destruct Hrej as [? Hall]];
            (split; [done|]).
          -- apply Exists_app. by left.
          -- apply Forall_app. split; [done|]. by repeat constructor.
      + (* the sagas file exists: inject *)
        injection Hr as <- <- <-.
        destruct Hnext as [[_ ->]|(tk' & [=] & _)].
        exists (delete i rem), (done ++ [(prop, value)]), dropped. simpl.
        split_and!; try done.
        * rewrite Hperm. rewrite Hrem at 1. rewrite fmap_cons, <- app_assoc. perm_middle.
        * by rewrite reducersAfter_snoc, Hred.
        * by rewrite sagasAfter_snoc, Hsag.
        * by rewrite reducerInjections_app, Hri, fmap_app.
        * by rewrite sagaInjections_app, Hsi, fmap_app.
        * apply Forall_app. split; [done|]. by repeat constructor.
        * apply Forall_app. split; [done|].
          constructor; [by left|]. by repeat constructor.
        * destruct (rejection p); [destruct Hrej as [? Hex]|destruct Hrej as [? Hall]];
            (split; [done|]).
          -- apply Exists_app. by left.
          -- apply Forall_app. split; [done|]. by repeat constructor. }
  rewrite Hrun. rewrite Hdone in Ht. symmetry in Ht. apply fmap_nil_inv in Ht. subst rem.
  simpl in Hperm.
  destruct (started_no_injection
              (rewriteStepTask g modulesSrc sagasFile <$> (CheckingReducer <$> entries)))
    as [Hst4 Hst5]. fold started in Hst4, Hst5.
  assert (Forall (fun e => rewriteEvent e = true) started
          ∧ Forall (knownCheck modulesSrc entries) started
          ∧ Forall (fun e => failedCheck e = false) started)
    as (Hst1 & Hst2 & Hst3).
  { subst started. split_and!; do 3 apply Forall_fmap; apply Forall_forall;
      intros [prop value] Hin; simpl; try done.
    right. by exists (prop, value). }
  destruct (rejection p) as [e|] eqn:Hrj; intros [= <- <-];
    exists done, dropped; rewrite !reducerInjections_app, !sagaInjections_app;
    rewrite Hst4, Hst5, Hri, Hsi; simpl.
  - destruct Hrej as [Hc Hex]. split_and!; try done.
    + by apply Forall_app.
    + by apply Forall_app.
    + apply Exists_app. by right.
  - destruct Hrej as [-> Hall]. rewrite app_nil_r in Hperm. split_and!; try done.
    + by rewrite app_nil_r.
    + by apply Forall_app.
    + by apply Forall_app.
    + by apply Forall_app.
Qed.

End RewriteFacts.

(** ** The stages of the chain *)

Section ChainFacts.
Context {M : Type} (config : Config) (g : Gengine) (w : World M).

Lemma rewriteRegistries_spec src m tree h evs out :
  rewriteRegistries g w src m tree h = (evs, out) →
  ∃ done rest loop,
    namespaces m ≡ₚ done ++ rest
    ∧ reducerInjections loop = reducerArgs <$> done
    ∧ sagaInjections loop = sagaArgs <$> done
    ∧ Forall (fun e => rewriteEvent e = true) loop
    ∧ Forall (knownCheck src (namespaces m)) loop
    ∧ ((Exists (fun e => failedCheck e = true) loop
        ∧ evs = loop ∧ ∃ c, out = Rejected (Cause c))
       ∨ (rest = []
          ∧ Forall (fun e => failedCheck e = false) loop
          ∧ ((evs = loop ++ registryWrites g tree done (Some false) None
              ∧ ∃ c, out = Rejected (Cause c))
             ∨ (evs = loop ++ registryWrites g tree done (Some true) (Some false)
                ∧ ∃ c, out = Rejected (Cause c))
             ∨ (evs = loop ++ registryWrites g tree done (Some true) (Some true)
                ∧ out = Resolved tt)))).
Proof.
  unfold rewriteRegistries. intros H.
  apply andThen_cases in H as [(loop & v & e2 & Hloop & Hk & ->)|[(e & Hloop & ->)|(e & Hloop & ->)]];
    apply rewriteLoop_spec in Hloop
      as (done & rest & Hperm & Hri & Hsi & Hev & Hkn & Hout).
  - exists done, rest, loop. split_and!; try done.
    destruct Hout as (-> & Hr & Hs & Hall). right. split_and!; try done.
    rewrite Hr, Hs in Hk. unfold registryWrites.
    apply andThen_cases in Hk as [(e1 & [] & e3 & Hw1 & Hw2 & ->)|[(e & Hw1 & ->)|(e & Hw1 & ->)]];
      apply await_cases in Hw1 as [(a & _ & -> & [=])|(c & _ & -> & [=])]; subst.
    + apply await_cases in Hw2 as [(a & _ & -> & ->)|(c & _ & -> & ->)].
      * right. right. by destruct a.
      * right. left. eauto.
    + left. eauto.
  - exists done, rest, evs. destruct Hout as [[c ->] Hex]. split_and!; try done.
    left. eauto.
  - done.
Qed.

Lemma indexRead_spec d h evs out :
  indexRead w d h = (evs, out) →
  Forall (fun e => indexEvent e = true) evs
  ∧ match out with
    | Resolved _ => True
    | Rejected e => ∃ c, e = Cause c
    | Thrown _ => False
    end.
Proof.
  unfold indexRead, andThen, await, resolve.
  repeat (match goal with
          | |- context [match ?x with Ok _ => _ | Err _ => _ end] => destruct x
          end; simpl);
    intros [= <- <-]; (split; [by repeat constructor|eauto]).
Qed.

End ChainFacts.

Lemma no_registryInjection t :
  Forall (fun e => registryInjection e = false) t →
  reducerInjections t = [] ∧ sagaInjections t = [].
Proof.
  induction 1 as [|e t He _ [IH1 IH2]]; [done|].
  by destruct e as [c|c b|[]].
Qed.

Lemma stagingEvent_listing index dir b :
  Forall (fun e => stagingEvent index e = true)
    [Started (ReadDirectoryFlat dir); Settled (ReadDirectoryFlat dir) b].
Proof. by repeat constructor. Qed.

Lemma stagingEvent_copy index t :
  Forall (fun e => copyEvent e = true) t →
  Forall (fun e => stagingEvent index e = true) t.
Proof. intros H. eapply Forall_impl; [done|]. by intros [[]|[] ?|[]]. Qed.

Lemma stagingEvent_defaults index t :
  Forall (fun e => defaultsEvent index e = true) t →
  Forall (fun e => stagingEvent index e = true) t.
Proof. intros H. eapply Forall_impl; [done|]. by intros [[]|[] ?|[]]. Qed.

(** A group: list the directory, then run the loop on what was found. *)
Lemma group_stage {M} (w : World M) (body : list DirItem → Async unit) dir msg h evs out :
  (ds <- listDirs w dir msg ;; body ds) h = (evs, out) →
  (emptyAt w h dir ∧ evs = listingEvents dir ∧ out = Rejected (Error msg))
  ∨ (∃ c, evs = [Started (ReadDirectoryFlat dir); Settled (ReadDirectoryFlat dir) false]
          ∧ out = Rejected (Cause c))
  ∨ (∃ ds eB, listed w h dir ds ∧ ds ≠ []
              ∧ body ds (h ++ listingEvents dir) = (eB, out)
              ∧ evs = listingEvents dir ++ eB).
Proof.
  intros H.
  apply andThen_cases in H as [(eL & ds & eB & HL & HB & ->)|[(e & HL & ->)|(e & HL & ->)]];
    apply listDirs_cases in HL
      as [(f & Hf & -> & [[Hn [=]]|(Hn & ds' & Hds & [=])])|(c & Hf & -> & [=])]; subst.
  - right. right. exists ds', eB. split_and!; try done.
    + by exists f.
    + intros ->. unfold noDirs in Hn. by rewrite Hds in Hn.
  - left. split; [by exists f|done].
  - right. left. eauto.
Qed.

Section ChainShape.
Context {M : Type} (config : Config) (g : Gengine) (w : World M) (d : string).

Lemma registriesWritten_spec h evs out :
  registriesWritten g w d h = (evs, out) →
  (∃ c, indexRead w d h = (evs, Rejected (Cause c)) ∧ out = Rejected (Cause c))
  ∨ (∃ eI m tree eR oR,
       indexRead w d h = (eI, Resolved (m, tree))
       ∧ rewriteRegistries g w (modulesSrcDirPath d) m tree (h ++ eI) = (eR, oR)
       ∧ evs = eI ++ eR
       ∧ ((oR = Resolved tt ∧ out = Resolved tree)
          ∨ (∃ c, oR = Rejected (Cause c) ∧ out = Rejected (Cause c)))).
Proof.
  unfold registriesWritten. intros H.
  apply andThen_cases in H as [(eI & [m tree] & e2 & HI & Hk & ->)|[(e & HI & ->)|(e & HI & ->)]].
  - right. simpl in Hk.
    apply andThen_cases in Hk as [(eR & [] & e3 & HR & [= <- <-] & ->)|[(e & HR & ->)|(e & HR & ->)]].
    + exists eI, m, tree, eR, (Resolved tt). rewrite app_nil_r. eauto 6.
    + exists eI, m, tree, e2, (Rejected e). split_and!; try done. right.
      pose proof (rewriteRegistries_spec _ _ _ _ _ _ _ _ HR)
        as (? & ? & ? & _ & _ & _ & _ & _ & [(_ & _ & c & Hc)|(_ & _ & [(_ & c & Hc)|[(_ & c & Hc)|(_ & Hc)]])]);
        simplify_eq; eauto.
    + pose proof (rewriteRegistries_spec _ _ _ _ _ _ _ _ HR)
        as (? & ? & ? & _ & _ & _ & _ & _ & [(_ & _ & c & Hc)|(_ & _ & [(_ & c & Hc)|[(_ & c & Hc)|(_ & Hc)]])]);
        simplify_eq.
  - left. destruct (indexRead_spec _ _ _ _ _ HI) as [_ [c ->]]. eauto.
  - by destruct (indexRead_spec _ _ _ _ _ HI) as [_ []].
Qed.

Lemma modulesStaged_shape h evs out :
  modulesStaged config g w d h = (evs, out) →
  (∃ c, registriesWritten g w d h = (evs, Rejected (Cause c)) ∧ out = Rejected (Cause c))
  ∨ (∃ eW tree tail,
       registriesWritten g w d h = (eW, Resolved tree)
       ∧ evs = eW ++ tail
       ∧ Forall (fun e => stagingEvent (indexFilePath tree) e = true) tail
       ∧ ((out = Resolved tree
           ∧ ∃ ms, listed w (h ++ eW) (modulesSrcDirPath d) ms
                   ∧ groupCopied (modulesDestDirPath config) ms tail)
          ∨ (out = Rejected (Error "Modules directory is empty")
             ∧ tail = listingEvents (modulesSrcDirPath d))
          ∨ (∃ c, out = Rejected (Cause c)))).
Proof.
  unfold modulesStaged. intros H.
  apply andThen_cases in H as [(eW & tree & tail & HW & Hk & ->)|[(e & HW & ->)|(e & HW & ->)]].
  - right. exists eW, tree, tail. split; [done|]. split; [done|].
    change (andThen (listDirs w (modulesSrcDirPath d) "Modules directory is empty")
              (fun ds => andThen (copyGroup w (modulesDestDirPath config) ds)
                           (fun _ => resolve tree)) (h ++ eW) = (tail, out)) in Hk.
    apply andThen_cases in Hk as [(eL & ms & eB & HL & HB & ->)|[(e & HL & ->)|(e & HL & ->)]];
      apply listDirs_cases in HL
        as [(f & Hf & -> & [[Hn [=]]|(Hn & ms' & Hds & [=])])|(c & Hf & -> & [=])]; subst;
      try rename ms' into ms.
    + apply andThen_cases in HB as [(eC & [] & e3 & HC & [= <- <-] & ->)|[(e & HC & ->)|(e & HC & ->)]];
        destruct (copyGroup_spec _ _ _ _ _ _ HC) as (Hev & Hcp & Hrej & Hth).
      * rewrite app_nil_r. split.
        { apply Forall_app. split; [apply stagingEvent_listing|by apply stagingEvent_copy]. }
        left. split; [done|]. exists ms. split; [by exists f|].
        pose proof (groupCopied_more _ _ _ (listingEvents (modulesSrcDirPath d)) []
                      (Hcp eq_refl)) as Hc.
        by rewrite app_nil_r in Hc.
      * split.
        { apply Forall_app. split; [apply stagingEvent_listing|by apply stagingEvent_copy]. }
        right. right. destruct (Hrej e eq_refl) as [c ->]. eauto.
      * by destruct (Hth e).
    + split; [apply stagingEvent_listing|]. right. by left.
    + split; [apply stagingEvent_listing|]. right. right. eauto.
  - left. destruct (registriesWritten_spec _ _ _ HW)
      as [(c & ? & ?)|(? & ? & ? & ? & ? & _ & _ & _ & [[_ ?]|(c & _ & ?)])];
      simplify_eq; eauto.
  - destruct (registriesWritten_spec _ _ _ HW)
      as [(c & ? & ?)|(? & ? & ? & ? & ? & _ & _ & _ & [[_ ?]|(c & _ & ?)])];
      simplify_eq.
Qed.

Lemma defaultsStaged_shape h evs out :
  defaultsStaged config g w d h = (evs, out) →
  (∃ e, modulesStaged config g w d h = (evs, Rejected e) ∧ out = Rejected e)
  ∨ (∃ eM tree tail,
       modulesStaged config g w d h = (eM, Resolved tree)
       ∧ evs = eM ++ tail
       ∧ Forall (fun e => stagingEvent (indexFilePath tree) e = true) tail
       ∧ ((out = Resolved tt
           ∧ ∃ ds, listed w (h ++ eM) (defaultsSrcDirPath d) ds
                   ∧ groupCopied (componentDefaultsDirPath config) ds tail)
          ∨ (out = Rejected (Error "Defaults directory is empty")
             ∧ tail = listingEvents (defaultsSrcDirPath d))
          ∨ (∃ c, out = Rejected (Cause c)))).
Proof.
  unfold defaultsStaged. intros H.
  apply andThen_cases in H as [(eM & tree & tail & HM & Hk & ->)|[(e & HM & ->)|(e & HM & ->)]].
  - right. exists eM, tree, tail. split; [done|]. split; [done|].
    apply group_stage in Hk
      as [(He & -> & ->)|[(c & -> & ->)|(ds & eB & Hl & Hne & HB & ->)]].
    + split; [apply stagingEvent_listing|]. right. by left.
    + split; [apply stagingEvent_listing|]. right. right. eauto.
    + destruct (copyDefaults_spec _ _ _ _ _ _ _ _ HB) as (Hev & _ & Hcp & Hrej & Hth).
      split.
      { apply Forall_app. split; [apply stagingEvent_listing|by apply stagingEvent_defaults]. }
      destruct out as [[]|e|e].
      * left. split; [done|]. exists ds. split; [done|].
        pose proof (groupCopied_more _ _ _ (listingEvents (defaultsSrcDirPath d)) []
                      (Hcp eq_refl)) as Hc.
        by rewrite app_nil_r in Hc.
      * right. right. destruct (Hrej e eq_refl) as [c ->]. eauto.
      * by destruct (Hth e).
  - left. eauto.
  - destruct (modulesStaged_shape _ _ _ HM)
      as [(c & _ & [=])|(? & ? & ? & _ & _ & _ & [[[=] _]|[[[=] _]|[c [=]]]])].
Qed.

(** After the registries: what a run adds, and how it can end. *)
Lemma installChain_shape h evs out :
  installChain config g w d h = (evs, out) →
  (∃ c, registriesWritten g w d h = (evs, Rejected (Cause c)) ∧ out = Rejected (Cause c))
  ∨ (∃ eW tree tail,
       registriesWritten g w d h = (eW, Resolved tree)
       ∧ evs = eW ++ tail
       ∧ Forall (fun e => stagingEvent (indexFilePath tree) e = true) tail
       ∧ (out = Rejected (Error "Modules directory is empty") →
          tail = listingEvents (modulesSrcDirPath d))
       ∧ (∀ e, out ≠ Thrown e)).
Proof.
  unfold installChain. intros H.
  apply andThen_cases in H as [(eD & [] & tail & HD & Hk & ->)|[(e & HD & ->)|(e & HD & ->)]].
  - (* the defaults group is staged: the docs group runs *)
    destruct (defaultsStaged_shape _ _ _ HD)
      as [(e & _ & [=])|(eM & tree & tD & HM & -> & HevD & _)].
    destruct (modulesStaged_shape _ _ _ HM)
      as [(c & _ & [=])|(eW & tree' & tM & HW & -> & HevM & [[[= <-] _]|[[[=] _]|[c [=]]]])].
    right. exists eW, tree, (tM ++ tD ++ tail). rewrite <- !app_assoc.
    split; [done|]. split; [done|].
    apply group_stage in Hk
      as [(He & -> & ->)|[(c & -> & ->)|(ds & eB & Hl & Hne & HB & ->)]].
    + split_and!; try done. repeat (apply Forall_app; split); try done.
      apply stagingEvent_listing.
    + split_and!; try done. repeat (apply Forall_app; split); try done.
      apply stagingEvent_listing.
    + destruct (copyGroup_spec _ _ _ _ _ _ HB) as (Hev & _ & Hrej & Hth).
      split_and!; try done.
      * repeat (apply Forall_app; split); try done; [apply stagingEvent_listing|].
        by apply stagingEvent_copy.
      * intros ->. by destruct (Hrej _ eq_refl).
  - (* the chain rejected before the docs group *)
    destruct (defaultsStaged_shape _ _ _ HD)
      as [(e' & HM & [= <-])|(eM & tree & tD & HM & -> & HevD & HoutD)].
    + destruct (modulesStaged_shape _ _ _ HM)
        as [(c & HW & [= ->])|(eW & tree' & tM & HW & -> & HevM & HoutM)].
      * left. eauto.
      * right. exists eW, tree', tM. split_and!; try done.
        destruct HoutM as [[[=] _]|[[_ ->]|[c [= ->]]]]; [done|by intros [=]].
    + destruct (modulesStaged_shape _ _ _ HM)
        as [(c & _ & [=])|(eW & tree' & tM & HW & -> & HevM & [[[= <-] _]|[[[=] _]|[c [=]]]])].
      right. exists eW, tree, (tM ++ tD). rewrite <- !app_assoc.
      split_and!; try done.
      * by apply Forall_app.
      * destruct HoutD as [[[=] _]|[[[= ->] _]|[c [= ->]]]]; by intros [=].
  - destruct (defaultsStaged_shape _ _ _ HD)
      as [(e' & _ & [=])|(? & ? & ? & _ & _ & _ & [[[=] _]|[[[=] _]|[c [=]]]])].
Qed.

End ChainShape.

(** ** Running the chain forward *)

Section Forward.
Context {M : Type} (config : Config) (g : Gengine) (w : World M) (d : string).

Lemma reaches_Modules h pre :
  reaches config g w d Modules h = (pre, Resolved tt) ↔
  ∃ tree, registriesWritten g w d h = (pre, Resolved tree).
Proof.
  simpl. split.
  - intros (e1 & tree & e2 & H1 & [= <-] & ->)%andThen_resolved.
    rewrite app_nil_r. eauto.
  - intros [tree H]. rewrite (andThen_step _ _ _ _ _ H). simpl. by rewrite app_nil_r.
Qed.

Lemma reaches_Defaults h pre :
  reaches config g w d Defaults h = (pre, Resolved tt) ↔
  ∃ tree, modulesStaged config g w d h = (pre, Resolved tree).
Proof.
  simpl. split.
  - intros (e1 & tree & e2 & H1 & [= <-] & ->)%andThen_resolved.
    rewrite app_nil_r. eauto.
  - intros [tree H]. rewrite (andThen_step _ _ _ _ _ H). simpl. by rewrite app_nil_r.
Qed.


Lemma defaultsStaged_rejected h e r :
  modulesStaged config g w d h = (e, Rejected r) →
  defaultsStaged config g w d h = (e, Rejected r).
Proof. intros H. unfold defaultsStaged. by rewrite (andThen_rejected_l _ _ _ _ _ H). Qed.


Lemma installChain_rejected h e r :
  defaultsStaged config g w d h = (e, Rejected r) →
  installChain config g w d h = (e, Rejected r).
Proof. intros H. unfold installChain. by rewrite (andThen_rejected_l _ _ _ _ _ H). Qed.


(** A staged modules group stays staged in any longer trace. *)
Lemma modulesStaged_copied h eM tree post :
  modulesStaged config g w d h = (eM, Resolved tree) →
  stagedInRun config g w d h Modules (eM ++ post).
Proof.
  intros HM.
  destruct (modulesStaged_shape _ _ _ _ _ _ _ HM)
    as [(c & _ & [=])|(eW & tree' & tM & HW & -> & _ & [[[= <-] (ms & Hl & Hcp)]|[[[=] _]|[c [=]]]])].
  exists eW, ms. split; [apply reaches_Modules; eauto|]. split; [done|].
  rewrite <- app_assoc. by apply groupCopied_more.
Qed.

Lemma defaultsStaged_copied h eD post :
  defaultsStaged config g w d h = (eD, Resolved tt) →
  stagedInRun config g w d h Modules (eD ++ post)
  ∧ stagedInRun config g w d h Defaults (eD ++ post).
Proof.
  intros HD.
  destruct (defaultsStaged_shape _ _ _ _ _ _ _ HD)
    as [(e & _ & [=])|(eM & tree & tD & HM & -> & _ & [[_ (ds & Hl & Hcp)]|[[[=] _]|[c [=]]]])].
  split.
  - rewrite <- app_assoc. by eapply modulesStaged_copied.
  - exists eM, ds. split; [apply reaches_Defaults; eauto|]. split; [done|].
    rewrite <- app_assoc. by apply groupCopied_more.
Qed.

End Forward.

(** ** The shape of a run that has read the index *)

Section RunShape.
Context {M : Type} (config : Config) (g : Gengine) (w : World M) (d : string).

Lemma install_run_shape h eI m tree evs out :
  indexRead w d h = (eI, Resolved (m, tree)) →
  installChain config g w d h = (evs, out) →
  ∃ done rest loop rw tail,
    evs = eI ++ loop ++ rw ++ tail
    ∧ namespaces m ≡ₚ done ++ rest
    ∧ reducerInjections loop = reducerArgs <$> done
    ∧ sagaInjections loop = sagaArgs <$> done
    ∧ Forall (fun e => rewriteEvent e = true) loop
    ∧ Forall (knownCheck (modulesSrcDirPath d) (namespaces m)) loop
    ∧ Forall (fun e => stagingEvent (indexFilePath tree) e = true) tail
    ∧ ((Exists (fun e => failedCheck e = true) loop
        ∧ rw = [] ∧ tail = [] ∧ ∃ c, out = Rejected (Cause c))
       ∨ (rest = []
          ∧ Forall (fun e => failedCheck e = false) loop
          ∧ ((rw = registryWrites g tree done (Some false) None
              ∧ tail = [] ∧ ∃ c, out = Rejected (Cause c))
             ∨ (rw = registryWrites g tree done (Some true) (Some false)
                ∧ tail = [] ∧ ∃ c, out = Rejected (Cause c))
             ∨ (rw = registryWrites g tree done (Some true) (Some true)
                ∧ (out = Rejected (Error "Modules directory is empty") →
                   tail = listingEvents (modulesSrcDirPath d))
                ∧ (∀ e, out ≠ Thrown e))))).
Proof.
  intros HI Hrun.
  apply installChain_shape in Hrun
    as [(c & HW & ->)|(eW & tree' & tail & HW & -> & Hst & Hmod & Hth)];
    apply registriesWritten_spec in HW
      as [(c' & HI' & Hc)|(eI' & m' & tree'' & eR & oR & HI' & HR & HeW & Hout)];
    rewrite HI in HI'; simplify_eq.
  - (* the registries stage rejected *)
    destruct Hout as [[_ [=]]|(c' & -> & [= <-])].
    apply rewriteRegistries_spec in HR
      as (done & rest & loop & Hperm & Hri & Hsi & Hev & Hkn & Hcase).
    exists done, rest, loop.
    destruct Hcase as [(Hex & -> & _)|(-> & Hall & [(-> & _)|[(-> & _)|(_ & [=])]])].
    + exists [], []. rewrite ?app_nil_r in *. split_and!; try done. left. eauto.
    + exists (registryWrites g tree'' done (Some false) None), [].
      rewrite ?app_nil_r in *. split_and!; try done. right. split_and!; try done.
      left. eauto.
    + exists (registryWrites g tree'' done (Some true) (Some false)), [].
      rewrite ?app_nil_r in *. split_and!; try done. right. split_and!; try done.
      right. left. eauto.
  - (* the registries are written *)
    destruct Hout as [[-> [= <-]]|(c' & _ & [=])].
    apply rewriteRegistries_spec in HR
      as (done & rest & loop & Hperm & Hri & Hsi & Hev & Hkn & Hcase).
    exists done, rest, loop.
    destruct Hcase as [(_ & _ & c & [=])|(-> & Hall & [(_ & c & [=])|[(_ & c & [=])|(-> & _)]])].
    exists (registryWrites g tree' done (Some true) (Some true)), tail.
    rewrite <- !app_assoc. rewrite ?app_nil_r in *. split_and!; try done.
    right. split_and!; try done. right. right. done.
Qed.

End RunShape.

(** ** Which events can be what *)

Lemma indexEvent_other (e : Event) :
  indexEvent e = true →
  registryInjection e = false ∧ failedCheck e = false
  ∧ (∀ file, startsWriteTo file e = false)
  ∧ (∀ file text b, e ≠ Settled (WriteFile file text) b).
Proof. by destruct e as [[]|[] ?|[]]. Qed.

Lemma rewriteEvent_other (e : Event) :
  rewriteEvent e = true →
  (∀ file, startsWriteTo file e = false)
  ∧ (∀ file text b, e ≠ Settled (WriteFile file text) b).
Proof. by destruct e as [[]|[] ?|[]]. Qed.

Lemma stagingEvent_other index (e : Event) :
  stagingEvent index e = true →
  registryInjection e = false
  ∧ (∀ file, file ≠ index → startsWriteTo file e = false).
Proof.
  intros H. split; [by destruct e as [[]|[] ?|[]]|].
  intros file Hne. destruct e as [[]|[] ?|[]]; try done; simpl in *.
  apply String.eqb_eq in H. subst. by apply String.eqb_neq.
Qed.

Lemma writesTo_app file t1 t2 :
  writesTo file (t1 ++ t2) = writesTo file t1 + writesTo file t2.
Proof. unfold writesTo. by rewrite filter_app, length_app. Qed.

Lemma writesTo_none file t :
  Forall (fun e => startsWriteTo file e = false) t → writesTo file t = 0.
Proof.
  unfold writesTo. induction 1 as [|e t He _ IH]; [done|].
  rewrite filter_cons, decide_False; [done|]. by rewrite He.
Qed.

(** Where an event that a prefix cannot hold stands in a concatenation. *)
Lemma locate_after {A} (P : A → bool) (l1 l2 pre post : list A) (x : A) :
  l1 ++ l2 = pre ++ x :: post →
  Forall (fun y => P y = false) l1 → P x = true →
  ∃ pre', pre = l1 ++ pre' ∧ l2 = pre' ++ x :: post.
Proof.
  intros Heq Hall Hx.
  apply app_eq_inv in Heq as [(k & -> & Hk)|(k & -> & ->)]; [|eauto].
  destruct k as [|y k]; simpl in Hk.
  - exists []. split; [by rewrite !app_nil_r|done].
  - injection Hk as <- _. apply Forall_app in Hall as [_ Hall].
    apply Forall_cons in Hall as [Hy _]. congruence.
Qed.

Lemma locate_before {A} (P : A → bool) (l1 l2 pre post : list A) (x : A) :
  l1 ++ l2 = pre ++ x :: post →
  Forall (fun y => P y = false) l2 → P x = true →
  ∃ post', post = post' ++ l2 ∧ l1 = pre ++ x :: post'.
Proof.
  intros Heq Hall Hx.
  apply app_eq_inv in Heq as [(k & -> & Hk)|(k & -> & ->)].
  - destruct k as [|y k]; simpl in Hk.
    + subst l2. apply Forall_cons in Hall as [Hy _]. congruence.
    + injection Hk as <- ->. eauto.
  - apply Forall_app in Hall as [_ Hall].
    apply Forall_cons in Hall as [Hy _]. congruence.
Qed.

Lemma writesTo_cons file e t :
  writesTo file (e :: t) = (if startsWriteTo file e then 1 else 0) + writesTo file t.
Proof.
  unfold writesTo. rewrite filter_cons.
  destruct (startsWriteTo file e); [by rewrite decide_True|by rewrite decide_False].
Qed.

(** How often the registry write-backs start a write to each registry. *)
Lemma writesTo_registryWrites {M} (g : Gengine) (tree : ComponentTree M) order b1 b2 :
  reducersFilePath tree ≠ sagasFilePath tree →
  writesTo (reducersFilePath tree) (registryWrites g tree order b1 b2)
  = match b1 with Some _ => 1 | None => 0 end
  ∧ writesTo (sagasFilePath tree) (registryWrites g tree order b1 b2)
    = match b1, b2 with Some true, Some _ => 1 | _, _ => 0 end.
Proof.
  intros Hne. unfold registryWrites.
  assert (String.eqb (reducersFilePath tree) (sagasFilePath tree) = false) as H1
    by by apply String.eqb_neq.
  assert (String.eqb (sagasFilePath tree) (reducersFilePath tree) = false) as H2
    by by apply String.eqb_neq.
  destruct b1 as [[]|], b2 as [[]|]; rewrite ?writesTo_cons; simpl;
    rewrite ?String.eqb_refl, ?H1, ?H2; done.
Qed.

(** ** The index text in the defaults loop *)

Lemma indexInjections_app t1 t2 :
  indexInjections (t1 ++ t2) = indexInjections t1 ++ indexInjections t2.
Proof.
  induction t1 as [|e t1 IH]; [done|].
  destruct e as [c|c b|[]]; simpl; by rewrite ?IH.
Qed.

Lemma indexInjections_started {Vars} (tks : list (Task Vars)) :
  indexInjections ((fun tk => Started (pending tk)) <$> tks) = [].
Proof. induction tks as [|tk tks IH]; [done|]. by rewrite fmap_cons. Qed.

Lemma indexAfter_app g code l1 l2 :
  indexAfter g code (l1 ++ l2) = indexAfter g (indexAfter g code l1) l2.
Proof. unfold indexAfter. by rewrite fold_left_app. Qed.

Lemma writesCarryIndex_none g index code t :
  Forall (fun e => writeStart e = false) t → writesCarryIndex g index code t.
Proof.
  intros Hall pre file text post ->.
  apply Forall_app in Hall as [_ Hall]. by apply Forall_cons in Hall as [[=] _].
Qed.

Lemma writesCarryIndex_app g index code t1 t2 :
  writesCarryIndex g index code t1 →
  writesCarryIndex g index (indexAfter g code (indexInjections t1)) t2 →
  writesCarryIndex g index code (t1 ++ t2).
Proof.
  intros H1 H2 pre file text post Heq.
  apply app_eq_inv in Heq as [(k & -> & Hk)|(k & -> & ->)].
  - destruct k as [|e k]; simpl in Hk.
    + destruct (H2 [] file text post) as [-> ->]; [by rewrite <- Hk|].
      by rewrite app_nil_r.
    + injection Hk as <- ->. by apply (H1 pre file text k).
  - destruct (H2 k file text post eq_refl) as [-> ->].
    by rewrite indexInjections_app, indexAfter_app.
Qed.

Lemma writesCarryIndex_copied g index code src dst n p :
  writesCarryIndex g index code
    [Settled (CopyFile src dst) true;
     Invoked (InjectNamespaceComponent code n p);
     Started (WriteFile index (injectNamespaceComponent g code n p))].
Proof.
  intros pre file text post Heq.
  destruct pre as [|e0 [|e1 [|e2 [|e3 pre]]]]; simpl in Heq; try done.
  by injection Heq as <- <- <-.
Qed.

Lemma chainEnded_more destRoot item t pre post :
  chainEnded destRoot item t → chainEnded destRoot item (pre ++ t ++ post).
Proof. unfold chainEnded. rewrite !elem_of_app. tauto. Qed.

Lemma indexedFrom_none config g index code items t :
  Forall (fun e => copySettled e = false) t → indexedFrom config g index code items t.
Proof.
  intros Hall pre src dst post ->.
  apply Forall_app in Hall as [_ Hall]. by apply Forall_cons in Hall as [[=] _].
Qed.

Lemma indexedFrom_app config g index code items t1 t2 :
  indexedFrom config g index code items t1 →
  indexedFrom config g index (indexAfter g code (indexInjections t1)) items t2 →
  indexedFrom config g index code items (t1 ++ t2).
Proof.
  intros H1 H2 pre src dst post Heq.
  apply app_eq_inv in Heq as [(k & -> & Hk)|(k & -> & ->)].
  - destruct k as [|e k]; simpl in Hk.
    + rewrite app_nil_r in H2.
      destruct (H2 [] src dst post) as (item & post' & ? & ? & ? & ->); [by rewrite <- Hk|].
      exists item, post'. by split_and!.
    + injection Hk as <- ->.
      destruct (H1 pre src dst k eq_refl) as (item & post' & ? & ? & ? & ->).
      exists item, (post' ++ t2). by split_and!.
  - destruct (H2 k src dst post eq_refl) as (item & post' & ? & ? & ? & ->).
    exists item, post'. rewrite indexInjections_app, indexAfter_app. by split_and!.
Qed.

Lemma indexedFrom_copied config g index code items item :
  item ∈ items →
  indexedFrom config g index code items
    [Settled (CopyFile (path item)
                (Path.join [componentDefaultsDirPath config; name item])) true;
     Invoked (InjectNamespaceComponent code (name item)
                (Path.join ["modules"; name item]));
     Started (WriteFile index
                (injectNamespaceComponent g code (name item)
                   (Path.join ["modules"; name item])))].
Proof.
  intros Hin pre src dst post Heq.
  destruct pre as [|e0 [|e1 [|e2 [|e3 pre]]]]; simpl in Heq; try done.
  injection Heq as <- <- <-. exists item, []. by split_and!.
Qed.

(** The defaults loop, event by event. *)
Lemma defaultsLoop_spec {M} (config : Config) (g : Gengine) (w : World M)
    (tree : ComponentTree M) (items : list DirItem) (h evs : Trace) (out : Outcome unit) :
  copyDefaults config g w tree items h = (evs, out) →
  writesCarryIndex g (indexFilePath tree) (indexSourceCode tree) evs
  ∧ indexedFrom config g (indexFilePath tree) (indexSourceCode tree) items evs
  ∧ (∀ item, item ∈ items →
       Started (RemoveFile (Path.join [componentDefaultsDirPath config; name item])) ∈ evs
       ∧ chainEnded (componentDefaultsDirPath config) item evs)
  ∧ (out = Resolved tt →
     ∃ order, order ≡ₚ items ∧ indexInjections evs = indexArgs <$> order).
Proof.
  unfold copyDefaults, andThen, allOf, forEachAll.
  pose proof (spawn_tasks (defaultsTask config g tree)
                (defaultsStepTask config g tree ∘ RemovingDefaults) items
                (indexSourceCode tree) (fun _ _ => eq_refl)) as Hsp.
  assert ((spawn (defaultsTask config g tree) items (indexSourceCode tree)).1
          = indexSourceCode tree) as Hv0.
  { clear. generalize (indexSourceCode tree).
    induction items as [|item l IH]; intros c; [done|].
    simpl. specialize (IH c). by destruct (spawn _ l c). }
  rewrite list_fmap_compose in Hsp.
  destruct (spawn _ items _) as [v0 tks]. simpl in Hsp, Hv0. subst tks v0.
  set (started := (fun tk => Started (pending tk)) <$> _).
  set (index := indexFilePath tree). set (code0 := indexSourceCode tree).
  set (dest := componentDefaultsDirPath config).
  pose (I := fun p : Pool string =>
    ∃ rem inj early finished,
      tasks p = defaultsStepTask config g tree <$> rem
      ∧ vars p = indexAfter g code0 (indexInjections (emitted p))
      ∧ writesCarryIndex g index code0 (emitted p)
      ∧ indexedFrom config g index code0 items (emitted p)
      ∧ indexInjections (emitted p) = indexArgs <$> inj
      ∧ items ≡ₚ inj ++ (defaultsItem <$> filter (fun s => beforeInjection s = true) rem)
                  ++ early
      ∧ (rejection p = None → early = [])
      ∧ items ≡ₚ (defaultsItem <$> rem) ++ finished
      ∧ (∀ it, it ∈ finished → chainEnded dest it (emitted p))
      ∧ (∀ it text, WritingIndex it text ∈ rem →
           Settled (CopyFile (path it) (Path.join [dest; name it])) true ∈ emitted p)).
  destruct (promiseAll_invariant w I (h ++ started)
              (defaultsStepTask config g tree <$> (RemovingDefaults <$> items)) code0)
    as (p & (rem & inj & early & finished & Ht & Hv & Hwr & Hidx & Hinj & Hperm & Hearly
               & Hperm' & Hfin & _) & Hdone & Hrun).
  { exists (RemovingDefaults <$> items), [], [], []. simpl. split_and!; try done.
    - by apply writesCarryIndex_none.
    - by apply indexedFrom_none.
    - rewrite app_nil_r.
      assert (filter (fun s => beforeInjection s = true) (RemovingDefaults <$> items)
              = RemovingDefaults <$> items) as ->.
      { clear. induction items as [|item l IH]; [done|].
        rewrite fmap_cons, filter_cons, IH. done. }
      by rewrite defaultsItem_Removing.
    - by rewrite defaultsItem_Removing, app_nil_r.
    - intros it Hin. by apply elem_of_nil in Hin.
    - intros it text (x & [=] & _)%list_elem_of_fmap. }
  { clear. intros p (rem & inj & early & finished & Ht & Hv & Hwr & Hidx & Hinj & Hperm
                     & Hearly & Hperm' & Hfin & Hcopied) Hne.
    assert (∀ it chunk, it ∈ finished →
              chainEnded dest it (emitted p ++ chunk)) as Hold.
    { intros it chunk Hin. by apply (chainEnded_more _ _ _ []), Hfin. }
    assert (∀ it text chunk, WritingIndex it text ∈ rem →
              Settled (CopyFile (path it) (Path.join [dest; name it])) true
              ∈ emitted p ++ chunk) as Hcopied'.
    { intros it text chunk Hin. rewrite elem_of_app. left. by eapply Hcopied. }
    destruct (settleOne_mirror w (defaultsStepTask config g tree) (h ++ started) p rem Ht Hne)
      as (i & x & Hx & Hrem & [(e & _ & ->)|(_ & v' & evs & next & Hr & Hnext)]).
    - (* the pending call rejects *)
      exists (delete i rem), inj,
        (if beforeInjection x then defaultsItem x :: early else early),
        (defaultsItem x :: finished).
      cbn [tasks vars emitted rejection].
      rewrite indexInjections_app, app_nil_r.
      split_and!; try done.
      + apply writesCarryIndex_app; [done|]. apply writesCarryIndex_none.
        apply Forall_singleton. by destruct x.
      + apply indexedFrom_app; [done|]. apply indexedFrom_none.
        apply Forall_singleton. by destruct x.
      + rewrite Hperm. rewrite Hrem at 1. rewrite filter_cons.
        destruct (beforeInjection x) eqn:Hb.
        * rewrite decide_True by done. rewrite fmap_cons. perm_middle.
        * by rewrite decide_False by done.
      + by destruct (rejection p).
      + rewrite Hperm'. rewrite Hrem at 1. rewrite fmap_cons. perm_middle.
      + intros it [->|Hin]%elem_of_cons; [|by apply Hold].
        unfold chainEnded. destruct x as [it|it|it text]; cbn [defaultsItem].
        * left. rewrite elem_of_app, list_elem_of_singleton. by right.
        * right. left. rewrite elem_of_app, list_elem_of_singleton. by right.
        * right. right. apply (Hcopied' it text). by eapply list_elem_of_lookup_2.
      + intros it text Hin%list_elem_of_delete_inv. by eapply Hcopied'.
    - destruct x as [item|item|item text]; simpl in Hr; injection Hr as <- <- <-.
      + (* the old directory is removed: the copy starts *)
        destruct Hnext as [[[=] _]|(tk' & [= <-] & Hnext)].
        destruct (Hnext (CopyingDefaults item) eq_refl) as [Hins ->].
        exists (<[i := CopyingDefaults item]> rem), inj, early, finished.
        cbn [tasks vars emitted rejection].
        rewrite indexInjections_app, app_nil_r.
        split_and!; try done.
        * apply writesCarryIndex_app; [done|]. apply writesCarryIndex_none.
          by repeat constructor.
        * apply indexedFrom_app; [done|]. apply indexedFrom_none.
          by repeat constructor.
        * rewrite Hperm. rewrite Hins. rewrite Hrem at 1.
          rewrite !filter_cons, !decide_True by done. by rewrite !fmap_cons.
        * rewrite Hperm'. rewrite Hins. rewrite Hrem at 1. by rewrite !fmap_cons.
        * intros; by apply Hold.
        * intros it text. rewrite Hins.
          intros [[=]|Hin%list_elem_of_delete_inv]%elem_of_cons. by eapply Hcopied'.
      + (* the copy is done: inject and start writing the index *)
        destruct Hnext as [[[=] _]|(tk' & [= <-] & Hnext)].
        set (text := injectNamespaceComponent g (vars p) (name item)
                       (Path.join ["modules"; name item])) in *.
        destruct (Hnext (WritingIndex item text) eq_refl) as [Hins ->].
        exists (<[i := WritingIndex item text]> rem), (inj ++ [item]), early, finished.
        cbn [tasks vars emitted rejection].
        rewrite indexInjections_app. cbn [indexInjections].
        assert (item ∈ items) as Hitem.
        { rewrite Hperm'. rewrite Hrem at 1. rewrite fmap_cons, !elem_of_app, elem_of_cons.
          simpl. auto. }
        split_and!; try done.
        * rewrite indexAfter_app, <- Hv. done.
        * apply writesCarryIndex_app; [done|]. rewrite <- Hv.
          apply writesCarryIndex_copied.
        * apply indexedFrom_app; [done|]. rewrite <- Hv.
          by apply indexedFrom_copied.
        * rewrite Hinj, fmap_app. done.
        * rewrite Hperm. rewrite Hins. rewrite Hrem at 1.
          rewrite !filter_cons, decide_True, decide_False by done.
          rewrite fmap_cons. simpl. by rewrite <- app_assoc.
        * rewrite Hperm'. rewrite Hins. rewrite Hrem at 1. by rewrite !fmap_cons.
        * intros; by apply Hold.
        * intros it text'. rewrite Hins.
          intros [[= -> ->]|Hin%list_elem_of_delete_inv]%elem_of_cons.
          -- rewrite elem_of_app. right. apply elem_of_cons. by left.
          -- by eapply Hcopied'.
      + (* the index is written: the chain is fulfilled *)
        destruct Hnext as [[_ ->]|(tk' & [=] & _)].
        exists (delete i rem), inj, early, (item :: finished).
        cbn [tasks vars emitted rejection].
        rewrite indexInjections_app, app_nil_r.
        split_and!; try done.
        * apply writesCarryIndex_app; [done|]. apply writesCarryIndex_none.
          by repeat constructor.
        * apply indexedFrom_app; [done|]. apply indexedFrom_none.
          by repeat constructor.
        * rewrite Hperm. rewrite Hrem at 1.
          by rewrite filter_cons, decide_False by done.
        * rewrite Hperm'. rewrite Hrem at 1. rewrite fmap_cons. perm_middle.
        * intros it [->|Hin]%elem_of_cons; [|by apply Hold].
          right. right. apply (Hcopied' item text). by eapply list_elem_of_lookup_2.
        * intros it text' Hin%list_elem_of_delete_inv. by eapply Hcopied'. }
  rewrite Hrun. rewrite Hdone in Ht. symmetry in Ht. apply fmap_nil_inv in Ht. subst rem.
  rewrite filter_nil, fmap_nil, app_nil_l in Hperm. simpl in Hperm'.
  assert (writesCarryIndex g index code0 (started ++ emitted p)) as Hall.
  { apply writesCarryIndex_app.
    - apply writesCarryIndex_none. subst started.
      do 3 apply Forall_fmap. apply Forall_true. by intros x.
    - subst started. by rewrite indexInjections_started. }
  assert (indexedFrom config g index code0 items (started ++ emitted p)) as Hall'.
  { apply indexedFrom_app.
    - apply indexedFrom_none. subst started.
      do 3 apply Forall_fmap. apply Forall_true. by intros x.
    - subst started. by rewrite indexInjections_started. }
  assert (indexInjections (started ++ emitted p) = indexArgs <$> inj) as Hinj'.
  { subst started. by rewrite indexInjections_app, indexInjections_started. }
  assert (∀ item, item ∈ items →
            Started (RemoveFile (Path.join [dest; name item])) ∈ started ++ emitted p
            ∧ chainEnded dest item (started ++ emitted p)) as Hend.
  { intros item Hitem. split.
    - rewrite elem_of_app. left. subst started.
      apply list_elem_of_fmap. exists (defaultsStepTask config g tree (RemovingDefaults item)).
      split; [done|]. apply list_elem_of_fmap. exists (RemovingDefaults item).
      split; [done|]. apply list_elem_of_fmap. eauto.
    - pose proof (chainEnded_more dest item (emitted p) started []) as Hm.
      rewrite app_nil_r in Hm. apply Hm, Hfin. by rewrite <- Hperm'. }
  destruct (rejection p) as [e|] eqn:Hr.
  - intros [= <- <-]. by split_and!.
  - intros [= <- <-]. rewrite app_nil_r. split_and!; try done. intros _.
    exists inj. rewrite (Hearly eq_refl), app_nil_r in Hperm. done.
Qed.

(** * The claims of the specification *)

(** What [preInstall] reports.  When the manifest, the component tree and
    the listing of the bundle's [modules/] directory are read and the
    listing is not empty, [preInstall] resolves with the bundle path and
    with the names of the listed directories for which
    [componentTree.modules[name]] answers, in listing order: the keys of
    the index's [modules] and the names that every object inherits.  For
    a name that no object inherits, that is the collision detection of
    the specification: the name is reported exactly when it is both a
    listed subdirectory and a key of the index. *)
Lemma preInstall_collisions {M} (w : World M) (d : string) (u : option string)
    (h : Trace) (m : Manifest) (tree : ComponentTree M) (f : FoundFiles) :
  let file := Path.join [d; "structor-namespaces.json"] in
  let src := Path.join [d; "modules"] in
  let reads := [Started (ReadJson file); Settled (ReadJson file) true;
                Started GetComponentTree; Settled GetComponentTree true;
                Started (ReadDirectoryFlat src); Settled (ReadDirectoryFlat src) true] in
  d ≠ "" →
  readJson w (h ++ [Started (ReadJson file)]) file = Ok m →
  getComponentTree w (h ++ [Started (ReadJson file); Settled (ReadJson file) true;
                            Started GetComponentTree]) = Ok tree →
  readDirectoryFlat w (h ++ [Started (ReadJson file); Settled (ReadJson file) true;
                             Started GetComponentTree; Settled GetComponentTree true;
                             Started (ReadDirectoryFlat src)]) src = Ok f →
  noDirs f = false →
  ∃ r, preInstall w {| dirPath := Some d; url := u |} h = (reads, Resolved r)
       ∧ namespacesSrcDirPath r = d
       ∧ existingNamespaceDirs r
         = filter (fun n => hasModule tree n = true) (name <$> default [] (dirs f))
       ∧ (∀ n, n ∈ existingNamespaceDirs r ↔
                 n ∈ name <$> default [] (dirs f) ∧ (inIndex tree n ∨ inherited tree n))
       ∧ (∀ n, n ∉ objectPrototypeNames →
            (n ∈ existingNamespaceDirs r ↔
               n ∈ name <$> default [] (dirs f) ∧ inIndex tree n)).
Proof.
  intros file src reads Hd Hm Ht Hf Hn.
  assert (truthy (Some d) = true) as Htr.
  { unfold truthy. by destruct (String.eqb_spec d ""). }
  eexists. split.
  { unfold preInstall. cbn [dirPath]. rewrite Htr.
    unfold preInstallFrom, andThen, await. fold file src.
    rewrite Hm. rewrite <- !app_assoc. cbn [app]. rewrite Ht.
    erewrite listDirs_some; [reflexivity| |done].
    rewrite <- !app_assoc. exact Hf. }
  cbn [namespacesSrcDirPath existingNamespaceDirs]. rewrite collisions_filter.
  assert (∀ n, n ∈ filter (fun n => hasModule tree n = true) (name <$> default [] (dirs f))
               ↔ n ∈ name <$> default [] (dirs f) ∧ (inIndex tree n ∨ inherited tree n))
    as Hiff.
  { intros n. rewrite list_elem_of_filter, hasModule_inIndex. tauto. }
  split_and!; try done.
  intros n Hno. rewrite Hiff. unfold inherited. tauto.
Qed.

Lemma preInstall_collisions_witness :
  ∃ r, preInstall
         (Sample.scripted (Ok Sample.two) (Ok tt) (Ok (Sample.tree {["a" := tt]}))
            (Sample.listing ["a"; "b"]) Sample.everything 0)
         Sample.bundle []
       = ([Started (ReadJson "/b/structor-namespaces.json");
           Settled (ReadJson "/b/structor-namespaces.json") true;
           Started GetComponentTree; Settled GetComponentTree true;
           Started (ReadDirectoryFlat "/b/modules");
           Settled (ReadDirectoryFlat "/b/modules") true], Resolved r)
       ∧ namespacesSrcDirPath r = "/b"
       ∧ existingNamespaceDirs r
         = filter (fun n => hasModule (Sample.tree {["a" := tt]}) n = true) ["a"; "b"]
       ∧ (∀ n, n ∈ existingNamespaceDirs r ↔
                 n ∈ ["a"; "b"]
                 ∧ (inIndex (Sample.tree {["a" := tt]}) n
                    ∨ inherited (Sample.tree {["a" := tt]}) n))
       ∧ (∀ n, n ∉ objectPrototypeNames →
            (n ∈ existingNamespaceDirs r ↔
               n ∈ ["a"; "b"] ∧ inIndex (Sample.tree {["a" := tt]}) n)).
Proof.
  apply (preInstall_collisions
           (Sample.scripted (Ok Sample.two) (Ok tt) (Ok (Sample.tree {["a" := tt]}))
              (Sample.listing ["a"; "b"]) Sample.everything 0)
           "/b" None [] Sample.two (Sample.tree {["a" := tt]})
           {| dirs := Some [Sample.item "/b/modules" "a"; Sample.item "/b/modules" "b"] |});
    [discriminate|reflexivity..].
Defined.

(** C1, on the failing input.  The index has an empty [modules] object;
    the bundle's [modules/] directory lists [constructor] and [auth].  No
    name is a key of the index, and yet [preInstall] reports
    [constructor] as an existing namespace: line 297 reads
    [componentTree.modules["constructor"]], which answers with the
    function that every object inherits. *)
Theorem inherited_name_reported :
  let tree := Sample.tree ∅ in
  let w := Sample.scripted (Ok Sample.two) (Ok tt) (Ok tree)
             (Sample.listing ["constructor"; "auth"]) Sample.everything 0 in
  (∀ n, ¬ inIndex tree n)
  ∧ "constructor" ∈ name <$> [Sample.item "/b/modules" "constructor";
                               Sample.item "/b/modules" "auth"]
  ∧ (preInstall w Sample.bundle []).2
    = Resolved {| namespacesSrcDirPath := "/b";
                  existingNamespaceDirs := ["constructor"] |}.
Proof.
  intros tree w. split_and!.
  - intros n (ms & [= <-] & Hn). rewrite lookup_empty in Hn. by destruct Hn.
  - apply list_elem_of_here.
  - vm_compute. reflexivity.
Qed.

Example preInstall_sample :
  (preInstall
     (Sample.scripted (Ok Sample.two) (Ok tt) (Ok (Sample.tree {["a" := tt]}))
        (Sample.listing ["a"; "b"]) Sample.everything 0)
     Sample.bundle []).2
  = Resolved {| namespacesSrcDirPath := "/b"; existingNamespaceDirs := ["a"] |}.
Proof. vm_compute. reflexivity. Qed.

(** C5.  Dry-run purity.  Every event of a [preInstall] call is one of its
    three reads (manifest, component tree, directory listing): no
    mutating call, hence no file-system write, is ever started.  And if
    what the reads answer changes only through mutations, a second call
    made right after the first, with nothing but non-mutating events in
    between, adds the same events and has the same outcome. *)
Theorem preInstall_dry_run {M} (w : World M) (options : Options) (h : Trace) :
  Forall (fun e => readEvent e = true) (preInstall w options h).1
  ∧ filter (fun e => mutation e = true) (preInstall w options h).1 = []
  ∧ (readsFollowMutations w →
     ∀ gap, filter (fun e => mutation e = true) gap = [] →
       preInstall w options (h ++ (preInstall w options h).1 ++ gap)
       = preInstall w options h).
Proof.
  pose proof (preInstall_reads_only w options h) as Hreads.
  pose proof (reads_no_mutation _ Hreads) as Hnone.
  split_and!; try done.
  intros Hw gap Hgap. apply preInstall_stable; [done|].
  by rewrite !filter_app, Hnone, Hgap, app_nil_r.
Qed.

Lemma preInstall_dry_run_witness :
  let w := Sample.scripted (Ok Sample.two) (Ok tt) (Ok (Sample.tree {["a" := tt]}))
             (Sample.listing ["a"; "b"]) Sample.everything 0 in
  preInstall w Sample.bundle ([] ++ (preInstall w Sample.bundle []).1 ++ [])
  = preInstall w Sample.bundle [].
Proof.
  intros w.
  apply (proj2 (proj2 (preInstall_dry_run w Sample.bundle []))); [|reflexivity].
  intros h h' _. repeat split; reflexivity.
Defined.

(** C8.  The manifest is not consulted.  For two worlds whose manifests
    parse (or fail) alike but may hold anything, and which agree on the
    component tree and on every directory listing, [preInstall] adds the
    same events and ends the same way: same [namespacesSrcDirPath], same
    [existingNamespaceDirs]. *)
Theorem preInstall_manifest_blind {M} (w1 w2 : World M) (options : Options) (h : Trace) :
  sameButManifest w1 w2 → preInstall w1 options h = preInstall w2 options h.
Proof.
  intros (Hj & Ht & Hd). unfold preInstall.
  destruct (truthy (dirPath options)); [|done].
  destruct (dirPath options) as [d|]; [|done].
  unfold preInstallFrom, andThen, await, listDirs, andThen, await.
  specialize (Hj (h ++ [Started (ReadJson (Path.join [d; "structor-namespaces.json"]))])
                (Path.join [d; "structor-namespaces.json"])).
  destruct (readJson w1 _ _) as [m1|e1], (readJson w2 _ _) as [m2|e2];
    simpl in Hj; try done; [|by simplify_eq].
  rewrite Ht. destruct (getComponentTree w2 _) as [tree|e]; [|done].
  rewrite Hd. destruct (readDirectoryFlat w2 _ _) as [f|e]; [|done].
  by destruct (dirs f) as [[|??]|].
Qed.

Lemma preInstall_manifest_blind_witness :
  preInstall
    (Sample.scripted (Ok Sample.two) (Ok tt) (Ok (Sample.tree {["a" := tt]}))
       (Sample.listing ["a"; "b"]) Sample.everything 0)
    Sample.bundle []
  = preInstall
      (Sample.scripted (Ok Sample.auth) (Ok tt) (Ok (Sample.tree {["a" := tt]}))
         (Sample.listing ["a"; "b"]) Sample.everything 0)
      Sample.bundle [].
Proof.
  apply preInstall_manifest_blind. repeat split; reflexivity.
Defined.

(** C4.  A failed dependency installation aborts the run before any file
    is touched.  When the manifest is read and [installDependencies]
    rejects, [installFromLocalDir] rejects with that cause having started
    nothing but these two calls: no [writeFile], no [removeFile], no
    [copyFile]. *)
Theorem dependency_failure_aborts {M} (config : Config) (g : Gengine) (w : World M)
    (d : string) (u : option string) (h : Trace) (m : Manifest) (cause : string) :
  let file := namespacesFilePath d in
  let calls := [Started (ReadJson file); Settled (ReadJson file) true;
                Started (InstallDependencies (dependencies m));
                Settled (InstallDependencies (dependencies m)) false] in
  readJson w (h ++ [Started (ReadJson file)]) file = Ok m →
  installDependencies w
    (h ++ [Started (ReadJson file); Settled (ReadJson file) true;
           Started (InstallDependencies (dependencies m))]) (dependencies m)
  = Err cause →
  installFromLocalDir config g w {| dirPath := Some d; url := u |} h
  = (calls, Rejected (Cause cause))
  ∧ Forall (fun e => fileMutation e = false) calls.
Proof.
  intros file calls Hm Hdeps. split; [|by repeat constructor].
  unfold installFromLocalDir. cbn [dirPath].
  apply installChain_rejected, defaultsStaged_rejected.
  unfold modulesStaged. erewrite andThen_rejected_l; [reflexivity|].
  unfold registriesWritten. erewrite andThen_rejected_l; [reflexivity|].
  unfold indexRead, andThen, await. fold file. rewrite Hm.
  rewrite <- !app_assoc. cbn [app]. by rewrite Hdeps.
Qed.

Lemma dependency_failure_aborts_witness :
  installFromLocalDir Sample.config Sample.tagging
    (Sample.scripted (Ok Sample.auth) (Err "npm") (Ok (Sample.tree ∅))
       (Sample.listing ["auth"]) Sample.everything 0)
    Sample.bundle []
  = ([Started (ReadJson "/b/structor-namespaces.json");
      Settled (ReadJson "/b/structor-namespaces.json") true;
      Started (InstallDependencies []); Settled (InstallDependencies []) false],
     Rejected (Cause "npm"))
  ∧ Forall (fun e => fileMutation e = false)
      [Started (ReadJson "/b/structor-namespaces.json");
       Settled (ReadJson "/b/structor-namespaces.json") true;
       Started (InstallDependencies []); Settled (InstallDependencies []) false].
Proof.
  apply (dependency_failure_aborts Sample.config Sample.tagging
           (Sample.scripted (Ok Sample.auth) (Err "npm") (Ok (Sample.tree ∅))
              (Sample.listing ["auth"]) Sample.everything 0)
           "/b" None [] Sample.auth "npm"); reflexivity.
Defined.




Example empty_defaults_keeps_modules :
  let w := Sample.scripted (Ok Sample.auth) (Ok tt) (Ok (Sample.tree ∅))
             (Sample.listingBut "/b/defaults" ["auth"]) Sample.everything 0 in
  (installFromLocalDir Sample.config Sample.tagging w Sample.bundle []).2
  = Rejected (Error "Defaults directory is empty")
  ∧ Settled (CopyFile "/b/modules/auth" "/app/modules/auth") true
    ∈ (installFromLocalDir Sample.config Sample.tagging w Sample.bundle []).1.
Proof.
  split; [vm_compute; reflexivity|].
  vm_compute. repeat first [apply list_elem_of_here | apply list_elem_of_further].
Qed.

(** C7.  In the defaults group, index updates are interleaved with the
    copies.  When the chain reaches the defaults group and lists the
    directories [ds], the run continues with the events of the defaults
    loop over [ds].  In those events the removal of the destination of
    every listed directory is started, and the chain of every directory
    runs to its end: its removal fails, or its copy fails, or its copy is
    fulfilled.  Every fulfilled copy is the copy of a listed directory to
    the component-defaults destination and is followed at once by the
    call of [injectNamespaceComponent] on the index text as the earlier
    injections of the loop left it, with [name item] and
    [modules/<name item>], and by the start of the write of the injected
    text to the index file.  When the loop resolves, every listed
    directory has its fulfilled copy, and there is exactly one injection
    per directory. *)
Theorem index_follows_each_copy {M} (config : Config) (g : Gengine) (w : World M)
    (d : string) (u : option string) (h eM : Trace) (tree : ComponentTree M)
    (ds : list DirItem) (evs : Trace) (out : Outcome unit) :
  modulesStaged config g w d h = (eM, Resolved tree) →
  listed w (h ++ eM) (defaultsSrcDirPath d) ds →
  ds ≠ [] →
  installFromLocalDir config g w {| dirPath := Some d; url := u |} h = (evs, out) →
  let loop := copyDefaults config g w tree ds
                ((h ++ eM) ++ listingEvents (defaultsSrcDirPath d)) in
  (∃ rest, evs = eM ++ listingEvents (defaultsSrcDirPath d) ++ loop.1 ++ rest)
  ∧ (∀ item, item ∈ ds →
       Started (RemoveFile (Path.join [componentDefaultsDirPath config; name item]))
       ∈ loop.1
       ∧ chainEnded (componentDefaultsDirPath config) item loop.1)
  ∧ indexedFrom config g (indexFilePath tree) (indexSourceCode tree) ds loop.1
  ∧ (loop.2 = Resolved tt →
     groupCopied (componentDefaultsDirPath config) ds loop.1
     ∧ ∃ order, order ≡ₚ ds ∧ indexInjections loop.1 = indexArgs <$> order).
Proof.
  intros HM (f & Hf & Hds) Hne Hrun loop. split.
  - unfold installFromLocalDir in Hrun. cbn [dirPath] in Hrun.
    unfold installChain, defaultsStaged in Hrun.
    assert (noDirs f = false) as Hn.
    { unfold noDirs. rewrite Hds. by destruct ds. }
    assert (defaultsStaged config g w d h
            = (eM ++ listingEvents (defaultsSrcDirPath d) ++ loop.1, loop.2)) as HD.
    { unfold defaultsStaged. rewrite (andThen_step _ _ _ _ _ HM). cbn [fst snd].
      rewrite (andThen_step _ _ _ _ _ (listDirs_some _ _ _ _ _ Hf Hn)).
      by rewrite Hds. }
    fold (defaultsStaged config g w d) in Hrun.
    apply andThen_cases in Hrun
      as [(e1 & [] & e2 & H1 & _ & ->)|[(e & H1 & _)|(e & H1 & _)]];
      rewrite HD in H1; injection H1 as <- _.
    + exists e2. by rewrite <- !app_assoc.
    + exists []. by rewrite !app_nil_r.
    + exists []. by rewrite !app_nil_r.
  - subst loop.
    destruct (copyDefaults config g w tree ds _) as [eD oD] eqn:HD. cbn [fst snd].
    destruct (defaultsLoop_spec _ _ _ _ _ _ _ _ HD) as (_ & Hidx & Hend & Hres).
    destruct (copyDefaults_spec _ _ _ _ _ _ _ _ HD) as (_ & _ & Hcp & _).
    split_and!; try done. intros Ho. split; [by apply Hcp|by apply Hres].
Qed.

Lemma index_follows_each_copy_witness :
  let w := Sample.scripted (Ok Sample.two) (Ok tt) (Ok (Sample.tree ∅))
             (Sample.listing ["a"; "b"]) Sample.everything 0 in
  let eM := (modulesStaged Sample.config Sample.tagging w "/b" []).1 in
  let ds := [Sample.item "/b/defaults" "a"; Sample.item "/b/defaults" "b"] in
  let loop := copyDefaults Sample.config Sample.tagging w (Sample.tree ∅) ds
                (([] ++ eM) ++ listingEvents "/b/defaults") in
  loop.2 = Resolved tt
  ∧ (∃ rest, (installFromLocalDir Sample.config Sample.tagging w Sample.bundle []).1
             = eM ++ listingEvents "/b/defaults" ++ loop.1 ++ rest)
  ∧ (∀ item, item ∈ ds →
       Started (RemoveFile (Path.join ["/p/defaults"; name item])) ∈ loop.1
       ∧ chainEnded "/p/defaults" item loop.1)
  ∧ indexedFrom Sample.config Sample.tagging "/app/index.js" "I" ds loop.1
  ∧ (loop.2 = Resolved tt →
     groupCopied "/p/defaults" ds loop.1
     ∧ ∃ order, order ≡ₚ ds ∧ indexInjections loop.1 = indexArgs <$> order).
Proof.
  intros w eM ds loop. split; [reflexivity|].
  apply (index_follows_each_copy Sample.config Sample.tagging w "/b" None [] eM
           (Sample.tree ∅) ds
           (installFromLocalDir Sample.config Sample.tagging w Sample.bundle []).1
           (installFromLocalDir Sample.config Sample.tagging w Sample.bundle []).2).
  - vm_compute. reflexivity.
  - exists {| dirs := Some ds |}. split; vm_compute; reflexivity.
  - discriminate.
  - vm_compute. reflexivity.
Defined.

Example defaults_interleaved :
  let w := Sample.scripted (Ok Sample.two) (Ok tt) (Ok (Sample.tree ∅))
             (Sample.listing ["a"; "b"]) Sample.everything 0 in
  (copyDefaults Sample.config Sample.tagging w (Sample.tree ∅)
     [Sample.item "/b/defaults" "a"; Sample.item "/b/defaults" "b"] []).1
  = [Started (RemoveFile "/p/defaults/a"); Started (RemoveFile "/p/defaults/b");
     Settled (RemoveFile "/p/defaults/a") true;
     Started (CopyFile "/b/defaults/a" "/p/defaults/a");
     Settled (CopyFile "/b/defaults/a" "/p/defaults/a") true;
     Invoked (InjectNamespaceComponent "I" "a" "modules/a");
     Started (WriteFile "/app/index.js" "I[a@modules/a]");
     Settled (WriteFile "/app/index.js" "I[a@modules/a]") true;
     Settled (RemoveFile "/p/defaults/b") true;
     Started (CopyFile "/b/defaults/b" "/p/defaults/b");
     Settled (CopyFile "/b/defaults/b" "/p/defaults/b") true;
     Invoked (InjectNamespaceComponent "I[a@modules/a]" "b" "modules/b");
     Started (WriteFile "/app/index.js" "I[a@modules/a][b@modules/b]");
     Settled (WriteFile "/app/index.js" "I[a@modules/a][b@modules/b]") true].
Proof. vm_compute. reflexivity. Qed.

(** C10.  An empty [modules/] directory is noticed only after both
    registries have been rewritten.  In a run that has read the index and
    rejects with "Modules directory is empty", every manifest entry has
    been injected, in some order, and both registry files have been
    written, fulfilled, with the texts accumulated over that order, before
    the listing that raises the error. *)
Theorem empty_modules_after_registries {M} (config : Config) (g : Gengine)
    (w : World M) (d : string) (u : option string) (h eI : Trace) (m : Manifest)
    (tree : ComponentTree M) (evs : Trace) :
  indexRead w d h = (eI, Resolved (m, tree)) →
  installFromLocalDir config g w {| dirPath := Some d; url := u |} h
  = (evs, Rejected (Error "Modules directory is empty")) →
  ∃ order loop,
    order ≡ₚ namespaces m
    ∧ reducerInjections loop = reducerArgs <$> order
    ∧ sagaInjections loop = sagaArgs <$> order
    ∧ Forall (fun e => rewriteEvent e = true) loop
    ∧ let w1 := WriteFile (reducersFilePath tree)
                  (reducersAfter g (reducersSourceCode tree) order) in
      let w2 := WriteFile (sagasFilePath tree)
                  (sagasAfter g (sagasSourceCode tree) order) in
      evs = eI ++ loop
            ++ [Started w1; Settled w1 true; Started w2; Settled w2 true]
            ++ listingEvents (modulesSrcDirPath d).
Proof.
  intros HI Hrun. unfold installFromLocalDir in Hrun. cbn [dirPath] in Hrun.
  destruct (install_run_shape _ _ _ _ _ _ _ _ _ _ HI Hrun)
    as (done & rest & loop & rw & tail & -> & Hperm & Hri & Hsi & Hev & _ & _ & Hcase).
  destruct Hcase
    as [(_ & _ & _ & c & [=])
       |(-> & _ & [(_ & _ & c & [=])|[(_ & _ & c & [=])|(-> & Htail & _)]])].
  rewrite (Htail eq_refl). rewrite app_nil_r in Hperm.
  exists done, loop. by split_and!.
Qed.

Lemma empty_modules_after_registries_witness :
  let w := Sample.scripted (Ok Sample.two) (Ok tt) (Ok (Sample.tree ∅))
             (Sample.listingBut "/b/modules" ["a"; "b"]) Sample.everything 0 in
  ∃ order loop,
    order ≡ₚ namespaces Sample.two
    ∧ reducerInjections loop = reducerArgs <$> order
    ∧ sagaInjections loop = sagaArgs <$> order
    ∧ Forall (fun e => rewriteEvent e = true) loop
    ∧ let w1 := WriteFile "/app/reducers.js"
                  (reducersAfter Sample.tagging "R" order) in
      let w2 := WriteFile "/app/sagas.js"
                  (sagasAfter Sample.tagging "S" order) in
      (installFromLocalDir Sample.config Sample.tagging w Sample.bundle []).1
      = (indexRead w "/b" []).1 ++ loop
        ++ [Started w1; Settled w1 true; Started w2; Settled w2 true]
        ++ listingEvents "/b/modules".
Proof.
  intros w.
  apply (empty_modules_after_registries Sample.config Sample.tagging w "/b" None []
           (indexRead w "/b" []).1 Sample.two (Sample.tree ∅)
           (installFromLocalDir Sample.config Sample.tagging w Sample.bundle []).1);
    vm_compute; reflexivity.
Defined.

Example empty_modules_sample :
  let w := Sample.scripted (Ok Sample.two) (Ok tt) (Ok (Sample.tree ∅))
             (Sample.listingBut "/b/modules" ["a"; "b"]) Sample.everything 0 in
  installFromLocalDir Sample.config Sample.tagging w Sample.bundle []
  = ((indexRead w "/b" []).1
     ++ [Started (IsExisting "/b/modules/a/reducer.js");
         Started (IsExisting "/b/modules/b/reducer.js");
         Settled (IsExisting "/b/modules/a/reducer.js") true;
         Started (IsExisting "/b/modules/b/sagas.js");
         Settled (IsExisting "/b/modules/b/sagas.js") true;
         Invoked (InjectReducer "R" "ra" "raReducer" "modules/a/reducer.js");
         Invoked (InjectSaga "S" "aSagas" "modules/a/sagas.js");
         Settled (IsExisting "/b/modules/b/reducer.js") true;
         Started (IsExisting "/b/modules/b/sagas.js");
         Settled (IsExisting "/b/modules/b/sagas.js") true;
         Invoked (InjectReducer "R[ra:raReducer@modules/a/reducer.js]" "rb"
                    "rbReducer" "modules/b/reducer.js");
         Invoked (InjectSaga "S[aSagas@modules/a/sagas.js]" "bSagas"
                    "modules/b/sagas.js");
         Started (WriteFile "/app/reducers.js"
           "R[ra:raReducer@modules/a/reducer.js][rb:rbReducer@modules/b/reducer.js]");
         Settled (WriteFile "/app/reducers.js"
           "R[ra:raReducer@modules/a/reducer.js][rb:rbReducer@modules/b/reducer.js]")
           true;
         Started (WriteFile "/app/sagas.js"
           "S[aSagas@modules/a/sagas.js][bSagas@modules/b/sagas.js]");
         Settled (WriteFile "/app/sagas.js"
           "S[aSagas@modules/a/sagas.js][bSagas@modules/b/sagas.js]") true;
         Started (ReadDirectoryFlat "/b/modules");
         Settled (ReadDirectoryFlat "/b/modules") true],
     Rejected (Error "Modules directory is empty")).
Proof. vm_compute. reflexivity. Qed.

(** C2.  Injection correctness.  In a run that has read the manifest and
    the index and in which no existence check fails, the reducer injector
    is called exactly once per manifest entry [prop ↦ value], with
    [reducerPropName value], [reducerPropName value ++ "Reducer"] and
    [modules/<prop>/reducer.js], and the saga injector exactly once per
    entry, with [prop ++ "Sagas"] and [modules/<prop>/sagas.js] and no
    symbol name; the write of the reducer registry is started with the
    text obtained by applying the injector along that order, and so is,
    in a run that resolves, the write of the saga registry.  For the
    manifest whose only namespace is "auth" with [reducerPropName] "auth",
    that is one call with "auth", "authReducer", "modules/auth/reducer.js",
    one call with "authSagas", "modules/auth/sagas.js", and the texts
    written are the original texts with that single injection applied. *)
Theorem injection_per_namespace {M} (config : Config) (g : Gengine) (w : World M)
    (d : string) (u : option string) (h eI : Trace) (m : Manifest)
    (tree : ComponentTree M) (evs : Trace) (out : Outcome unit) :
  indexRead w d h = (eI, Resolved (m, tree)) →
  installFromLocalDir config g w {| dirPath := Some d; url := u |} h = (evs, out) →
  Forall (fun e => failedCheck e = false) evs →
  (∃ order,
     order ≡ₚ namespaces m
     ∧ reducerInjections evs = reducerArgs <$> order
     ∧ sagaInjections evs = sagaArgs <$> order
     ∧ Started (WriteFile (reducersFilePath tree)
                  (reducersAfter g (reducersSourceCode tree) order)) ∈ evs
     ∧ (out = Resolved tt →
        Started (WriteFile (sagasFilePath tree)
                   (sagasAfter g (sagasSourceCode tree) order)) ∈ evs))
  ∧ (namespaces m = [("auth", {| reducerPropName := "auth" |})] →
     reducerInjections evs = [("auth", "authReducer", "modules/auth/reducer.js")]
     ∧ sagaInjections evs = [("authSagas", "modules/auth/sagas.js")]
     ∧ Started (WriteFile (reducersFilePath tree)
                  (injectReducer g (reducersSourceCode tree)
                     "auth" "authReducer" "modules/auth/reducer.js")) ∈ evs
     ∧ (out = Resolved tt →
        Started (WriteFile (sagasFilePath tree)
                   (injectSaga g (sagasSourceCode tree)
                      "authSagas" "modules/auth/sagas.js")) ∈ evs)).
Proof.
  intros HI Hrun Hok. unfold installFromLocalDir in Hrun. cbn [dirPath] in Hrun.
  destruct (install_run_shape _ _ _ _ _ _ _ _ _ _ HI Hrun)
    as (done & rest & loop & rw & tail & -> & Hperm & Hri & Hsi & Hev & _ & Hst & Hcase).
  destruct (indexRead_spec _ _ _ _ _ HI) as [HeI _].
  apply Forall_app in Hok as [_ Hok]. apply Forall_app in Hok as [Hloop _].
  destruct Hcase as [(Hex & _)|(-> & _ & Hrw)].
  { apply Exists_exists in Hex as (e & Hin & He).
    rewrite Forall_forall in Hloop. specialize (Hloop e Hin). congruence. }
  rewrite app_nil_r in Hperm.
  assert (reducerInjections eI = [] ∧ sagaInjections eI = []) as [HrI HsI].
  { apply no_registryInjection. eapply Forall_impl; [exact HeI|].
    intros e He. by apply indexEvent_other. }
  assert (reducerInjections tail = [] ∧ sagaInjections tail = []) as [HrT HsT].
  { apply no_registryInjection. eapply Forall_impl; [exact Hst|].
    intros e He. by destruct (stagingEvent_other _ _ He). }
  set (w1 := WriteFile (reducersFilePath tree)
               (reducersAfter g (reducersSourceCode tree) done)) in *.
  set (w2 := WriteFile (sagasFilePath tree)
               (sagasAfter g (sagasSourceCode tree) done)) in *.
  assert (reducerInjections rw = [] ∧ sagaInjections rw = []
          ∧ Started w1 ∈ rw
          ∧ (out = Resolved tt → Started w2 ∈ rw)) as (HrW & HsW & Hw1 & Hw2).
  { destruct Hrw as [(-> & _ & c & ->)|[(-> & _ & c & ->)|(-> & _)]];
      unfold registryWrites; fold w1 w2; split_and!; try done;
      rewrite ?elem_of_cons; try tauto. }
  assert (reducerInjections (eI ++ loop ++ rw ++ tail) = reducerArgs <$> done
          ∧ sagaInjections (eI ++ loop ++ rw ++ tail) = sagaArgs <$> done
          ∧ Started w1 ∈ eI ++ loop ++ rw ++ tail
          ∧ (out = Resolved tt → Started w2 ∈ eI ++ loop ++ rw ++ tail))
    as (Hr & Hs & Hwr & Hws).
  { rewrite !reducerInjections_app, !sagaInjections_app.
    rewrite HrI, HsI, HrT, HsT, HrW, HsW, Hri, Hsi, !app_nil_r. simpl.
    rewrite !elem_of_app. split_and!; try done; auto. }
  split.
  - exists done. by split_and!.
  - intros Hns. rewrite Hns in Hperm.
    apply Permutation_singleton_l in Hperm. subst done.
    by split_and!.
Qed.

Lemma injection_per_namespace_witness :
  let w := Sample.scripted (Ok Sample.auth) (Ok tt) (Ok (Sample.tree ∅))
             (Sample.listing ["auth"]) Sample.everything 0 in
  let evs := (installFromLocalDir Sample.config Sample.tagging w Sample.bundle []).1 in
  let out := (installFromLocalDir Sample.config Sample.tagging w Sample.bundle []).2 in
  (∃ order,
     order ≡ₚ namespaces Sample.auth
     ∧ reducerInjections evs = reducerArgs <$> order
     ∧ sagaInjections evs = sagaArgs <$> order
     ∧ Started (WriteFile "/app/reducers.js"
                  (reducersAfter Sample.tagging "R" order)) ∈ evs
     ∧ (out = Resolved tt →
        Started (WriteFile "/app/sagas.js"
                   (sagasAfter Sample.tagging "S" order)) ∈ evs))
  ∧ (namespaces Sample.auth = [("auth", {| reducerPropName := "auth" |})] →
     reducerInjections evs = [("auth", "authReducer", "modules/auth/reducer.js")]
     ∧ sagaInjections evs = [("authSagas", "modules/auth/sagas.js")]
     ∧ Started (WriteFile "/app/reducers.js"
                  "R[auth:authReducer@modules/auth/reducer.js]") ∈ evs
     ∧ (out = Resolved tt →
        Started (WriteFile "/app/sagas.js" "S[authSagas@modules/auth/sagas.js]")
        ∈ evs)).
Proof.
  intros w evs out.
  apply (injection_per_namespace Sample.config Sample.tagging w "/b" None []
           (indexRead w "/b" []).1 Sample.auth (Sample.tree ∅) evs out).
  - vm_compute. reflexivity.
  - vm_compute. reflexivity.
  - vm_compute. repeat constructor.
Defined.

(** The claim C6 as stated fails for the component index: with two
    defaults directories the index file is the target of two writes, and
    the first is started before the second directory is injected.  And a
    run in which an existence check fails writes no registry at all. *)
Lemma index_written_per_directory :
  let w := Sample.scripted (Ok Sample.two) (Ok tt) (Ok (Sample.tree ∅))
             (Sample.listing ["a"; "b"]) Sample.everything 0 in
  let evs := (installFromLocalDir Sample.config Sample.tagging w Sample.bundle []).1 in
  let w' := Sample.scripted (Ok Sample.two) (Ok tt) (Ok (Sample.tree ∅))
              (Sample.listing ["a"; "b"])
              (Sample.allBut "/b/modules/a/reducer.js") 0 in
  let evs' := (installFromLocalDir Sample.config Sample.tagging w' Sample.bundle []).1 in
  (installFromLocalDir Sample.config Sample.tagging w Sample.bundle []).2 = Resolved tt
  ∧ writesTo "/app/index.js" evs = 2
  ∧ ¬ writesTo "/app/index.js" evs = 1
  ∧ (∃ pre post,
       evs = pre ++ Started (WriteFile "/app/index.js" "I[a@modules/a]") :: post
       ∧ Invoked (InjectNamespaceComponent "I[a@modules/a]" "b" "modules/b") ∈ post)
  ∧ writesTo "/app/reducers.js" evs' = 0
  ∧ writesTo "/app/sagas.js" evs' = 0.
Proof.
  intros w evs w' evs'. split; [vm_compute; reflexivity|].
  split; [vm_compute; reflexivity|]. split; [vm_compute; discriminate|].
  split; [|split; vm_compute; reflexivity].
  exists (take 40 evs), (drop 41 evs). split; [vm_compute; reflexivity|].
  vm_compute. repeat first [apply list_elem_of_here | apply list_elem_of_further].
Qed.

(** C6, amended.  In a run that has read the index, of a project whose
    three aggregation files are distinct, the reducer registry file and
    the saga registry file are each the target of at most one write, and
    of exactly one in a run that resolves; such a write is started only
    after every manifest entry has been injected, and carries the text
    accumulated from the index's text over those injections. *)
Theorem registries_written_once {M} (config : Config) (g : Gengine) (w : World M)
    (d : string) (u : option string) (h eI : Trace) (m : Manifest)
    (tree : ComponentTree M) (evs : Trace) (out : Outcome unit) :
  indexRead w d h = (eI, Resolved (m, tree)) →
  reducersFilePath tree ≠ sagasFilePath tree →
  reducersFilePath tree ≠ indexFilePath tree →
  sagasFilePath tree ≠ indexFilePath tree →
  installFromLocalDir config g w {| dirPath := Some d; url := u |} h = (evs, out) →
  (writesTo (reducersFilePath tree) evs ≤ 1)%nat
  ∧ (writesTo (sagasFilePath tree) evs ≤ 1)%nat
  ∧ (out = Resolved tt →
     writesTo (reducersFilePath tree) evs = 1 ∧ writesTo (sagasFilePath tree) evs = 1)
  ∧ (∀ pre text post,
       evs = pre ++ Started (WriteFile (reducersFilePath tree) text) :: post →
       ∃ order, order ≡ₚ namespaces m
                ∧ reducerInjections pre = reducerArgs <$> order
                ∧ text = reducersAfter g (reducersSourceCode tree) order)
  ∧ (∀ pre text post,
       evs = pre ++ Started (WriteFile (sagasFilePath tree) text) :: post →
       ∃ order, order ≡ₚ namespaces m
                ∧ sagaInjections pre = sagaArgs <$> order
                ∧ text = sagasAfter g (sagasSourceCode tree) order).
Proof.
  intros HI Hrs Hri Hsi Hrun. unfold installFromLocalDir in Hrun. cbn [dirPath] in Hrun.
  destruct (install_run_shape _ _ _ _ _ _ _ _ _ _ HI Hrun)
    as (done & rest & loop & rw & tail & -> & Hperm & Hinj & Hsinj & Hev & _ & Hst & Hcase).
  destruct (indexRead_spec _ _ _ _ _ HI) as [HeI _].
  (* no write to a registry outside the two write-backs *)
  assert (∀ file, file ≠ indexFilePath tree →
            Forall (fun e => startsWriteTo file e = false) (eI ++ loop)
            ∧ Forall (fun e => startsWriteTo file e = false) tail) as Hclean.
  { intros file Hne. split; [apply Forall_app; split|].
    - eapply Forall_impl; [exact HeI|]. intros e He. by apply indexEvent_other.
    - eapply Forall_impl; [exact Hev|]. intros e He. by apply rewriteEvent_other.
    - eapply Forall_impl; [exact Hst|]. intros e He.
      by apply (stagingEvent_other _ _ He). }
  assert (reducerInjections eI = [] ∧ sagaInjections eI = []) as [HrI HsI].
  { apply no_registryInjection. eapply Forall_impl; [exact HeI|].
    intros e He. by apply indexEvent_other. }
  assert (∀ file, file ≠ indexFilePath tree →
            writesTo file (eI ++ loop ++ rw ++ tail) = writesTo file rw) as Hcount.
  { intros file Hne. destruct (Hclean file Hne) as [H1 H2].
    rewrite (app_assoc eI), (writesTo_app _ (eI ++ loop)), (writesTo_app _ rw).
    rewrite (writesTo_none _ _ H1), (writesTo_none _ _ H2). lia. }
  rewrite !Hcount by done.
  assert (∃ b1 b2, rw = registryWrites g tree done b1 b2
                   ∧ (b1 ≠ None → namespaces m ≡ₚ done)
                   ∧ (out = Resolved tt → b1 = Some true ∧ b2 = Some true))
    as (b1 & b2 & -> & Hfull & Hres).
  { destruct Hcase as [(_ & -> & _ & c & ->)
                      |(-> & _ & [(-> & _ & c & ->)|[(-> & _ & c & ->)|(-> & _)]])].
    - by exists None, None.
    - exists (Some false), None. rewrite app_nil_r in Hperm. by split_and!.
    - exists (Some true), (Some false). rewrite app_nil_r in Hperm. by split_and!.
    - exists (Some true), (Some true). rewrite app_nil_r in Hperm. by split_and!. }
  destruct (writesTo_registryWrites g tree done b1 b2 Hrs) as [-> ->].
  split_and!.
  - destruct b1; lia.
  - destruct b1 as [[]|], b2; lia.
  - intros Hout. by destruct (Hres Hout) as [-> ->].
  - intros pre text post Heq.
    destruct (Hclean _ Hri) as [H1 H2].
    rewrite (app_assoc eI) in Heq.
    apply (locate_after (startsWriteTo (reducersFilePath tree))) in Heq
      as (pre' & -> & Heq); [|done|by apply String.eqb_refl].
    apply (locate_before (startsWriteTo (reducersFilePath tree))) in Heq
      as (post' & -> & Heq); [|done|by apply String.eqb_refl].
    exists done. unfold registryWrites in Heq.
    destruct b1 as [[]|]; [destruct b2 as [b2|]| |by destruct pre'].
    all: destruct pre' as [|e1 [|e2 [|e3 [|e4 pre']]]]; simplify_eq/=;
      try (by destruct pre').
    all: rewrite ?app_nil_r, !reducerInjections_app, ?HrI, ?Hinj; simpl;
      split_and!; try done; by rewrite Hfull.
  - intros pre text post Heq.
    destruct (Hclean _ Hsi) as [H1 H2].
    rewrite (app_assoc eI) in Heq.
    apply (locate_after (startsWriteTo (sagasFilePath tree))) in Heq
      as (pre' & -> & Heq); [|done|by apply String.eqb_refl].
    apply (locate_before (startsWriteTo (sagasFilePath tree))) in Heq
      as (post' & -> & Heq); [|done|by apply String.eqb_refl].
    exists done. unfold registryWrites in Heq.
    destruct b1 as [[]|]; [destruct b2 as [b2|]| |by destruct pre'].
    all: destruct pre' as [|e1 [|e2 [|e3 [|e4 pre']]]]; simplify_eq/=;
      try (by destruct pre').
    all: rewrite ?app_nil_r, !sagaInjections_app, ?HsI, ?Hsinj; simpl;
      rewrite ?app_nil_r; split_and!; try done; by rewrite Hfull.
Qed.

Lemma registries_written_once_witness :
  let w := Sample.scripted (Ok Sample.two) (Ok tt) (Ok (Sample.tree ∅))
             (Sample.listing ["a"; "b"]) Sample.everything 1 in
  let evs := (installFromLocalDir Sample.config Sample.tagging w Sample.bundle []).1 in
  let out := (installFromLocalDir Sample.config Sample.tagging w Sample.bundle []).2 in
  (writesTo "/app/reducers.js" evs ≤ 1)%nat
  ∧ (writesTo "/app/sagas.js" evs ≤ 1)%nat
  ∧ (out = Resolved tt →
     writesTo "/app/reducers.js" evs = 1 ∧ writesTo "/app/sagas.js" evs = 1)
  ∧ (∀ pre text post,
       evs = pre ++ Started (WriteFile "/app/reducers.js" text) :: post →
       ∃ order, order ≡ₚ namespaces Sample.two
                ∧ reducerInjections pre = reducerArgs <$> order
                ∧ text = reducersAfter Sample.tagging "R" order)
  ∧ (∀ pre text post,
       evs = pre ++ Started (WriteFile "/app/sagas.js" text) :: post →
       ∃ order, order ≡ₚ namespaces Sample.two
                ∧ sagaInjections pre = sagaArgs <$> order
                ∧ text = sagasAfter Sample.tagging "S" order).
Proof.
  intros w evs out.
  apply (registries_written_once Sample.config Sample.tagging w "/b" None []
           (indexRead w "/b" []).1 Sample.two (Sample.tree ∅) evs out).
  - vm_compute. reflexivity.
  - discriminate.
  - discriminate.
  - discriminate.
  - vm_compute. reflexivity.
Defined.

(** With the second chain settling first, the entries are injected in the
    other order: the written text depends on the order of settlement. *)
Example injection_order_follows_settlement :
  let w := Sample.scripted (Ok Sample.two) (Ok tt) (Ok (Sample.tree ∅))
             (Sample.listing ["a"; "b"]) Sample.everything 1 in
  Started (WriteFile "/app/reducers.js"
             "R[rb:rbReducer@modules/b/reducer.js][ra:raReducer@modules/a/reducer.js]")
  ∈ (installFromLocalDir Sample.config Sample.tagging w Sample.bundle []).1.
Proof.
  vm_compute. repeat first [apply list_elem_of_here | apply list_elem_of_further].
Qed.

(** X19.  Every existence check of a run is on the reducer file of a manifest
    entry or on the sagas file of the last entry: [moduleSagasFilePath] is
    one variable shared by all iterations of the [forOwn] loop, and the
    callbacks read it after the loop has ended. *)
Lemma checks_are_known {M} (config : Config) (g : Gengine) (w : World M)
    (d : string) (u : option string) (h eI : Trace) (m : Manifest)
    (tree : ComponentTree M) (evs : Trace) (out : Outcome unit) :
  indexRead w d h = (eI, Resolved (m, tree)) →
  installFromLocalDir config g w {| dirPath := Some d; url := u |} h = (evs, out) →
  Forall (knownCheck (modulesSrcDirPath d) (namespaces m)) evs.
Proof.
  intros HI Hrun. unfold installFromLocalDir in Hrun. cbn [dirPath] in Hrun.
  destruct (install_run_shape _ _ _ _ _ _ _ _ _ _ HI Hrun)
    as (done & rest & loop & rw & tail & -> & _ & _ & _ & _ & Hkn & Hst & Hcase).
  destruct (indexRead_spec _ _ _ _ _ HI) as [HeI _].
  repeat (apply Forall_app; split); try done.
  - eapply Forall_impl; [exact HeI|]. by intros [[]|[] ?|[]].
  - destruct Hcase as [(_ & -> & _)|(_ & _ & [(-> & _)|[(-> & _)|(-> & _)]])];
      by repeat constructor.
  - eapply Forall_impl; [exact Hst|]. by intros [[]|[] ?|[]].
Qed.

(** X20.  A check that does fail is fatal: the run rejects and has started no
    call except the reads of the index and the checks themselves, so
    neither registry is written. *)
Lemma failed_check_rejects {M} (config : Config) (g : Gengine) (w : World M)
    (d : string) (u : option string) (h eI : Trace) (m : Manifest)
    (tree : ComponentTree M) (evs : Trace) (out : Outcome unit) :
  indexRead w d h = (eI, Resolved (m, tree)) →
  installFromLocalDir config g w {| dirPath := Some d; url := u |} h = (evs, out) →
  Exists (fun e => failedCheck e = true) evs →
  (∃ c, out = Rejected (Cause c))
  ∧ Forall (fun e => fileMutation e = false) evs.
Proof.
  intros HI Hrun Hex. unfold installFromLocalDir in Hrun. cbn [dirPath] in Hrun.
  destruct (install_run_shape _ _ _ _ _ _ _ _ _ _ HI Hrun)
    as (done & rest & loop & rw & tail & -> & _ & _ & _ & Hev & _ & Hst & Hcase).
  destruct (indexRead_spec _ _ _ _ _ HI) as [HeI _].
  destruct Hcase as [(_ & -> & -> & Hout)|(_ & Hall & Hrw)].
  - split; [done|]. rewrite !app_nil_r. apply Forall_app. split.
    + eapply Forall_impl; [exact HeI|]. by intros [[]|[] ?|[]].
    + eapply Forall_impl; [exact Hev|]. by intros [[]|[] ?|[]].
  - exfalso. rewrite !Exists_app in Hex. destruct Hex as [Hex|[Hex|[Hex|Hex]]];
      apply Exists_exists in Hex as (e & Hin & He).
    + rewrite Forall_forall in HeI. apply HeI in Hin. by destruct e as [[]|[] []|[]].
    + rewrite Forall_forall in Hall. apply Hall in Hin. congruence.
    + destruct Hrw as [(-> & _)|[(-> & _)|(-> & _)]];
        unfold registryWrites in Hin; rewrite ?elem_of_cons in Hin;
        repeat destruct Hin as [->|Hin]; try done; by apply elem_of_nil in Hin.
    + rewrite Forall_forall in Hst. apply Hst in Hin. by destruct e as [[]|[] []|[]].
Qed.

(** C9, on the failing input.  The manifest declares namespaces [a] and
    [b]; the bundle lacks [modules/a/sagas.js] and has every other file.
    The run never checks that file (it checks [modules/b/sagas.js] twice),
    resolves, and writes both registries with [a] injected. *)
Theorem missing_sagas_file_unnoticed :
  let w := Sample.scripted (Ok Sample.two) (Ok tt) (Ok (Sample.tree ∅))
             (Sample.listing ["a"; "b"])
             (Sample.allBut "/b/modules/a/sagas.js") 0 in
  let run := installFromLocalDir Sample.config Sample.tagging w Sample.bundle [] in
  (∀ t, isExisting w t "/b/modules/a/sagas.js" = Err "ENOENT")
  ∧ run.2 = Resolved tt
  ∧ checksOf "/b/modules/a/sagas.js" run.1 = 0
  ∧ checksOf "/b/modules/b/sagas.js" run.1 = 2
  ∧ Settled (WriteFile "/app/reducers.js"
       "R[ra:raReducer@modules/a/reducer.js][rb:rbReducer@modules/b/reducer.js]") true
    ∈ run.1
  ∧ Settled (WriteFile "/app/sagas.js"
       "S[aSagas@modules/a/sagas.js][bSagas@modules/b/sagas.js]") true
    ∈ run.1.
Proof.
  intros w run. split; [done|]. do 3 (split; [vm_compute; reflexivity|]).
  split; vm_compute;
    repeat first [apply list_elem_of_here | apply list_elem_of_further].
Qed.

(** * Further properties of the controller *)

(** ** Denied URLs and the proxy route *)

Lemma prefix_spec (p s : string) :
  String.prefix p s = true ↔ ∃ rest, s = p +:+ rest.
Proof.
  revert s. induction p as [|a p IH]; intros s.
  - destruct s; simpl; (split; [intros _; by eexists|done]).
  - destruct s as [|b s]; simpl.
    + split; [done|]. by intros [rest [=]].
    + destruct (ascii_dec a b) as [->|Hne].
      * rewrite IH. split; intros [rest Hr]; exists rest.
        -- by rewrite Hr.
        -- by injection Hr.
      * split; [done|]. intros [rest [= -> _]]. done.
Qed.

Lemma indexOfFrom_bound i s pat :
  indexOfFrom i s pat = (-1)%Z ∨ (Z.of_nat i ≤ indexOfFrom i s pat)%Z.
Proof.
  revert i. induction s as [|c s IH]; intros i; cbn [indexOfFrom].
  - destruct (String.prefix pat ""); [right; lia|by left].
  - destruct (String.prefix pat (String c s)); [right; lia|].
    destruct (IH (S i)) as [->|H]; [by left|right; lia].
Qed.

Lemma indexOf_zero s pat : indexOf s pat = 0%Z ↔ String.prefix pat s = true.
Proof.
  unfold indexOf. destruct s as [|c s]; cbn [indexOfFrom].
  - by destruct (String.prefix pat "").
  - destruct (String.prefix pat (String c s)); [done|].
    destruct (indexOfFrom_bound 1 s pat) as [->|H]; [done|].
    split; [lia|done].
Qed.

Lemma deniedAmong_spec s urls :
  deniedAmong s urls = true ↔ ∃ u, u ∈ urls ∧ String.prefix u s = true.
Proof.
  induction urls as [|u urls IH]; simpl.
  - split; [done|]. by intros (u & ?%elem_of_nil & _).
  - destruct (Z.eqb_spec (indexOf s u) 0) as [H0|H0].
    + split; [|done]. intros _. exists u. split; [by left|by apply indexOf_zero].
    + rewrite IH. split.
      * intros (v & Hv & Hp). exists v. split; [by right|done].
      * intros (v & [->|Hv]%elem_of_cons & Hp); [|eauto].
        by apply indexOf_zero in Hp.
Qed.

Lemma denied_spec (textUrl : option string) :
  checkDeniedProxyURL textUrl = true ↔ ∃ rest, textUrl = Some ("/structor" +:+ rest).
Proof.
  unfold checkDeniedProxyURL, truthy. destruct textUrl as [s|].
  - destruct (String.eqb_spec s "") as [->|Hne]; cbn [negb].
    + split; [done|]. by intros [rest [=]].
    + rewrite deniedAmong_spec. split.
      * intros (u & Hu & [rest ->]%prefix_spec). unfold STRUCTOR_URLS in Hu.
        rewrite !elem_of_cons in Hu.
        destruct Hu as [->|[->|[->|[->|[->|[->|[->|[->|[->|[]%elem_of_nil]]]]]]]]];
          by eexists.
      * intros [rest [= ->]]. exists "/structor". split; [by left|].
        apply prefix_spec. by eexists.
  - split; [done|]. by intros [rest [=]].
Qed.

(** X1.  A URL is denied to the proxy exactly when it starts with
    "/structor": the eight longer entries of [STRUCTOR_URLS] add nothing,
    and a missing or empty URL is never denied. *)
Theorem denied_iff_structor_prefix (textUrl : option string) :
  checkDeniedProxyURL textUrl = true ↔ ∃ rest, textUrl = Some ("/structor" +:+ rest).
Proof. apply denied_spec. Qed.

(** X2.  A request is handed to the proxy exactly when a non-empty proxy
    URL is configured at that moment and the request's URL does not start
    with "/structor"; the target is then that URL.  Every other request
    goes to the next route. *)
Theorem proxied_iff (url proxyURL : option string) (target : string) :
  proxyRoute url proxyURL = ProxyWeb target ↔
  proxyURL = Some target ∧ target ≠ ""
  ∧ ∀ rest, url ≠ Some ("/structor" +:+ rest).
Proof.
  unfold proxyRoute.
  destruct (checkDeniedProxyURL url) eqn:Hd.
  - apply denied_spec in Hd as [rest ->].
    split; [done|]. intros (_ & _ & H). by destruct (H rest).
  - assert (∀ rest, url ≠ Some ("/structor" +:+ rest)) as Hno.
    { intros rest ->. assert (checkDeniedProxyURL (Some ("/structor" +:+ rest)) = true)
        by (apply denied_spec; eauto). congruence. }
    destruct proxyURL as [p|]; [|by split; [|intros ([=] & _)]].
    destruct p as [|c p]; simpl.
    + split; [done|]. by intros ([= <-] & ? & _).
    + split; [by intros [= <-]|by intros ([= <-] & _)].
Qed.

(** ** The server and its proxy *)

Lemma initProxyServer_cases cfg st :
  (initProxyServer cfg st = st)
  ∨ (∃ server, serverRef st = Some server ∧ proxy st = false
       ∧ truthy (projectProxyURL cfg) = true
       ∧ initProxyServer cfg st
         = {| serverRef := serverRef st; proxy := true;
              appCalls := appCalls st ++ [(server, AllProxy)];
              proxyListeners := proxyListeners st ++ ["error"; "proxyReq"] |}).
Proof.
  unfold initProxyServer. destruct (serverRef st) as [server|]; [|by left].
  destruct (proxy st); [by left|]. simpl.
  destruct (truthy (projectProxyURL cfg)); [|by left].
  right. by exists server.
Qed.

Lemma initProxyServer_created cfg st :
  proxy st = true → initProxyServer cfg st = st.
Proof.
  intros Hp. unfold initProxyServer. rewrite Hp. by destruct (serverRef st).
Qed.

Lemma initProxyServer_others cfg st :
  otherCalls (initProxyServer cfg st) = otherCalls st.
Proof.
  destruct (initProxyServer_cases cfg st) as [->|(server & _ & _ & _ & ->)]; [done|].
  unfold otherCalls. cbn [appCalls]. rewrite filter_app. simpl.
  by rewrite app_nil_r.
Qed.

Lemma filter_middlewares (b : bool) server cfg :
  filter (fun c => isAllProxy c = b) (map (fun r => (server, r)) (middlewares cfg))
  = if b then [] else map (fun r => (server, r)) (middlewares cfg).
Proof. by destruct b. Qed.

Lemma initServer_routes cfg st :
  proxyRoutes (initServer cfg st) = proxyRoutes st
  ∧ proxy (initServer cfg st) = proxy st
  ∧ proxyListeners (initServer cfg st) = proxyListeners st
  ∧ serverRef (initServer cfg st) = serverRef st.
Proof.
  unfold initServer. destruct (serverRef st) as [server|] eqn:Hs; [|done].
  split_and!; try done. unfold proxyRoutes. cbn [appCalls].
  by rewrite filter_app, (filter_middlewares true), app_nil_r.
Qed.

Lemma initProxyServer_once cfg st : proxyOnce st → proxyOnce (initProxyServer cfg st).
Proof.
  intros [Hr Hl].
  destruct (initProxyServer_cases cfg st) as [->|(server & _ & Hp & _ & ->)]; [done|].
  rewrite Hp in Hr, Hl. split; cbn [proxy proxyListeners]; [|by rewrite Hl].
  unfold proxyRoutes in *. cbn [appCalls]. rewrite filter_app, length_app, Hr. done.
Qed.

Lemma perform_once st c : proxyOnce st → proxyOnce (perform st c).
Proof.
  intros H. destruct c as [server cfg|[[]|e] cfg]; simpl.
  - unfold setServer. destruct (status cfg); [|done].
    apply initProxyServer_once.
    destruct (initServer_routes cfg
      {| serverRef := server; proxy := proxy st; appCalls := appCalls st;
         proxyListeners := proxyListeners st |}) as (Hr & Hp & Hl & _).
    unfold proxyOnce. rewrite Hr, Hp, Hl. exact H.
  - by apply initProxyServer_once.
  - done.
Qed.

(** X3.  Whatever sequence of [setServer] and [setProxyURL] calls the
    controller has served since it was loaded, the catch-all proxy route
    has been registered at most once: once if the proxy exists, never
    otherwise; and the proxy has its two listeners, [error] and
    [proxyReq], exactly once each. *)
Theorem proxy_route_registered_once (calls : list ControllerCall) :
  length (proxyRoutes (performAll initial calls))
  = (if proxy (performAll initial calls) then 1 else 0)
  ∧ proxyListeners (performAll initial calls)
    = (if proxy (performAll initial calls) then ["error"; "proxyReq"] else []).
Proof.
  change (proxyOnce (performAll initial calls)).
  assert (proxyOnce initial) as H0 by done.
  revert H0. generalize initial. unfold performAll.
  induction calls as [|c calls IH]; intros st Hst; [done|].
  simpl. apply IH. by apply perform_once.
Qed.

Lemma perform_created st c :
  proxy st = true →
  proxy (perform st c) = true
  ∧ proxyRoutes (perform st c) = proxyRoutes st
  ∧ proxyListeners (perform st c) = proxyListeners st.
Proof.
  intros Hp. destruct c as [server cfg|[[]|e] cfg]; simpl.
  - unfold setServer. destruct (status cfg); [|done].
    destruct (initServer_routes cfg
      {| serverRef := server; proxy := proxy st; appCalls := appCalls st;
         proxyListeners := proxyListeners st |}) as (Hr & Hp' & Hl & _).
    rewrite initProxyServer_created by (by rewrite Hp').
    by rewrite Hr, Hp', Hl.
  - by rewrite initProxyServer_created.
  - done.
Qed.

(** X4.  Once the proxy exists, no later call registers the proxy route
    again: a server passed to [setServer] after that moment (a restarted or
    second server) never gets the route, and a new proxy URL adds no
    listener. *)
Theorem proxy_route_never_again (st : Controller) (calls : list ControllerCall) :
  proxy st = true →
  proxy (performAll st calls) = true
  ∧ proxyRoutes (performAll st calls) = proxyRoutes st
  ∧ proxyListeners (performAll st calls) = proxyListeners st.
Proof.
  unfold performAll. revert st.
  induction calls as [|c calls IH]; intros st Hp; [done|].
  simpl. destruct (perform_created st c Hp) as (Hp' & Hr & Hl).
  destruct (IH _ Hp') as (? & ? & ?). split_and!; congruence.
Qed.

Lemma proxy_route_never_again_witness :
  let cfg := {| status := READY; projectProxyURL := Some "http://localhost:3000";
                deskDirPath := "/desk"; scaffoldsDirPath := "/scaffolds" |} in
  let st := performAll initial [SetServer (Some 1) cfg] in
  proxy st = true
  ∧ proxyRoutes (performAll st [SetServer (Some 2) cfg; SetProxyURL (Ok tt) cfg])
    = [(1, AllProxy)].
Proof.
  intros cfg st. split; [reflexivity|].
  destruct (proxy_route_never_again st
              [SetServer (Some 2) cfg; SetProxyURL (Ok tt) cfg] eq_refl)
    as (_ & -> & _).
  reflexivity.
Defined.

Lemma perform_others st c :
  otherCalls (perform st c) = otherCalls st ++ middlewareOf c.
Proof.
  destruct c as [server cfg|[[]|e] cfg]; cbn [perform middlewareOf fst].
  - unfold setServer. destruct (status cfg).
    + rewrite initProxyServer_others. unfold initServer, otherCalls.
      cbn [serverRef appCalls]. destruct server as [server|].
      * cbn [appCalls]. by rewrite filter_app, (filter_middlewares false).
      * by rewrite app_nil_r.
    + unfold otherCalls. cbn [appCalls]. destruct server; by rewrite app_nil_r.
  - unfold setProxyURL. cbn [fst]. by rewrite initProxyServer_others, app_nil_r.
  - by rewrite app_nil_r.
Qed.

(** X5.  Apart from the proxy route, the calls made on the apps are
    exactly the six middlewares of [initServer], once for every
    [setServer] call that passes a server while the project is ready, in
    call order: a server passed twice gets them twice, a server passed
    before the project is ready gets none, and [setProxyURL] never installs
    middleware. *)
Theorem middlewares_per_setServer (st : Controller) (calls : list ControllerCall) :
  otherCalls (performAll st calls) = otherCalls st ++ flat_map middlewareOf calls.
Proof.
  unfold performAll. revert st.
  induction calls as [|c calls IH]; intros st; simpl.
  - by rewrite app_nil_r.
  - by rewrite IH, perform_others, <- app_assoc.
Qed.

(** ** Scaffold generators *)

Lemma leb_refl (s : string) : String.leb s s = true.
Proof. by destruct (String.leb_total s s). Qed.

Lemma leb_trans (a b c : string) :
  String.leb a b = true → String.leb b c = true → String.leb a c = true.
Proof.
  unfold String.leb. intros Hab Hbc.
  destruct (String.compare a b) eqn:Eab; [|clear Hab|done].
  - apply String.compare_eq_iff in Eab as ->. exact Hbc.
  - destruct (String.compare b c) eqn:Ebc; [|clear Hbc|done].
    + apply String.compare_eq_iff in Ebc as <-. by rewrite Eab.
    + apply OrderedTypeEx.String_as_OT.cmp_lt in Eab, Ebc.
      pose proof (OrderedTypeEx.String_as_OT.lt_trans _ _ _ Eab Ebc) as Hac.
      apply OrderedTypeEx.String_as_OT.cmp_lt in Hac.
      unfold OrderedTypeEx.String_as_OT.cmp in Hac. by rewrite Hac.
Qed.

Lemma insertByName_Permutation g l : Scaffolds.insertByName g l ≡ₚ g :: l.
Proof.
  induction l as [|h t IH]; simpl; [done|].
  destruct (String.leb _ _); [done|]. rewrite IH. apply perm_swap.
Qed.

Lemma sortByName_Permutation l : Scaffolds.sortByName l ≡ₚ l.
Proof.
  induction l as [|g l IH]; simpl; [done|].
  by rewrite insertByName_Permutation, IH.
Qed.

Lemma insertByName_Sorted g l :
  Sorted.Sorted Scaffolds.byName l → Sorted.Sorted Scaffolds.byName (Scaffolds.insertByName g l).
Proof.
  induction 1 as [|h t Ht IH Hh]; simpl.
  - by repeat constructor.
  - destruct (String.leb (Scaffolds.name g) (Scaffolds.name h)) eqn:Hgh.
    + constructor; [by constructor|by constructor].
    + constructor; [done|].
      assert (Scaffolds.byName h g) as Hhg.
      { unfold Scaffolds.byName. destruct (String.leb_total (Scaffolds.name g) (Scaffolds.name h)); congruence. }
      destruct Hh as [|k t' Hk]; simpl; [by constructor|].
      destruct (String.leb (Scaffolds.name g) (Scaffolds.name k)); by constructor.
Qed.

Lemma sortByName_Sorted l : Sorted.StronglySorted Scaffolds.byName (Scaffolds.sortByName l).
Proof.
  apply Sorted.Sorted_StronglySorted.
  - intros a b c. apply leb_trans.
  - induction l as [|g l IH]; simpl; [constructor|]. by apply insertByName_Sorted.
Qed.

Lemma insertByName_named n g l :
  Scaffolds.named n (Scaffolds.insertByName g l) = Scaffolds.named n (g :: l).
Proof.
  unfold Scaffolds.named. induction l as [|h t IH]; simpl; [done|].
  destruct (String.leb (Scaffolds.name g) (Scaffolds.name h)) eqn:Hgh; [done|].
  rewrite filter_cons, IH, !filter_cons.
  destruct (decide (Scaffolds.name h = n)) as [Hh|Hh]; [|done].
  destruct (decide (Scaffolds.name g = n)) as [Hg|Hg]; [|done].
  rewrite Hh, Hg, leb_refl in Hgh. done.
Qed.

Lemma sortByName_named n l :
  Scaffolds.named n (Scaffolds.sortByName l) = Scaffolds.named n l.
Proof.
  induction l as [|g l IH]; simpl; [done|].
  rewrite insertByName_named. unfold Scaffolds.named in *.
  by rewrite !filter_cons, IH.
Qed.

(** X6.  [getScaffoldGenerators] resolves with the generators of the
    storage, each with its screenshot path relocated, in ascending order
    of their names: the list is sorted, it holds exactly the relocated
    generators (none lost, none doubled), and the names are the ones the
    storage gave. *)
Theorem generators_sorted_by_name (rootDir : string) (l : list Scaffolds.Generator) :
  ∃ l', Scaffolds.getScaffoldGenerators rootDir (Ok (Some l)) = Resolved (Some l')
        ∧ Sorted.StronglySorted Scaffolds.byName l'
        ∧ l' ≡ₚ Scaffolds.relocate rootDir <$> l
        ∧ Scaffolds.name <$> l' ≡ₚ Scaffolds.name <$> l.
Proof.
  destruct l as [|g gs].
  - exists []. split_and!; [done|constructor|done|done].
  - exists (Scaffolds.sortByName (Scaffolds.relocate rootDir <$> (g :: gs))).
    split_and!; [done|apply sortByName_Sorted|apply sortByName_Permutation|].
    rewrite sortByName_Permutation, <- list_fmap_compose. done.
Qed.

(** X7.  The sort is stable: the generators of one name come out in the
    order the storage gave them. *)
Theorem generators_of_a_name_keep_order (rootDir n : string) (l l' : list Scaffolds.Generator) :
  Scaffolds.getScaffoldGenerators rootDir (Ok (Some l)) = Resolved (Some l') →
  Scaffolds.named n l' = Scaffolds.relocate rootDir <$> Scaffolds.named n l.
Proof.
  assert (∀ k, Scaffolds.named n (Scaffolds.relocate rootDir <$> k)
               = Scaffolds.relocate rootDir <$> Scaffolds.named n k) as Hmap.
  { unfold Scaffolds.named. induction k as [|g k IH]; [done|].
    rewrite fmap_cons, !filter_cons, IH. cbn [Scaffolds.relocate Scaffolds.name].
    by destruct (decide (Scaffolds.name g = n)). }
  destruct l as [|g gs]; intros [= <-]; [done|].
  change (Scaffolds.named n (Scaffolds.sortByName (Scaffolds.relocate rootDir <$> g :: gs))
          = Scaffolds.relocate rootDir <$> Scaffolds.named n (g :: gs)).
  by rewrite sortByName_named, Hmap.
Qed.

Lemma generators_of_a_name_keep_order_witness :
  let a := {| Scaffolds.name := "form"; Scaffolds.screenshotFilePath := "/s/form/a.png" |} in
  let b := {| Scaffolds.name := "card"; Scaffolds.screenshotFilePath := "/s/card.png" |} in
  let c := {| Scaffolds.name := "form"; Scaffolds.screenshotFilePath := "/s/form/c.png" |} in
  Scaffolds.getScaffoldGenerators "/s" (Ok (Some [a; b; c]))
  = Resolved (Some (Scaffolds.relocate "/s" <$> [b; a; c]))
  ∧ Scaffolds.named "form" (Scaffolds.relocate "/s" <$> [b; a; c])
    = Scaffolds.relocate "/s" <$> Scaffolds.named "form" [a; b; c].
Proof.
  intros a b c. split; [reflexivity|].
  apply (generators_of_a_name_keep_order "/s" "form" [a; b; c]). reflexivity.
Defined.

Lemma prefix_app (p rest : string) : String.prefix p (p +:+ rest) = true.
Proof. apply prefix_spec. by exists rest. Qed.

Lemma dropChars_app (p rest : string) :
  Scaffolds.dropChars (String.length p) (p +:+ rest) = rest.
Proof. induction p as [|c p IH]; simpl; [by destruct rest|done]. Qed.

Lemma replaceFirst_prefix (pat rep rest : string) :
  Scaffolds.replaceFirst pat rep (pat +:+ rest) = rep +:+ rest.
Proof.
  destruct (pat +:+ rest) eqn:E; cbn [Scaffolds.replaceFirst]; rewrite <- E;
    by rewrite prefix_app, dropChars_app.
Qed.

(** X8.  A screenshot that lies under the scaffolds directory is given the
    URL of the same file under "/structor-gengine-scaffolds", which is
    the mount at which [initServer] serves that directory; and a request
    for that URL is never handed to the proxy, whatever proxy URL is
    configured. *)
Theorem screenshot_url_is_served (cfg : ServerConfig) (g : Scaffolds.Generator) (rest : string) :
  Scaffolds.screenshotFilePath g = scaffoldsDirPath cfg +:+ rest →
  Scaffolds.screenshotFilePath (Scaffolds.relocate (scaffoldsDirPath cfg) g)
  = "/structor-gengine-scaffolds" +:+ rest
  ∧ UseStatic "/structor-gengine-scaffolds" (scaffoldsDirPath cfg) ∈ middlewares cfg
  ∧ ∀ proxyURL,
      proxyRoute (Some (Scaffolds.screenshotFilePath
                          (Scaffolds.relocate (scaffoldsDirPath cfg) g))) proxyURL
      = NextRoute.
Proof.
  intros Hg.
  assert (Scaffolds.screenshotFilePath (Scaffolds.relocate (scaffoldsDirPath cfg) g)
          = "/structor-gengine-scaffolds" +:+ rest) as Hurl.
  { cbn [Scaffolds.relocate Scaffolds.screenshotFilePath]. rewrite Hg.
    apply replaceFirst_prefix. }
  split_and!; [done| |].
  - unfold middlewares. do 5 apply list_elem_of_further. apply list_elem_of_here.
  - intros proxyURL. rewrite Hurl. unfold proxyRoute.
    assert (checkDeniedProxyURL (Some ("/structor-gengine-scaffolds" +:+ rest)) = true) as ->; [|done].
    apply denied_spec. by exists ("-gengine-scaffolds" +:+ rest).
Qed.

Lemma screenshot_url_is_served_witness :
  let cfg := {| status := READY; projectProxyURL := Some "http://localhost:3000";
                deskDirPath := "/desk"; scaffoldsDirPath := "/project/scaffolds" |} in
  let g := {| Scaffolds.name := "form";
              Scaffolds.screenshotFilePath := "/project/scaffolds/form/screenshot.png" |} in
  Scaffolds.screenshotFilePath (Scaffolds.relocate (scaffoldsDirPath cfg) g)
  = "/structor-gengine-scaffolds/form/screenshot.png".
Proof.
  intros cfg g.
  exact (proj1 (screenshot_url_is_served cfg g "/form/screenshot.png" eq_refl)).
Defined.

Lemma replaceFirst_absent (pat rep s : string) (i : nat) :
  indexOfFrom i s pat = (-1)%Z → Scaffolds.replaceFirst pat rep s = s.
Proof.
  revert i. induction s as [|c s IH]; intros i; cbn [indexOfFrom Scaffolds.replaceFirst].
  - destruct (String.prefix pat ""); [lia|done].
  - destruct (String.prefix pat (String c s)); [lia|].
    intros H. by rewrite (IH _ H).
Qed.

(** X9.  A screenshot path in which the scaffolds directory does not occur
    is passed on unchanged. *)
Theorem screenshot_elsewhere_unchanged (rootDir : string) (g : Scaffolds.Generator) :
  indexOf (Scaffolds.screenshotFilePath g) rootDir = (-1)%Z →
  Scaffolds.relocate rootDir g = g.
Proof.
  intros H. destruct g as [n p]. unfold Scaffolds.relocate. cbn in *.
  by rewrite (replaceFirst_absent _ _ _ _ H).
Qed.

Lemma screenshot_elsewhere_unchanged_witness :
  Scaffolds.relocate "/project/scaffolds"
    {| Scaffolds.name := "form"; Scaffolds.screenshotFilePath := "/tmp/form.png" |}
  = {| Scaffolds.name := "form"; Scaffolds.screenshotFilePath := "/tmp/form.png" |}.
Proof. apply screenshot_elsewhere_unchanged. reflexivity. Defined.

(** ** [preInstall]: when it resolves and when the bundle has no module *)

(** X10.  [preInstall] resolves only for a bundle given by a non-empty
    [dirPath], and only after its three reads (manifest, component tree,
    listing of [modules/]) were all answered and the listing held a
    directory; these six events are all it did, and the result is the
    bundle path with the listed names for which line 297's read
    [componentTree.modules[name]] answers ([hasModule]: the keys of
    [modules] and the names that every object inherits).  A bundle given
    by [url] alone is never pre-installed. *)
Theorem preInstall_resolves_only_after_reads {M} (w : World M) (options : Options)
    (h evs : Trace) (r : PreInstallResult) :
  preInstall w options h = (evs, Resolved r) →
  ∃ d m tree f,
    dirPath options = Some d ∧ d ≠ ""
    ∧ evs = [Started (ReadJson (Path.join [d; "structor-namespaces.json"]));
             Settled (ReadJson (Path.join [d; "structor-namespaces.json"])) true;
             Started GetComponentTree; Settled GetComponentTree true;
             Started (ReadDirectoryFlat (Path.join [d; "modules"]));
             Settled (ReadDirectoryFlat (Path.join [d; "modules"])) true]
    ∧ readJson w (h ++ [Started (ReadJson (Path.join [d; "structor-namespaces.json"]))])
        (Path.join [d; "structor-namespaces.json"]) = Ok m
    ∧ getComponentTree w
        (h ++ [Started (ReadJson (Path.join [d; "structor-namespaces.json"]));
               Settled (ReadJson (Path.join [d; "structor-namespaces.json"])) true;
               Started GetComponentTree]) = Ok tree
    ∧ readDirectoryFlat w
        (h ++ [Started (ReadJson (Path.join [d; "structor-namespaces.json"]));
               Settled (ReadJson (Path.join [d; "structor-namespaces.json"])) true;
               Started GetComponentTree; Settled GetComponentTree true;
               Started (ReadDirectoryFlat (Path.join [d; "modules"]))])
        (Path.join [d; "modules"]) = Ok f
    ∧ noDirs f = false
    ∧ namespacesSrcDirPath r = d
    ∧ existingNamespaceDirs r
      = filter (fun n => hasModule tree n = true) (name <$> default [] (dirs f)).
Proof.
  unfold preInstall. destruct (truthy (dirPath options)) eqn:Htr.
  2: { by destruct (truthy (url options)). }
  destruct (dirPath options) as [d|]; [|by cbv in Htr].
  assert (d ≠ "") as Hd.
  { intros ->. by cbv in Htr. }
  unfold preInstallFrom. intros H.
  apply andThen_resolved in H as (e1 & m & e2 & H1 & H & ->).
  apply await_cases in H1 as [(m' & Hm & -> & [= <-])|(c & _ & _ & [=])].
  apply andThen_resolved in H as (e1 & tree & e3 & H2 & H & ->).
  apply await_cases in H2 as [(tree' & Ht & -> & [= <-])|(c & _ & _ & [=])].
  apply andThen_resolved in H as (e1 & ds & e4 & H3 & [= <- <-] & ->).
  apply listDirs_cases in H3
    as [(f & Hf & -> & [[_ [=]]|(Hn & ds' & Hds & [= <-])])|(c & _ & _ & [=])].
  rewrite <- ?app_assoc in Ht. rewrite <- ?app_assoc in Hf. cbn [app] in Ht, Hf.
  rewrite <- ?app_assoc in Hf. cbn [app] in Hf.
  exists d, m, tree, f. cbn [namespacesSrcDirPath existingNamespaceDirs].
  rewrite collisions_filter, Hds. by split_and!.
Qed.

Lemma preInstall_resolves_only_after_reads_witness :
  ∃ d, dirPath Sample.bundle = Some d ∧ d ≠ "".
Proof.
  destruct (preInstall_resolves_only_after_reads
              (Sample.scripted (Ok Sample.two) (Ok tt) (Ok (Sample.tree {["a" := tt]}))
                 (Sample.listing ["a"; "b"]) Sample.everything 0)
              Sample.bundle [] _ _ eq_refl)
    as (d & _ & _ & _ & Hd & Hne & _).
  by exists d.
Defined.

(** X11.  A bundle whose [modules/] directory lists no subdirectory is
    refused by [preInstall] with the error "Modules directory is empty";
    the manifest and the component tree are read before the listing, and
    nothing else is done. *)
Theorem preInstall_empty_modules {M} (w : World M) (d : string) (u : option string)
    (h : Trace) (m : Manifest) (tree : ComponentTree M) (f : FoundFiles) :
  d ≠ "" →
  readJson w (h ++ [Started (ReadJson (Path.join [d; "structor-namespaces.json"]))])
    (Path.join [d; "structor-namespaces.json"]) = Ok m →
  getComponentTree w
    (h ++ [Started (ReadJson (Path.join [d; "structor-namespaces.json"]));
           Settled (ReadJson (Path.join [d; "structor-namespaces.json"])) true;
           Started GetComponentTree]) = Ok tree →
  readDirectoryFlat w
    (h ++ [Started (ReadJson (Path.join [d; "structor-namespaces.json"]));
           Settled (ReadJson (Path.join [d; "structor-namespaces.json"])) true;
           Started GetComponentTree; Settled GetComponentTree true;
           Started (ReadDirectoryFlat (Path.join [d; "modules"]))])
    (Path.join [d; "modules"]) = Ok f →
  noDirs f = true →
  preInstall w {| dirPath := Some d; url := u |} h
  = ([Started (ReadJson (Path.join [d; "structor-namespaces.json"]));
      Settled (ReadJson (Path.join [d; "structor-namespaces.json"])) true;
      Started GetComponentTree; Settled GetComponentTree true;
      Started (ReadDirectoryFlat (Path.join [d; "modules"]));
      Settled (ReadDirectoryFlat (Path.join [d; "modules"])) true],
     Rejected (Error "Modules directory is empty")).
Proof.
  intros Hd Hm Ht Hf Hn.
  assert (truthy (Some d) = true) as Htr.
  { unfold truthy. by destruct (String.eqb_spec d ""). }
  unfold preInstall. cbn [dirPath]. rewrite Htr.
  unfold preInstallFrom, andThen, await.
  rewrite Hm. rewrite <- !app_assoc. cbn [app]. rewrite Ht.
  erewrite listDirs_empty; [reflexivity| |done].
  rewrite <- !app_assoc. exact Hf.
Qed.

Lemma preInstall_empty_modules_witness :
  (preInstall
     (Sample.scripted (Ok Sample.two) (Ok tt) (Ok (Sample.tree {["a" := tt]}))
        (Sample.listing []) Sample.everything 0)
     {| dirPath := Some "/b"; url := None |} []).2
  = Rejected (Error "Modules directory is empty").
Proof.
  erewrite (preInstall_empty_modules _ "/b" None []); [reflexivity|done|reflexivity..].
Defined.

(** ** [installFromLocalDir]: how a run can end *)

Lemma listing_stage {M A} (w : World M) (body : list DirItem → Async A) dir msg h evs out :
  (ds <- listDirs w dir msg ;; body ds) h = (evs, out) →
  (emptyAt w h dir ∧ evs = listingEvents dir ∧ out = Rejected (Error msg))
  ∨ (∃ c, evs = [Started (ReadDirectoryFlat dir); Settled (ReadDirectoryFlat dir) false]
          ∧ out = Rejected (Cause c))
  ∨ (∃ ds eB, listed w h dir ds ∧ ds ≠ []
              ∧ body ds (h ++ listingEvents dir) = (eB, out)
              ∧ evs = listingEvents dir ++ eB).
Proof.
  intros H.
  apply andThen_cases in H as [(eL & ds & eB & HL & HB & ->)|[(e & HL & ->)|(e & HL & ->)]];
    apply listDirs_cases in HL
      as [(f & Hf & -> & [[Hn [=]]|(Hn & ds' & Hds & [=])])|(c & Hf & -> & [=])]; subst.
  - right. right. exists ds', eB. split_and!; try done.
    + by exists f.
    + intros ->. unfold noDirs in Hn. by rewrite Hds in Hn.
  - left. split; [by exists f|done].
  - right. left. eauto.
Qed.

(** X12.  A run of [installFromLocalDir] that resolves has staged all
    three groups: each of [modules], [defaults] and [docs] was reached and
    listed, and every directory listed for it has a fulfilled copy to the
    group's destination in the trace of the run. *)
Theorem resolved_run_staged_every_group {M} (config : Config) (g : Gengine) (w : World M)
    (d : string) (u : option string) (h evs : Trace) :
  installFromLocalDir config g w {| dirPath := Some d; url := u |} h
  = (evs, Resolved tt) →
  ∀ grp, stagedInRun config g w d h grp evs.
Proof.
  unfold installFromLocalDir. cbn [dirPath]. unfold installChain. intros H.
  apply andThen_resolved in H as (eD & [] & tail & HD & Hk & ->).
  destruct (defaultsStaged_copied config g w d h eD tail HD) as [Hmod Hdef].
  intros [| |]; [done|done|].
  apply listing_stage in Hk
    as [(_ & _ & [=])|[(c & _ & [=])|(ds & eB & Hl & _ & HB & ->)]].
  exists eD, ds. split; [done|]. split; [done|].
  destruct (copyGroup_spec _ _ _ _ _ _ HB) as (_ & Hcp & _).
  cbn [groupDest]. rewrite app_assoc.
  pose proof (groupCopied_more _ _ _ (eD ++ listingEvents (docsSrcDirPath d)) []
                (Hcp eq_refl)) as Hc.
  by rewrite app_nil_r in Hc.
Qed.

Lemma resolved_run_staged_every_group_witness :
  stagedInRun Sample.config Sample.tagging
    (Sample.scripted (Ok Sample.two) (Ok tt) (Ok (Sample.tree ∅))
       (Sample.listing ["a"; "b"]) Sample.everything 0)
    "/b" [] Docs
    (installFromLocalDir Sample.config Sample.tagging
       (Sample.scripted (Ok Sample.two) (Ok tt) (Ok (Sample.tree ∅))
          (Sample.listing ["a"; "b"]) Sample.everything 0)
       Sample.bundle []).1.
Proof.
  eapply (resolved_run_staged_every_group _ _ _ "/b" None []). vm_compute. reflexivity.
Defined.



(** ** Removals, copies and the registry write-backs *)

Lemma removedFirst_app t1 t2 : removedFirst t1 → removedFirst t2 → removedFirst (t1 ++ t2).
Proof.
  intros H1 H2 pre src dst post Heq.
  apply app_eq_inv in Heq as [(k & -> & Hk)|(k & -> & ->)].
  - destruct k as [|e k]; simpl in Hk.
    + destruct (H2 [] src dst post) as [pre' Hp]; [by rewrite <- Hk|].
      by destruct pre'.
    + injection Hk as <- ->. by apply (H1 pre src dst k).
  - destruct (H2 k src dst post eq_refl) as [pre' ->].
    exists (t1 ++ pre'). by rewrite app_assoc.
Qed.

Lemma removedFirst_none t : Forall (fun e => copyStart e = false) t → removedFirst t.
Proof.
  intros Hall pre src dst post ->.
  apply Forall_app in Hall as [_ Hall]. by apply Forall_cons in Hall as [[=] _].
Qed.

Lemma removedFirst_removal src dst :
  removedFirst [Settled (RemoveFile dst) true; Started (CopyFile src dst)].
Proof.
  intros pre src' dst' post Heq.
  destruct pre as [|e0 [|e1 [|e2 pre]]]; simpl in Heq; try done.
  injection Heq as <- <- <- <-. by exists [].
Qed.

Lemma andThen_removedFirst {A B} (p : Async A) (f : A → Async B) h :
  removedFirst (p h).1 → (∀ a h', removedFirst (f a h').1) →
  removedFirst (andThen p f h).1.
Proof.
  unfold andThen. intros Hp Hf. destruct (p h) as [e1 [a|e|e]]; try done.
  specialize (Hf a (h ++ e1)). destruct (f a (h ++ e1)) as [e2 out].
  by apply removedFirst_app.
Qed.

Lemma await_removedFirst {A} (c : Call) (answer : Trace → Result A) h :
  copyStart (Started c) = false → removedFirst (await c answer h).1.
Proof.
  intros Hc. unfold await.
  destruct (answer _); apply removedFirst_none; by repeat constructor.
Qed.

Lemma listDirs_removedFirst {M} (w : World M) dir msg h :
  removedFirst (listDirs w dir msg h).1.
Proof.
  unfold listDirs. apply andThen_removedFirst; [by apply await_removedFirst|].
  intros f h'. destruct (dirs f) as [[|??]|]; by apply removedFirst_none.
Qed.

Lemma copyGroup_removedFirst {M} (w : World M) destRoot items h :
  removedFirst (copyGroup w destRoot items h).1.
Proof.
  unfold copyGroup. apply andThen_removedFirst; [|intros; by apply removedFirst_none].
  unfold allOf, forEachAll.
  pose proof (spawn_tasks (copyTask destRoot)
                (copyStepTask destRoot ∘ Removing) items tt
                (fun _ _ => eq_refl)) as Hsp.
  rewrite list_fmap_compose in Hsp.
  destruct (spawn _ items tt) as [v0 tks]. simpl in Hsp. subst tks.
  set (started := (fun tk => Started (pending tk)) <$> _).
  pose (I := fun p : Pool unit =>
    ∃ rem, tasks p = copyStepTask destRoot <$> rem ∧ removedFirst (emitted p)).
  destruct (promiseAll_invariant w I (h ++ started)
              (copyStepTask destRoot <$> (Removing <$> items)) v0)
    as (p & (rem & _ & Hrf) & _ & Hrun).
  { exists (Removing <$> items). split; [done|]. by apply removedFirst_none. }
  { clear. intros p (rem & Ht & Hrf) Hne.
    destruct (settleOne_mirror w (copyStepTask destRoot) (h ++ started) p rem Ht Hne)
      as (i & x & Hx & Hrem & [(e & _ & ->)|(_ & v' & evs & next & Hr & Hnext)]).
    - exists (delete i rem). split; [done|]. simpl.
      apply removedFirst_app; [done|]. apply removedFirst_none. by repeat constructor.
    - destruct x as [item|item]; simpl in Hr; injection Hr as <- <- <-.
      + destruct Hnext as [[[=] _]|(tk' & [= <-] & Hnext)].
        destruct (Hnext (Copying item) eq_refl) as [_ ->].
        exists (<[i := Copying item]> rem). split; [done|]. simpl.
        apply removedFirst_app; [done|]. apply removedFirst_removal.
      + destruct Hnext as [[_ ->]|(tk' & [=] & _)].
        exists (delete i rem). split; [done|]. simpl.
        apply removedFirst_app; [done|]. apply removedFirst_none. by repeat constructor. }
  rewrite Hrun.
  assert (removedFirst (started ++ emitted p)) as Hall.
  { apply removedFirst_app; [|done]. apply removedFirst_none. subst started.
    do 3 apply Forall_fmap. apply Forall_true. by intros x. }
  by destruct (rejection p).
Qed.

Lemma copyDefaults_removedFirst {M} (config : Config) (g : Gengine) (w : World M)
    (tree : ComponentTree M) items h :
  removedFirst (copyDefaults config g w tree items h).1.
Proof.
  unfold copyDefaults. apply andThen_removedFirst; [|intros; by apply removedFirst_none].
  unfold allOf, forEachAll.
  pose proof (spawn_tasks (defaultsTask config g tree)
                (defaultsStepTask config g tree ∘ RemovingDefaults) items
                (indexSourceCode tree) (fun _ _ => eq_refl)) as Hsp.
  rewrite list_fmap_compose in Hsp.
  destruct (spawn _ items _) as [v0 tks]. simpl in Hsp. subst tks.
  set (started := (fun tk => Started (pending tk)) <$> _).
  pose (I := fun p : Pool string =>
    ∃ rem, tasks p = defaultsStepTask config g tree <$> rem ∧ removedFirst (emitted p)).
  destruct (promiseAll_invariant w I (h ++ started)
              (defaultsStepTask config g tree <$> (RemovingDefaults <$> items)) v0)
    as (p & (rem & _ & Hrf) & _ & Hrun).
  { exists (RemovingDefaults <$> items). split; [done|]. by apply removedFirst_none. }
  { clear. intros p (rem & Ht & Hrf) Hne.
    destruct (settleOne_mirror w (defaultsStepTask config g tree) (h ++ started) p rem Ht Hne)
      as (i & x & Hx & Hrem & [(e & _ & ->)|(_ & v' & evs & next & Hr & Hnext)]).
    - exists (delete i rem). split; [done|]. simpl.
      apply removedFirst_app; [done|]. apply removedFirst_none. by repeat constructor.
    - destruct x as [item|item|item text]; simpl in Hr; injection Hr as <- <- <-.
      + destruct Hnext as [[[=] _]|(tk' & [= <-] & Hnext)].
        destruct (Hnext (CopyingDefaults item) eq_refl) as [_ ->].
        exists (<[i := CopyingDefaults item]> rem). split; [done|]. simpl.
        apply removedFirst_app; [done|]. apply removedFirst_removal.
      + destruct Hnext as [[[=] _]|(tk' & [= <-] & Hnext)].
        destruct (Hnext (WritingIndex item
                           (injectNamespaceComponent g (vars p) (name item)
                              (Path.join ["modules"; name item]))) eq_refl) as [_ ->].
        eexists (<[i := WritingIndex item _]> rem). split; [done|]. simpl.
        apply removedFirst_app; [done|]. apply removedFirst_none. by repeat constructor.
      + destruct Hnext as [[_ ->]|(tk' & [=] & _)].
        exists (delete i rem). split; [done|]. simpl.
        apply removedFirst_app; [done|]. apply removedFirst_none. by repeat constructor. }
  rewrite Hrun.
  assert (removedFirst (started ++ emitted p)) as Hall.
  { apply removedFirst_app; [|done]. apply removedFirst_none. subst started.
    do 3 apply Forall_fmap. apply Forall_true. by intros x. }
  by destruct (rejection p).
Qed.

Lemma indexRead_removedFirst {M} (w : World M) d h : removedFirst (indexRead w d h).1.
Proof.
  destruct (indexRead w d h) as [evs out] eqn:H.
  destruct (indexRead_spec _ _ _ _ _ H) as [Hev _].
  apply removedFirst_none. eapply Forall_impl; [exact Hev|]. by intros [[]|[] ?|[]].
Qed.

Lemma registryWrites_no_staging {M} (g : Gengine) (tree : ComponentTree M) order b1 b2 :
  Forall (fun e => stagingStart e = false) (registryWrites g tree order b1 b2).
Proof. unfold registryWrites. destruct b1 as [[]|], b2 as [[]|]; by repeat constructor. Qed.

Lemma rewriteRegistries_removedFirst {M} (g : Gengine) (w : World M) src m
    (tree : ComponentTree M) h :
  removedFirst (rewriteRegistries g w src m tree h).1.
Proof.
  destruct (rewriteRegistries g w src m tree h) as [evs out] eqn:H.
  apply rewriteRegistries_spec in H
    as (done & rest & loop & _ & _ & _ & Hev & _ & Hcase).
  assert (Forall (fun e => copyStart e = false) loop) as Hloop.
  { eapply Forall_impl; [exact Hev|]. by intros [[]|[] ?|[]]. }
  assert (∀ b1 b2, Forall (fun e => copyStart e = false)
                     (registryWrites g tree done b1 b2)) as Hrw.
  { intros b1 b2. eapply Forall_impl; [apply registryWrites_no_staging|].
    by intros [[]|[] ?|[]]. }
  apply removedFirst_none. cbn [fst].
  destruct Hcase as [(_ & -> & _)|(_ & _ & [(-> & _)|[(-> & _)|(-> & _)]])];
    try done; by apply Forall_app.
Qed.

(** X14.  In every run of [installFromLocalDir], in all three groups, a
    directory is copied only to a destination that has just been removed:
    each copy is started right after the removal of its destination was
    fulfilled, so a removal that fails is never followed by the copy of
    that directory. *)
Theorem copies_follow_removals {M} (config : Config) (g : Gengine) (w : World M)
    (options : Options) (h : Trace) :
  removedFirst (installFromLocalDir config g w options h).1.
Proof.
  unfold installFromLocalDir. destruct (dirPath options) as [d|].
  2: { by apply removedFirst_none. }
  unfold installChain, defaultsStaged, modulesStaged, registriesWritten.
  repeat first [ apply indexRead_removedFirst
               | apply rewriteRegistries_removedFirst
               | apply listDirs_removedFirst
               | apply copyGroup_removedFirst
               | apply copyDefaults_removedFirst
               | by apply removedFirst_none
               | apply andThen_removedFirst
               | intros ? ?; cbn beta ].
Qed.

Lemma indexRead_no_staging {M} (w : World M) (d : string) h eI (m : Manifest) (tree : ComponentTree M) :
  indexRead w d h = (eI, Resolved (m, tree)) →
  Forall (fun e => stagingStart e = false) eI.
Proof.
  intros H. destruct (indexRead_spec _ _ _ _ _ H) as [Hev _].
  eapply Forall_impl; [exact Hev|]. by intros [[]|[] ?|[]].
Qed.

(** X15.  Nothing is staged before the registries are written.  In a run
    that has read the index, the start of any removal or copy comes after
    the fulfilled writes of both registry files, which carry the texts
    with every manifest entry injected. *)
Theorem staging_follows_registries {M} (config : Config) (g : Gengine) (w : World M)
    (d : string) (u : option string) (h eI : Trace) (m : Manifest)
    (tree : ComponentTree M) (evs : Trace) (out : Outcome unit)
    (pre post : Trace) (e : Event) :
  indexRead w d h = (eI, Resolved (m, tree)) →
  installFromLocalDir config g w {| dirPath := Some d; url := u |} h = (evs, out) →
  evs = pre ++ e :: post →
  stagingStart e = true →
  ∃ order,
    order ≡ₚ namespaces m
    ∧ Settled (WriteFile (reducersFilePath tree)
                 (reducersAfter g (reducersSourceCode tree) order)) true ∈ pre
    ∧ Settled (WriteFile (sagasFilePath tree)
                 (sagasAfter g (sagasSourceCode tree) order)) true ∈ pre.
Proof.
  intros HI Hrun Heq He. unfold installFromLocalDir in Hrun. cbn [dirPath] in Hrun.
  destruct (install_run_shape _ _ _ _ _ _ _ _ _ _ HI Hrun)
    as (done & rest & loop & rw & tail & -> & Hperm & _ & _ & Hev & _ & _ & Hcase).
  apply (locate_after stagingStart) in Heq as (p1 & -> & Heq);
    [|by eapply indexRead_no_staging|done].
  apply (locate_after stagingStart) in Heq as (p2 & -> & Heq); [| |done].
  2: { eapply Forall_impl; [exact Hev|]. by intros [[]|[] ?|[]]. }
  assert (Forall (fun e => stagingStart e = false) rw) as Hrw.
  { destruct Hcase as [(_ & -> & _)|(_ & _ & [(-> & _)|[(-> & _)|(-> & _)]])];
      [done|apply registryWrites_no_staging..]. }
  apply (locate_after stagingStart) in Heq as (p3 & -> & Heq); [|done..].
  destruct Hcase as [(_ & _ & -> & _)|(-> & _ & [(_ & -> & _)|[(_ & -> & _)|(-> & _)]])];
    try by destruct p3.
  rewrite app_nil_r in Hperm. exists done. split; [done|].
  unfold registryWrites. rewrite !elem_of_app, !elem_of_cons. split; auto 10.
Qed.

Lemma staging_follows_registries_witness :
  let w := Sample.scripted (Ok Sample.two) (Ok tt) (Ok (Sample.tree ∅))
             (Sample.listing ["a"; "b"]) Sample.everything 0 in
  let run := installFromLocalDir Sample.config Sample.tagging w Sample.bundle [] in
  ∃ order,
    order ≡ₚ namespaces Sample.two
    ∧ Settled (WriteFile "/app/reducers.js"
                 (reducersAfter Sample.tagging "R" order)) true ∈ take 24 run.1
    ∧ Settled (WriteFile "/app/sagas.js"
                 (sagasAfter Sample.tagging "S" order)) true ∈ take 24 run.1.
Proof.
  intros w run.
  apply (staging_follows_registries Sample.config Sample.tagging w "/b" None []
           (indexRead w "/b" []).1 Sample.two (Sample.tree ∅) run.1 run.2
           (take 24 run.1) (drop 25 run.1) (Started (RemoveFile "/app/modules/a")));
    vm_compute; reflexivity.
Defined.

(** ** The index text in the defaults loop, as a property of its own *)

(** X16.  In the defaults loop the index text accumulates: every write
    that the loop starts is a write of the index file, and its text is
    the index text of the component tree with all the injections made
    before it applied, in the order they were made; in a loop that
    resolves there is exactly one injection per defaults directory, with
    the directory's name and [modules/<name>]. *)
Theorem index_text_accumulates {M} (config : Config) (g : Gengine) (w : World M)
    (tree : ComponentTree M) (items : list DirItem) (h evs : Trace) (out : Outcome unit) :
  copyDefaults config g w tree items h = (evs, out) →
  writesCarryIndex g (indexFilePath tree) (indexSourceCode tree) evs
  ∧ (out = Resolved tt →
     ∃ order, order ≡ₚ items ∧ indexInjections evs = indexArgs <$> order).
Proof.
  intros H.
  destruct (defaultsLoop_spec _ _ _ _ _ _ _ _ H) as (Hwr & _ & _ & Hres).
  by split.
Qed.

Lemma index_text_accumulates_witness :
  let w := Sample.scripted (Ok Sample.two) (Ok tt) (Ok (Sample.tree ∅))
             (Sample.listing ["a"; "b"]) Sample.everything 0 in
  let items := [Sample.item "/b/defaults" "a"; Sample.item "/b/defaults" "b"] in
  let run := copyDefaults Sample.config Sample.tagging w (Sample.tree ∅) items [] in
  writesCarryIndex Sample.tagging "/app/index.js" "I" run.1
  ∧ (run.2 = Resolved tt →
     ∃ order, order ≡ₚ items ∧ indexInjections run.1 = indexArgs <$> order).
Proof.
  intros w items run.
  apply (index_text_accumulates Sample.config Sample.tagging w (Sample.tree ∅) items []).
  reflexivity.
Defined.

(** ** No chain of a copy loop is abandoned *)

(** X17.  The copy loop of a group abandons no directory: whatever the
    outcome, and whichever call fails first, the removal of every listed
    directory's destination is started, and the chain of every directory
    runs to its own end: its removal fails, or its copy fails, or its
    copy is fulfilled.  A failure neither stops nor undoes the
    replacement of the other directories. *)
Theorem no_chain_is_abandoned {M} (w : World M) (destRoot : string)
    (items : list DirItem) (h evs : Trace) (out : Outcome unit) (item : DirItem) :
  copyGroup w destRoot items h = (evs, out) →
  item ∈ items →
  Started (RemoveFile (Path.join [destRoot; name item])) ∈ evs
  ∧ chainEnded destRoot item evs.
Proof.
  unfold copyGroup, andThen, allOf, forEachAll.
  pose proof (spawn_tasks (copyTask destRoot)
                (copyStepTask destRoot ∘ Removing) items tt
                (fun _ _ => eq_refl)) as Hsp.
  rewrite list_fmap_compose in Hsp.
  destruct (spawn _ items tt) as [v0 tks]. simpl in Hsp. subst tks.
  set (started := (fun tk => Started (pending tk)) <$> _).
  pose (I := fun p : Pool unit =>
    ∃ rem finished,
      tasks p = copyStepTask destRoot <$> rem
      ∧ items ≡ₚ (copyItem <$> rem) ++ finished
      ∧ ∀ it, it ∈ finished → chainEnded destRoot it (emitted p)).
  destruct (promiseAll_invariant w I (h ++ started)
              (copyStepTask destRoot <$> (Removing <$> items)) v0)
    as (p & (rem & finished & Ht & Hperm & Hfin) & Hdone & Hrun).
  { exists (Removing <$> items), []. simpl.
    rewrite copyItem_Removing, app_nil_r. split_and!; try done.
    intros it Hin. by apply elem_of_nil in Hin. }
  { clear. intros p (rem & finished & Ht & Hperm & Hfin) Hne.
    assert (∀ it chunk, it ∈ finished →
              chainEnded destRoot it (emitted p ++ chunk)) as Hold.
    { intros it chunk Hin. by apply (chainEnded_more _ _ _ []), Hfin. }
    destruct (settleOne_mirror w (copyStepTask destRoot) (h ++ started) p rem Ht Hne)
      as (i & x & Hx & Hrem & [(e & _ & ->)|(_ & v' & evs & next & Hr & Hnext)]).
    - (* the pending call rejects *)
      exists (delete i rem), (copyItem x :: finished). simpl.
      split; [done|]. split.
      { rewrite Hperm. rewrite Hrem at 1. rewrite fmap_cons. perm_middle. }
      intros it [->|Hin]%elem_of_cons; [|by apply Hold].
      unfold chainEnded. rewrite !elem_of_app, !list_elem_of_singleton.
      destruct x; simpl; auto.
    - destruct x as [it0|it0]; simpl in Hr; injection Hr as <- <- <-.
      + (* the directory is removed: the copy starts *)
        destruct Hnext as [[[=] _]|(tk' & [= <-] & Hnext)].
        destruct (Hnext (Copying it0) eq_refl) as [Hins ->].
        exists (<[i := Copying it0]> rem), finished. simpl.
        split; [done|]. split; [|by intros; apply Hold].
        rewrite Hperm. rewrite Hins. rewrite Hrem at 1. by rewrite !fmap_cons.
      + (* the copy is done *)
        destruct Hnext as [[_ ->]|(tk' & [=] & _)].
        exists (delete i rem), (it0 :: finished). simpl.
        split; [done|]. split.
        { rewrite Hperm. rewrite Hrem at 1. rewrite fmap_cons. perm_middle. }
        intros it [->|Hin]%elem_of_cons; [|by apply Hold].
        unfold chainEnded. rewrite !elem_of_app, !list_elem_of_singleton. auto. }
  rewrite Hrun. rewrite Hdone in Ht. symmetry in Ht. apply fmap_nil_inv in Ht. subst rem.
  simpl in Hperm. intros Hout Hitem.
  assert (∀ post, Started (RemoveFile (Path.join [destRoot; name item])) ∈ (started ++ post)
                  ∧ chainEnded destRoot item (started ++ emitted p ++ post)) as Hall.
  { intros post. split.
    - rewrite elem_of_app. left. subst started.
      apply list_elem_of_fmap. exists (copyStepTask destRoot (Removing item)).
      split; [done|]. apply list_elem_of_fmap. exists (Removing item).
      split; [done|]. apply list_elem_of_fmap. eauto.
    - apply chainEnded_more, Hfin. by rewrite <- Hperm. }
  destruct (Hall (emitted p)) as [Hst _]. destruct (Hall []) as [_ Hend].
  rewrite app_nil_r in Hend.
  destruct (rejection p) as [e|] eqn:Hr; injection Hout as <- <-;
    rewrite ?app_nil_r; done.
Qed.

Lemma no_chain_is_abandoned_witness :
  let w := {| readJson := fun _ _ => Ok Sample.two;
              getComponentTree := fun _ => Ok (Sample.tree ∅);
              installDependencies := fun _ _ => Ok tt;
              readDirectoryFlat := fun _ p => Sample.listing ["a"; "b"] p;
              isExisting := fun _ _ => Ok tt;
              writeFile := fun _ _ _ => Ok tt;
              removeFile := fun _ p => if String.eqb p "/app/modules/a"
                                       then Err "EACCES" else Ok tt;
              copyFile := fun _ _ _ => Ok tt;
              settlesNext := fun _ _ => 0 |} in
  let items := [Sample.item "/b/modules" "a"; Sample.item "/b/modules" "b"] in
  let run := copyGroup w "/app/modules" items [] in
  run.2 = Rejected (Cause "EACCES")
  ∧ Started (RemoveFile (Path.join ["/app/modules"; "b"])) ∈ run.1
  ∧ chainEnded "/app/modules" (Sample.item "/b/modules" "b") run.1.
Proof.
  intros w items run. split; [reflexivity|].
  apply (no_chain_is_abandoned w "/app/modules" items [] run.1 run.2
           (Sample.item "/b/modules" "b")).
  - reflexivity.
  - apply list_elem_of_further, list_elem_of_here.
Defined.

(** ** What gates an injection *)

Section Gated.
Context (sagasFile : string) (entries : list (string * NamespaceMeta)).

Local Abbreviation gated := (gatedInjections sagasFile entries).

Lemma gated_app t1 t2 : gated t1 → gated t2 → gated (t1 ++ t2).
Proof.
  intros H1 H2 pre code n i p post Heq.
  apply app_eq_inv in Heq as [(k & -> & Hk)|(k & -> & ->)].
  - destruct k as [|e k]; simpl in Hk.
    + destruct (H2 [] code n i p post) as (pre' & ? & ? & ? & Hp & _); [by rewrite <- Hk|].
      by destruct pre'.
    + injection Hk as <- ->.
      destruct (H1 pre code n i p k eq_refl) as (pre' & entry & code' & post' & ? & ? & ? & ->).
      exists pre', entry, code', (post' ++ t2). by split_and!.
  - destruct (H2 k code n i p post eq_refl) as (pre' & entry & code' & post' & -> & ? & ? & ?).
    exists (t1 ++ pre'), entry, code', post'. rewrite app_assoc. by split_and!.
Qed.

Lemma gated_none t : Forall (fun e => registryInjection e = false) t → gated t.
Proof.
  intros Hall pre code n i p post ->.
  apply Forall_app in Hall as [_ Hall]. by apply Forall_cons in Hall as [[=] _].
Qed.

Lemma gated_entry entry r s :
  entry ∈ entries →
  gated [Settled (IsExisting sagasFile) true;
         Invoked (InjectReducer r (reducerArgs entry).1.1 (reducerArgs entry).1.2
                    (reducerArgs entry).2);
         Invoked (InjectSaga s (sagaArgs entry).1 (sagaArgs entry).2)].
Proof.
  intros Hin pre code n i p post Heq.
  destruct pre as [|e0 [|e1 [|e2 [|e3 pre]]]]; simpl in Heq; try done.
  injection Heq as <- <- <- <- <-. exists [], entry, s, []. by split_and!.
Qed.

Lemma andThen_gated {A B} (p : Async A) (f : A → Async B) h :
  gated (p h).1 → (∀ a h', gated (f a h').1) → gated (andThen p f h).1.
Proof.
  unfold andThen. intros Hp Hf. destruct (p h) as [e1 [a|e|e]]; try done.
  specialize (Hf a (h ++ e1)). destruct (f a (h ++ e1)) as [e2 out].
  by apply gated_app.
Qed.

Lemma await_gated {A} (c : Call) (answer : Trace → Result A) h :
  gated (await c answer h).1.
Proof. unfold await. destruct (answer _); apply gated_none; by repeat constructor. Qed.

Lemma listDirs_gated {M} (w : World M) dir msg h : gated (listDirs w dir msg h).1.
Proof.
  unfold listDirs. apply andThen_gated; [by apply await_gated|].
  intros f h'. destruct (dirs f) as [[|??]|]; by apply gated_none.
Qed.

Lemma copyGroup_gated {M} (w : World M) destRoot items h :
  gated (copyGroup w destRoot items h).1.
Proof.
  destruct (copyGroup w destRoot items h) as [evs out] eqn:H.
  destruct (copyGroup_spec _ _ _ _ _ _ H) as (Hev & _).
  apply gated_none. eapply Forall_impl; [exact Hev|]. by intros [[]|[] ?|[]].
Qed.

Lemma copyDefaults_gated {M} (config : Config) (g : Gengine) (w : World M)
    (tree : ComponentTree M) items h :
  gated (copyDefaults config g w tree items h).1.
Proof.
  destruct (copyDefaults config g w tree items h) as [evs out] eqn:H.
  destruct (copyDefaults_spec _ _ _ _ _ _ _ _ H) as (Hev & _).
  apply gated_none. eapply Forall_impl; [exact Hev|]. by intros [[]|[] ?|[]].
Qed.

End Gated.

Lemma rewriteLoop_gated {M} (g : Gengine) (w : World M) (modulesSrc : string)
    (entries : list (string * NamespaceMeta)) r0 s0 h :
  gatedInjections (lastSagasFile modulesSrc entries) entries
    (allOf w (rewriteTask g modulesSrc) entries
       {| globalReducerSourceCode := r0; globalSagasSourceCode := s0;
          moduleReducerFilePath := ""; moduleSagasFilePath := "" |} h).1.
Proof.
  unfold allOf, forEachAll.
  set (v0 := {| globalReducerSourceCode := r0 |}).
  set (sagasFile := lastSagasFile modulesSrc entries).
  pose proof (spawn_tasks (rewriteTask g modulesSrc)
                (rewriteStepTask g modulesSrc sagasFile ∘ CheckingReducer) entries v0
                (fun x _ => match x with (_, _) => eq_refl end)) as Hsp.
  rewrite list_fmap_compose in Hsp.
  pose proof (spawn_rewrite_vars g modulesSrc entries v0) as (_ & _ & Hsf).
  destruct (spawn _ entries v0) as [v1 tks]. simpl in Hsp, Hsf. subst tks.
  assert (moduleSagasFilePath v1 = sagasFile) as Hsf'.
  { rewrite Hsf. unfold sagasFile, lastSagasFile. by destruct (last entries). }
  clear Hsf.
  set (started := (fun tk => Started (pending tk)) <$> _).
  pose (I := fun p : Pool RewriteVars =>
    ∃ rem,
      tasks p = rewriteStepTask g modulesSrc sagasFile <$> rem
      ∧ moduleSagasFilePath (vars p) = sagasFile
      ∧ Forall (fun x => rewriteEntry x ∈ entries) rem
      ∧ gatedInjections sagasFile entries (emitted p)).
  destruct (promiseAll_invariant w I (h ++ started)
              (rewriteStepTask g modulesSrc sagasFile <$> (CheckingReducer <$> entries)) v1)
    as (p & (rem & _ & _ & _ & Hg) & _ & Hrun).
  { exists (CheckingReducer <$> entries). split_and!; try done.
    - apply Forall_fmap, Forall_forall. by intros x Hx.
    - by apply gated_none. }
  { clear -Hsf'. intros p (rem & Ht & Hsf & Hin & Hg) Hne.
    destruct (settleOne_mirror w (rewriteStepTask g modulesSrc sagasFile) (h ++ started) p rem Ht Hne)
      as (i & x & Hx & Hrem & [(e & _ & ->)|(_ & v' & evs & next & Hr & Hnext)]).
    - exists (delete i rem). simpl. split_and!; try done.
      + by apply Forall_delete.
      + apply gated_app; [done|]. apply gated_none. by repeat constructor.
    - assert (rewriteEntry x ∈ entries) as Hx'.
      { rewrite Forall_forall in Hin. apply Hin. by eapply list_elem_of_lookup_2. }
      destruct x as [[prop value]|[prop value]]; simpl in Hr.
      + injection Hr as <- <- <-.
        destruct Hnext as [[[=] _]|(tk' & [= <-] & Hnext)].
        destruct (Hnext (CheckingSagas (prop, value))) as [Hins ->].
        { simpl. by rewrite Hsf. }
        exists (<[i := CheckingSagas (prop, value)]> rem). simpl. split_and!; try done.
        * by apply Forall_insert.
        * apply gated_app; [done|]. apply gated_none. by repeat constructor.
      + injection Hr as <- <- <-.
        destruct Hnext as [[_ ->]|(tk' & [=] & _)].
        exists (delete i rem). simpl. split_and!; try done.
        * by apply Forall_delete.
        * apply gated_app; [done|]. by apply (gated_entry _ _ (prop, value)). }
  rewrite Hrun.
  assert (gatedInjections sagasFile entries (started ++ emitted p)) as Hall.
  { apply gated_app; [|done]. apply gated_none. subst started.
    do 3 apply Forall_fmap. apply Forall_true. by intros [??]. }
  by destruct (rejection p).
Qed.

(** X18.  What gates an injection.  In a run that has read the index,
    the reducer of a namespace is injected only right after a fulfilled
    existence check of one and the same file, the [sagas.js] of the last
    manifest entry, whichever namespace is injected; and the saga of that
    namespace is injected right after its reducer. *)
Theorem injections_gated_by_last_sagas_file {M} (config : Config) (g : Gengine)
    (w : World M) (d : string) (u : option string) (h eI : Trace) (m : Manifest)
    (tree : ComponentTree M) :
  indexRead w d h = (eI, Resolved (m, tree)) →
  gatedInjections (lastSagasFile (modulesSrcDirPath d) (namespaces m)) (namespaces m)
    (installFromLocalDir config g w {| dirPath := Some d; url := u |} h).1.
Proof.
  intros HI. unfold installFromLocalDir. cbn [dirPath].
  unfold installChain.
  apply andThen_gated;
    [|intros; apply andThen_gated; [apply listDirs_gated|intros; apply copyGroup_gated]].
  unfold defaultsStaged.
  apply andThen_gated;
    [|intros; apply andThen_gated; [apply listDirs_gated|intros; apply copyDefaults_gated]].
  unfold modulesStaged.
  apply andThen_gated;
    [|intros; apply andThen_gated;
        [apply listDirs_gated
        |intros; apply andThen_gated; [apply copyGroup_gated|intros; by apply gated_none]]].
  unfold registriesWritten. rewrite (andThen_step _ _ _ _ _ HI). cbn [fst snd].
  destruct (indexRead_spec _ _ _ _ _ HI) as [HeI _].
  apply gated_app.
  { apply gated_none. eapply Forall_impl; [exact HeI|]. by intros [[]|[] ?|[]]. }
  apply andThen_gated; [|intros; by apply gated_none].
  unfold rewriteRegistries.
  apply andThen_gated; [apply rewriteLoop_gated|]. intros v h'.
  apply andThen_gated; [apply await_gated|]. intros _ h''. apply await_gated.
Qed.

Lemma injections_gated_by_last_sagas_file_witness :
  let w := Sample.scripted (Ok Sample.two) (Ok tt) (Ok (Sample.tree ∅))
             (Sample.listing ["a"; "b"])
             (Sample.allBut "/b/modules/a/sagas.js") 0 in
  gatedInjections "/b/modules/b/sagas.js" (namespaces Sample.two)
    (installFromLocalDir Sample.config Sample.tagging w Sample.bundle []).1.
Proof.
  intros w.
  apply (injections_gated_by_last_sagas_file Sample.config Sample.tagging w "/b" None []
           (indexRead w "/b" []).1 Sample.two (Sample.tree ∅)).
  reflexivity.
Defined.

(** ** The existence checks on sample bundles *)

Lemma checks_are_known_witness :
  let w := Sample.scripted (Ok Sample.two) (Ok tt) (Ok (Sample.tree ∅))
             (Sample.listing ["a"; "b"]) Sample.everything 0 in
  Forall (knownCheck (modulesSrcDirPath "/b") (namespaces Sample.two))
    (installFromLocalDir Sample.config Sample.tagging w Sample.bundle []).1.
Proof.
  intros w.
  apply (checks_are_known Sample.config Sample.tagging w "/b" None []
           (indexRead w "/b" []).1 Sample.two (Sample.tree ∅) _
           (installFromLocalDir Sample.config Sample.tagging w Sample.bundle []).2);
    reflexivity.
Defined.

Lemma failed_check_rejects_witness :
  let w := Sample.scripted (Ok Sample.two) (Ok tt) (Ok (Sample.tree ∅))
             (Sample.listing ["a"; "b"])
             (Sample.allBut "/b/modules/a/reducer.js") 0 in
  let run := installFromLocalDir Sample.config Sample.tagging w Sample.bundle [] in
  (∃ c, run.2 = Rejected (Cause c))
  ∧ Forall (fun e => fileMutation e = false) run.1.
Proof.
  intros w run.
  apply (failed_check_rejects Sample.config Sample.tagging w "/b" None []
           (indexRead w "/b" []).1 Sample.two (Sample.tree ∅) run.1 run.2);
    [reflexivity..|].
  vm_compute.
  repeat first [ apply Exists_cons_hd; reflexivity | apply Exists_cons_tl ].
Defined.
